(** * ZeroTrustAuthentication: the auth client's event bridge, wait
      correlator and proof-submission workflow

    Shallow embedding of
    - [packages/authclient/src/functions/contract.ts]: the bridge from
      contract events to the local membership mirror and to the
      [blockchainEvents] emitter ([processEvent],
      [startBlockchainListeners], [isAlreadyMember]), and
    - the client's entry file: the coordinator ([addMember],
      [sendJoinProof], [sendModTrainProof], [waitForMemberEvent], [main]).

    JavaScript strings are sequences of UTF-16 code units and bigints are
    [Z]. The mirror is a finite map from group ids to ordered lists of
    decimal strings. The process state holds the bridge's mirror object,
    what is persisted, the wait flag, the emitter's listeners and the
    promises resolved so far. A computation of the coordinator maps a state
    to the effects it performs (console output, chain queries, proof
    requests, HTTP posts), the new state, and the way it ends: by
    returning, by throwing, or suspended for ever on a promise. The bridge
    and the coordinator run in one thread: while the coordinator awaits,
    the bridge takes steps (a replayed log, a subscription, a reload, a
    live log). Everything outside the process (chain, verifier, proof
    generator, group library) is a [script] or a [world] the theorems
    quantify over.

    Layout: the values of the language ([JS]), the mirror store
    ([GroupStorage]), the state and the emitter ([Emitter]), the bridge
    ([Contract]), the coordinator ([Client]), the vocabulary of the
    specification ([Spec]), example worlds ([Examples]), the rest of the
    entry file ([Entry]), then the properties. *)

From Stdlib Require Import ZArith String Ascii List DecimalString DecimalZ DecimalPos.
From stdpp Require Import gmap strings list.

Local Open Scope Z_scope.

(** ** JavaScript values used by the client *)

Module JS.

(** A string is its sequence of UTF-16 code units. *)
Abbreviation jsstring := (list N).

(** An ASCII literal of the source, as code units. *)
Definition js (s : string) : jsstring :=
  N_of_ascii <$> list_ascii_of_string s.

(** The line feed that opens most console messages. *)
Definition nl : N := 10%N.

(** [BigInt.prototype.toString()]: the decimal numeral, with a leading
    minus sign for negative values. *)
Definition BigInt_toString (z : Z) : jsstring :=
  js (NilZero.string_of_int (Z.to_int z)).

(** A value of type [number], up to what the client observes of it:
    an integer-valued double ([+0] and [-0] both print as 0), or anything
    else ([NaN], the infinities, a finite non-integer). *)
Inductive number :=
| NumInt (z : Z)
| NumNonInteger.

Definition MAX_SAFE_INTEGER : Z := 2 ^ 53 - 1.

(** [Number.isSafeInteger]. *)
Definition Number_isSafeInteger (n : number) : bool :=
  match n with
  | NumInt z => Z.abs z <=? MAX_SAFE_INTEGER
  | NumNonInteger => false
  end.

(** [Number.prototype.toString()] on an integer-valued double below
    10^21 prints the decimal numeral; the client calls it on safe
    integers only. *)
Definition Number_toString (n : number) : jsstring :=
  match n with
  | NumInt z => BigInt_toString z
  | NumNonInteger => js "NaN"
  end.

(** [String.prototype.slice(start, end)]. *)
Definition String_slice (s : jsstring) (start end_ : Z) : jsstring :=
  let len := Z.of_nat (length s) in
  let from := if start <? 0 then Z.max (len + start) 0 else Z.min start len in
  let to := if end_ <? 0 then Z.max (len + end_) 0 else Z.min end_ len in
  take (Z.to_nat (Z.max (to - from) 0)) (drop (Z.to_nat from) s).

(** *** [JSON.stringify] on an array of strings *)

Definition is_lead_surrogate (c : N) : bool :=
  ((0xD800 <=? c) && (c <=? 0xDBFF))%N.
Definition is_trail_surrogate (c : N) : bool :=
  ((0xDC00 <=? c) && (c <=? 0xDFFF))%N.

Definition hex_digit (d : N) : N :=
  (if d <? 10 then 48 + d else 87 + d)%N.

(** [UnicodeEscape]: a backslash, [u] and four lowercase hex digits. *)
Definition UnicodeEscape (c : N) : jsstring :=
  [92; 117;
   hex_digit (N.land (N.shiftr c 12) 15); hex_digit (N.land (N.shiftr c 8) 15);
   hex_digit (N.land (N.shiftr c 4) 15); hex_digit (N.land c 15)]%N.

(** One code unit that is not part of a surrogate pair. *)
Definition quote_unit (c : N) : jsstring :=
  (if c =? 8 then [92; 98]
   else if c =? 9 then [92; 116]
   else if c =? 10 then [92; 110]
   else if c =? 12 then [92; 102]
   else if c =? 13 then [92; 114]
   else if c =? 34 then [92; 34]
   else if c =? 92 then [92; 92]
   else if (c <? 32) || is_lead_surrogate c || is_trail_surrogate c
        then UnicodeEscape c
   else [c])%N.

(** The body of [QuoteJSONString]: the string is read code point by code
    point, so a well-formed surrogate pair is copied and a lone surrogate
    is escaped. *)
Fixpoint quote_units (s : jsstring) : jsstring :=
  match s with
  | [] => []
  | c :: rest =>
      match rest with
      | d :: rest' =>
          if is_lead_surrogate c && is_trail_surrogate d
          then c :: d :: quote_units rest'
          else quote_unit c ++ quote_units rest
      | [] => quote_unit c
      end
  end.

Definition QuoteJSONString (s : jsstring) : jsstring :=
  [34%N] ++ quote_units s ++ [34%N].

Fixpoint join_comma (parts : list jsstring) : jsstring :=
  match parts with
  | [] => []
  | [p] => p
  | p :: ps => p ++ [44%N] ++ join_comma ps
  end.

(** [JSON.stringify(a)] for an array [a] of strings. *)
Definition JSON_stringify (a : list jsstring) : jsstring :=
  [91%N] ++ join_comma (QuoteJSONString <$> a) ++ [93%N].

(** *** [TextEncoder.prototype.encode]: UTF-8 *)

Definition utf8_code_point (c : N) : list N :=
  (if c <? 0x80 then [c]
   else if c <? 0x800 then
     [N.lor 0xC0 (N.shiftr c 6); N.lor 0x80 (N.land c 0x3F)]
   else if c <? 0x10000 then
     [N.lor 0xE0 (N.shiftr c 12); N.lor 0x80 (N.land (N.shiftr c 6) 0x3F);
      N.lor 0x80 (N.land c 0x3F)]
   else
     [N.lor 0xF0 (N.shiftr c 18); N.lor 0x80 (N.land (N.shiftr c 12) 0x3F);
      N.lor 0x80 (N.land (N.shiftr c 6) 0x3F); N.lor 0x80 (N.land c 0x3F)])%N.

Definition pair_code_point (hi lo : N) : N :=
  (0x10000 + (hi - 0xD800) * 0x400 + (lo - 0xDC00))%N.

(** A lone surrogate is replaced by U+FFFD. *)
Fixpoint TextEncoder_encode (s : jsstring) : list N :=
  match s with
  | [] => []
  | c :: rest =>
      match rest with
      | d :: rest' =>
          if is_lead_surrogate c && is_trail_surrogate d
          then utf8_code_point (pair_code_point c d) ++ TextEncoder_encode rest'
          else if is_lead_surrogate c || is_trail_surrogate c
          then utf8_code_point 0xFFFD ++ TextEncoder_encode rest
          else utf8_code_point c ++ TextEncoder_encode rest
      | [] =>
          if is_lead_surrogate c || is_trail_surrogate c
          then utf8_code_point 0xFFFD
          else utf8_code_point c
      end
  end.

End JS.
Export JS.

(** ** The persisted membership mirror ([functions/groupStorage]) *)

Module GroupStorage.

(** The mirror: group id to the ordered list of commitment numerals. *)
Abbreviation mirror := (gmap jsstring (list jsstring)).

(** Modelled from the spec: [addMember] of [groupStorage], whose source is
    not part of the snapshot. Section 4.1: appends the commitment to the
    group's list, and is a no-op if the commitment is already present. *)
Definition addMember (members : mirror) (groupId commitment : jsstring) : mirror :=
  let l := default [] (members !! groupId) in
  if decide (commitment ∈ l) then members
  else <[groupId := l ++ [commitment]]> members.

(** Modelled from the spec: [removeMember] of [groupStorage]. Section 4.1:
    removes the commitment, and is a no-op if it is absent. *)
Definition removeMember (members : mirror) (groupId commitment : jsstring) : mirror :=
  match members !! groupId with
  | Some l =>
      if decide (commitment ∈ l)
      then <[groupId := filter (λ x, x ≠ commitment) l]> members
      else members
  | None => members
  end.

(** Modelled from the spec: [updateMember] of [groupStorage]. Section 4.1:
    replaces the old commitment by the new one at the same position; if
    the old one is absent, behaves as [addMember] of the new one. *)
Definition updateMember (members : mirror) (groupId old new : jsstring) : mirror :=
  let l := default [] (members !! groupId) in
  if decide (old ∈ l)
  then <[groupId := (λ x, if decide (x = old) then new else x) <$> l]> members
  else addMember members groupId new.

End GroupStorage.

(** ** Shared state of the process *)

(** The five events of the contract, with their arguments in ABI order. *)
Inductive RawChainEvent :=
| GroupCreated (groupId : Z)
| MemberAdded (groupId index identityCommitment : Z)
| MembersAdded (groupId startIndex : Z) (identityCommitments : list Z)
| MemberRemoved (groupId index identityCommitment : Z)
| MemberUpdated (groupId index oldIdentityCommitment newIdentityCommitment : Z).

Inductive eventKind :=
| KGroupCreated | KMemberAdded | KMembersAdded | KMemberRemoved | KMemberUpdated.

Definition kind_of (e : RawChainEvent) : eventKind :=
  match e with
  | GroupCreated _ => KGroupCreated
  | MemberAdded _ _ _ => KMemberAdded
  | MembersAdded _ _ _ => KMembersAdded
  | MemberRemoved _ _ _ => KMemberRemoved
  | MemberUpdated _ _ _ _ => KMemberUpdated
  end.

#[global] Instance eventKind_eq_dec : EqDecision eventKind.
Proof. solve_decision. Defined.

#[global] Instance RawChainEvent_eq_dec : EqDecision RawChainEvent.
Proof. solve_decision. Defined.

(** The closure [handler] that [waitForMemberEvent] attaches to the emitter:
    it captures the call's [groupId] and [identityCommitment] and the
    [resolve] of the promise it was created in ([promiseId]). *)
Record listener := mkListener {
  promiseId : nat;
  l_groupId : jsstring;
  l_identityCommitment : option Z
}.

#[global] Instance listener_eq_dec : EqDecision listener.
Proof. solve_decision. Defined.

(** What the bridge passes to [blockchainEvents.emit]: the event name,
    the group id and, except for [GroupCreated], the commitment. *)
Record NormalizedEvent := mkEvent {
  ev_name : jsstring;
  ev_groupId : jsstring;
  ev_commitment : option jsstring
}.

Record state := mkState {
  (** the [members] object shared by the bridge's handlers *)
  members : GroupStorage.mirror;
  (** what [saveMembers] last persisted; [loadMembers] reads it *)
  disk : GroupStorage.mirror;
  (** ids passed to [saveGroupId] *)
  groupIds : list jsstring;
  (** kinds for which [contract.on] has been called *)
  subscribed : list eventKind;
  (** the module variable of the same name *)
  isWaitingForMemberEvent : bool;
  (** listeners of [blockchainEvents], per event name, in attach order *)
  listeners : gmap jsstring (list listener);
  (** promises of [waitForMemberEvent] that have been resolved *)
  fulfilled : gset nat;
  (** next fresh promise *)
  nextPromise : nat;
  (** history: every event passed to [blockchainEvents.emit], in order *)
  emitted : list NormalizedEvent
}.

Definition set_members (m : GroupStorage.mirror) (st : state) : state :=
  mkState m (disk st) (groupIds st) (subscribed st)
    (isWaitingForMemberEvent st) (listeners st) (fulfilled st) (nextPromise st)
    (emitted st).
Definition set_disk (d : GroupStorage.mirror) (st : state) : state :=
  mkState (members st) d (groupIds st) (subscribed st)
    (isWaitingForMemberEvent st) (listeners st) (fulfilled st) (nextPromise st)
    (emitted st).
Definition set_groupIds (g : list jsstring) (st : state) : state :=
  mkState (members st) (disk st) g (subscribed st)
    (isWaitingForMemberEvent st) (listeners st) (fulfilled st) (nextPromise st)
    (emitted st).
Definition set_subscribed (s : list eventKind) (st : state) : state :=
  mkState (members st) (disk st) (groupIds st) s
    (isWaitingForMemberEvent st) (listeners st) (fulfilled st) (nextPromise st)
    (emitted st).
Definition set_isWaiting (b : bool) (st : state) : state :=
  mkState (members st) (disk st) (groupIds st) (subscribed st)
    b (listeners st) (fulfilled st) (nextPromise st)
    (emitted st).
Definition set_listeners (l : gmap jsstring (list listener)) (st : state) : state :=
  mkState (members st) (disk st) (groupIds st) (subscribed st)
    (isWaitingForMemberEvent st) l (fulfilled st) (nextPromise st)
    (emitted st).
Definition set_fulfilled (f : gset nat) (st : state) : state :=
  mkState (members st) (disk st) (groupIds st) (subscribed st)
    (isWaitingForMemberEvent st) (listeners st) f (nextPromise st)
    (emitted st).
Definition set_nextPromise (n : nat) (st : state) : state :=
  mkState (members st) (disk st) (groupIds st) (subscribed st)
    (isWaitingForMemberEvent st) (listeners st) (fulfilled st) n (emitted st).
Definition set_emitted (l : list NormalizedEvent) (st : state) : state :=
  mkState (members st) (disk st) (groupIds st) (subscribed st)
    (isWaitingForMemberEvent st) (listeners st) (fulfilled st) (nextPromise st) l.

(** The state at the first start of the process: nothing persisted,
    nothing attached. *)
Definition initial : state :=
  mkState ∅ ∅ [] [] false ∅ ∅ 0%nat [].

(** ** The [blockchainEvents] emitter *)

Module Emitter.

Definition MemberAddedProcessed : jsstring := js "MemberAddedProcessed".
Definition MemberRemovedProcessed : jsstring := js "MemberRemovedProcessed".
Definition MemberUpdatedProcessed : jsstring := js "MemberUpdatedProcessed".
Definition GroupCreatedName : jsstring := js "GroupCreated".

Definition listeners_of (name : jsstring) (st : state) : list listener :=
  default [] (listeners st !! name).

(** [emitter.on(name, h)]: append. *)
Definition on (name : jsstring) (h : listener) (st : state) : state :=
  set_listeners (<[name := listeners_of name st ++ [h]]> (listeners st)) st.

Fixpoint remove_first (h : listener) (l : list listener) : list listener :=
  match l with
  | [] => []
  | x :: xs => if decide (x = h) then xs else x :: remove_first h xs
  end.

(** [emitter.off(name, h)]: drop the most recently attached instance. *)
Definition off (name : jsstring) (h : listener) (st : state) : state :=
  match listeners st !! name with
  | Some l =>
      set_listeners
        (<[name := reverse (remove_first h (reverse l))]> (listeners st)) st
  | None => st
  end.

(** The body of the closure [handler] of [waitForMemberEvent], called with
    the arguments of an emitted event. *)
Definition handler (h : listener)
    (emittedGroupId : jsstring) (emittedCommitment : option jsstring)
    (st : state) : state :=
  if decide (emittedGroupId = l_groupId h) then
    let wanted :=
      match l_identityCommitment h with
      | None => true
      | Some c =>
          (c =? 0) || bool_decide (emittedCommitment = Some (BigInt_toString c))
      end in
    if wanted then
      let st := off MemberAddedProcessed h st in
      let st := off MemberRemovedProcessed h st in
      let st := off MemberUpdatedProcessed h st in
      let st := set_isWaiting false st in
      set_fulfilled ({[promiseId h]} ∪ fulfilled st) st
    else st
  else st.

(** [emitter.emit(name, groupId, commitment)]: the listeners attached for
    the name when the call starts are called in attach order. *)
Definition emit (ev : NormalizedEvent) (st : state) : state :=
  let st := set_emitted (emitted st ++ [ev]) st in
  foldl (λ st h, handler h (ev_groupId ev) (ev_commitment ev) st)
        st (listeners_of (ev_name ev) st).

End Emitter.

(** A thrown value: an [Error] with its message. *)
Inductive exn :=
| JsError (message : jsstring).

#[global] Instance exn_eq_dec : EqDecision exn.
Proof. solve_decision. Defined.

(** ** The bridge ([functions/contract.ts]) *)

Module Contract.
Import GroupStorage Emitter.

(** Modelled from the spec: [saveMembers] of [groupStorage], whose source
    is not part of the snapshot. Section 4.1: persists the whole mapping
    as one unit. *)
Definition saveMembers (st : state) : state := set_disk (members st) st.

(** Modelled from the spec: [saveGroupId] of [groupStorage]; the spec only
    says that group ids are persisted, so the id is recorded. *)
Definition saveGroupId (idStr : jsstring) (st : state) : state :=
  set_groupIds (groupIds st ++ [idStr]) st.

(** The five closures that [startBlockchainListeners] passes to
    [processEvent]. Each receives the arguments of an event of its own
    kind. *)
Definition onGroupCreated (e : RawChainEvent) (st : state) : state :=
  match e with
  | GroupCreated groupId =>
      let idStr := BigInt_toString groupId in
      let st := saveGroupId idStr st in
      emit (mkEvent GroupCreatedName idStr None) st
  | _ => st
  end.

Definition onMemberAdded (e : RawChainEvent) (st : state) : state :=
  match e with
  | MemberAdded groupId _ identityCommitment =>
      let st :=
        set_members (addMember (members st) (BigInt_toString groupId)
                       (BigInt_toString identityCommitment)) st in
      let st := saveMembers st in
      emit (mkEvent MemberAddedProcessed (BigInt_toString groupId)
              (Some (BigInt_toString identityCommitment))) st
  | _ => st
  end.

Definition onMembersAdded (e : RawChainEvent) (st : state) : state :=
  match e with
  | MembersAdded groupId _ identityCommitments =>
      let st :=
        foldl (λ st commitment,
                 set_members (addMember (members st) (BigInt_toString groupId)
                                (BigInt_toString commitment)) st)
              st identityCommitments in
      saveMembers st
  | _ => st
  end.

Definition onMemberRemoved (e : RawChainEvent) (st : state) : state :=
  match e with
  | MemberRemoved groupId _ identityCommitment =>
      let st :=
        set_members (removeMember (members st) (BigInt_toString groupId)
                       (BigInt_toString identityCommitment)) st in
      let st := saveMembers st in
      emit (mkEvent MemberRemovedProcessed (BigInt_toString groupId)
              (Some (BigInt_toString identityCommitment))) st
  | _ => st
  end.

Definition onMemberUpdated (e : RawChainEvent) (st : state) : state :=
  match e with
  | MemberUpdated groupId _ oldIdentityCommitment newIdentityCommitment =>
      let st :=
        set_members (updateMember (members st) (BigInt_toString groupId)
                       (BigInt_toString oldIdentityCommitment)
                       (BigInt_toString newIdentityCommitment)) st in
      let st := saveMembers st in
      emit (mkEvent MemberUpdatedProcessed (BigInt_toString groupId)
              (Some (BigInt_toString newIdentityCommitment))) st
  | _ => st
  end.

Definition handler_for (k : eventKind) : RawChainEvent → state → state :=
  match k with
  | KGroupCreated => onGroupCreated
  | KMemberAdded => onMemberAdded
  | KMembersAdded => onMembersAdded
  | KMemberRemoved => onMemberRemoved
  | KMemberUpdated => onMemberUpdated
  end.

(** A live log reaches the closure of its kind once [contract.on] has been
    called for that kind, and nobody before. *)
Definition deliver (e : RawChainEvent) (st : state) : state :=
  if decide (kind_of e ∈ subscribed st) then handler_for (kind_of e) e st
  else st.

Definition deliver_all (es : list RawChainEvent) (st : state) : state :=
  foldl (λ st e, deliver e st) st es.

(** [processEvent(eventName, handler, fromBlock)], given how
    [await contract.queryFilter(eventName, fromBlock, "latest")] ended.
    When the query is rejected the function is rejected with the same
    error: nothing is replayed and [contract.on] is not reached. In an
    answer, an entry without decoded [args] is [None] and is skipped. *)
Definition processEvent (eventName : eventKind)
    (handler : RawChainEvent → state → state)
    (answer : exn + list (option RawChainEvent)) (st : state)
    : state * option exn :=
  match answer with
  | inl error => (st, Some error)
  | inr pastEvents =>
      let st :=
        foldl (λ st e, match e with Some args => handler args st | None => st end)
              st pastEvents in
      (set_subscribed (subscribed st ++ [eventName]) st, None)
  end.

(** [await] of a step of the bridge inside an [async] function without
    [try]: a rejection ends the function with the same error. *)
Definition and_then (r : state * option exn)
    (k : state → state * option exn) : state * option exn :=
  match r with
  | (st, None) => k st
  | (st, Some error) => (st, Some error)
  end.

(** What the chain hands to one run of [startBlockchainListeners]: how
    each of the five historical queries ends, and the live logs that the
    provider delivers while each [await] is pending. *)
Record script := mkScript {
  past : eventKind → exn + list (option RawChainEvent);
  live_during : eventKind → list RawChainEvent;
  live_loading : list RawChainEvent
}.

(** The result is the state in which the function ends and the error it
    is rejected with, if it is; the caller at the end of the module does
    not handle a rejection. *)
Definition startBlockchainListeners (env : script) (st : state)
    : state * option exn :=
  let st := deliver_all (live_during env KGroupCreated) st in
  and_then
    (processEvent KGroupCreated onGroupCreated (past env KGroupCreated) st)
    (λ st,
  let st := deliver_all (live_loading env) st in
  (* const members = await loadMembers() *)
  let st := set_members (disk st) st in
  let st := deliver_all (live_during env KMemberAdded) st in
  and_then
    (processEvent KMemberAdded onMemberAdded (past env KMemberAdded) st)
    (λ st,
  let st := deliver_all (live_during env KMembersAdded) st in
  and_then
    (processEvent KMembersAdded onMembersAdded (past env KMembersAdded) st)
    (λ st,
  let st := deliver_all (live_during env KMemberRemoved) st in
  and_then
    (processEvent KMemberRemoved onMemberRemoved (past env KMemberRemoved) st)
    (λ st,
  let st := deliver_all (live_during env KMemberUpdated) st in
  processEvent KMemberUpdated onMemberUpdated (past env KMemberUpdated) st)))).

(** *** The bridge, one step at a time *)

(** The bridge and the coordinator share one thread: between two points at
    which the coordinator runs, the bridge may replay a log of a historical
    query (the closure is called whether or not the kind is subscribed),
    attach a live subscription, reload the mirror, or be handed a live
    log. *)
Inductive bridge_step :=
| Replay (e : RawChainEvent)
| LiveLog (e : RawChainEvent)
| Attach (k : eventKind)
| Reload.

Definition do_step (s : bridge_step) (st : state) : state :=
  match s with
  | Replay e => handler_for (kind_of e) e st
  | LiveLog e => deliver e st
  | Attach k => set_subscribed (subscribed st ++ [k]) st
  | Reload => set_members (disk st) st
  end.

Definition do_steps (steps : list bridge_step) (st : state) : state :=
  foldl (λ st s, do_step s st) st steps.

(** *** The chain as the bridge sees it *)

(** The contract's log: events with their block, in ascending order. *)
Abbreviation ledger := (list (nat * RawChainEvent)).

(** When the bridge's requests reach the chain: the block that "latest"
    stood for in the historical query of each kind, and the block at which
    the live subscription of that kind started (it reports logs of later
    blocks only). *)
Record timing := mkTiming {
  head_at_query : eventKind → nat;
  live_from : eventKind → nat
}.

Definition in_query (T : timing) (fromBlock : nat) (k : eventKind)
    (pe : nat * RawChainEvent) : bool :=
  bool_decide (kind_of pe.2 = k) &&
  (fromBlock <=? pe.1)%nat && (pe.1 <=? head_at_query T k)%nat.

Definition is_live (T : timing) (pe : nat * RawChainEvent) : bool :=
  (live_from T (kind_of pe.2) <? pe.1)%nat.

(** What [contract.queryFilter] of kind [k] returns from a ledger. *)
Definition queryFilter (led : ledger) (T : timing) (k : eventKind)
    : list (option RawChainEvent) :=
  (λ pe, Some pe.2) <$> filter (λ pe, in_query T 0 k pe = true) led.

(** What the live subscription of kind [k] reports from a ledger, in the
    order in which it reports it. *)
Definition subscription (led : ledger) (T : timing) (k : eventKind)
    : list RawChainEvent :=
  snd <$> filter (λ pe, kind_of pe.2 = k ∧ is_live T pe = true) led.

(** Every event of the ledger handed once, in block order, to the closure
    of its kind. *)
Definition apply_all (led : ledger) (st : state) : state :=
  foldl (λ st pe, handler_for (kind_of pe.2) pe.2 st) st led.

End Contract.

(** ** The coordinator (the client's entry file) *)

Module Client.
Import GroupStorage Emitter Contract.

(** *** External collaborators *)

(** A Semaphore identity: only the client's collaborators look inside. *)
Record Identity := mkIdentity { secret : Z; publicCommitment : Z }.

(** What [generateProof] returns; the client reads [nullifier]. *)
Record SemaphoreProof := mkProof {
  merkleTreeRoot : Z;
  nullifier : Z;
  points : list Z
}.

(** The [message] argument of [generateProof]: a string for the join
    proof, a [Uint8Array] for the model-update proof. *)
Inductive proofMessage :=
| MsgString (s : jsstring)
| MsgBytes (bytes : list N).

(** A [Group] is its ordered list of members. *)
Abbreviation Group := (list Z).

Fixpoint indexOf_from (group : Group) (member : Z) (i : Z) : Z :=
  match group with
  | [] => -1
  | x :: xs => if x =? member then i else indexOf_from xs member (i + 1)
  end.

(** [group.indexOf(member)]: the first position, or -1. *)
Definition Group_indexOf (group : Group) (member : Z) : Z :=
  indexOf_from group member 0.

(** The [err] of a rejected [axios.post]: [err.response?.data] when the
    server answered, and [err.message]. *)
Record AxiosError := mkAxiosError {
  response_data : option jsstring;
  err_message : jsstring
}.

(** [err.response?.data || err.message] *)
Definition response_or_message (err : AxiosError) : jsstring :=
  match response_data err with
  | Some (c :: d) => c :: d
  | _ => err_message err
  end.

Inductive postBody :=
| AddMemberBody (groupId identityCommitment : jsstring)
| JoinProofBody (commitment : jsstring) (proof : SemaphoreProof)
    (nullifier : Z) (scope : jsstring)
| ModTrainBody (fullProof : SemaphoreProof) (nullifier : Z)
    (message : list N) (scope : jsstring).

(** Everything outside the process that the coordinator depends on. *)
Record world := mkWorld {
  (** [process.env.PORT] *)
  env_PORT : option jsstring;
  (** the outcome of steps 1 to 8 of [main] (DID documents, credential,
      identity derived from it) *)
  credentials : exn + (Identity * Z);
  (** [contract.hasMember] *)
  hasMember : jsstring → Z → exn + bool;
  (** [axios.post]: [None] for a success response *)
  axios_post : jsstring → postBody → option AxiosError;
  (** [generateProof] *)
  generateProof : Identity → Group → Z → proofMessage → jsstring
                  → exn + SemaphoreProof;
  (** [new Group(groupMembers)], on the entry of the mirror for the group
      ([None] when there is none) *)
  new_Group : option (list jsstring) → exn + Group;
  (** what the bridge does (replays, subscriptions, reload, live logs)
      before the coordinator has registered its wait or, when it does not
      wait, decided so *)
  bridge_before : list bridge_step;
  (** what the bridge does from then on, until [loadMembers()] has
      answered; the coordinator reads nothing of the state after that *)
  bridge_after : list bridge_step
}.

(** *** Observable effects of the coordinator *)

Inductive errorDetail :=
| WholeError (err : exn + AxiosError)
| ResponseOrMessage (text : jsstring).

Inductive effect :=
| ConsoleLog (text : jsstring)
| ConsoleLogMembers (text : jsstring) (groupMembers : option (list jsstring))
| ConsoleError (text : jsstring) (detail : errorDetail)
| CallHasMember (groupId : jsstring) (commitment : Z)
| HttpPost (url : jsstring) (body : postBody)
| CallGenerateProof (identity : Identity) (group : Group) (index : Z)
    (message : proofMessage) (scope : jsstring)
| CallLoadMembers.

(** How an [async] function ends: it returns, it throws, or it stays
    suspended on a promise that is never settled. *)
Inductive outcome (A : Type) :=
| Returned (a : A)
| Threw (e : exn)
| Suspended.
Arguments Returned {A} a.
Arguments Threw {A} e.
Arguments Suspended {A}.

(** A computation of the coordinator: from the process state to the
    effects performed, the new state, and how it ended. *)
Definition M (A : Type) : Type := state → list effect * state * outcome A.

Definition ret {A} (a : A) : M A := λ st, ([], st, Returned a).

Definition bind {A B} (m : M A) (k : A → M B) : M B := λ st,
  match m st with
  | (t, st', Returned a) =>
      match k a st' with
      | (t', st'', r) => (t ++ t', st'', r)
      end
  | (t, st', Threw e) => (t, st', Threw e)
  | (t, st', Suspended) => (t, st', Suspended)
  end.

Definition throw {A} (e : exn) : M A := λ st, ([], st, Threw e).
Definition tell (e : effect) : M unit := λ st, ([e], st, Returned tt).
Definition lift {A} (f : state → A * state) : M A := λ st,
  match f st with (a, st') => ([], st', Returned a) end.
Definition modify (f : state → state) : M unit := λ st, ([], f st, Returned tt).

Declare Scope client_scope.
Delimit Scope client_scope with client.
Notation "x <- m ;; k" := (bind m (λ x, k))
  (at level 100, m at next level, k at level 200, right associativity)
  : client_scope.
Notation "m ;; k" := (bind m (λ _, k))
  (at level 100, k at level 200, right associativity) : client_scope.
Local Open Scope client_scope.

Definition PORT (w : world) : jsstring :=
  match env_PORT w with
  | Some (c :: p) => c :: p
  | _ => js "3333"
  end.

Definition SERVER_URL (w : world) : jsstring := js "http://localhost:" ++ PORT w.

(** [axios.post(url, body)] followed by the success and failure branches
    the caller attaches: the request is recorded, then one of them runs. *)
Definition post_then (w : world) (url : jsstring) (body : postBody)
    (ok : M unit) (failed : AxiosError → M unit) : M unit :=
  tell (HttpPost url body) ;;
  match axios_post w url body with
  | None => ok
  | Some err => failed err
  end.

Definition addMember (w : world) (groupId : jsstring) (identityCommitment : Z)
    : M unit :=
  post_then w (SERVER_URL w ++ js "/add-member")
    (AddMemberBody groupId (BigInt_toString identityCommitment))
    (tell (ConsoleLog (nl :: js "Membre added to the group.")))
    (λ err, tell (ConsoleError (nl :: js "Error adding member :")
                    (WholeError (inr err)))).

Definition call_generateProof (w : world) (identity : Identity) (group : Group)
    (index : Z) (message : proofMessage) (scope : jsstring) : M SemaphoreProof :=
  tell (CallGenerateProof identity group index message scope) ;;
  match generateProof w identity group index message scope with
  | inl e => throw e
  | inr proof => ret proof
  end.

Definition join_url (w : world) (groupId : jsstring) : jsstring :=
  SERVER_URL w ++ js "/group/" ++ groupId ++ js "/join-proof".

Definition modtrain_url (w : world) (groupId : jsstring) : jsstring :=
  SERVER_URL w ++ js "/group/" ++ groupId ++ js "/modtrain-proof".

Definition sendJoinProof (w : world) (groupId : jsstring) (group : Group)
    (identity : Identity) (commitment : Z) : M unit :=
  let index := Group_indexOf group commitment in
  if index =? -1 then
    throw (JsError (nl :: js "Commitment not found in the group"))
  else
    let scope := js "join-" ++ groupId in
    let message := js "join-" ++ String_slice (BigInt_toString commitment) 0 8 in
    joinProof <- call_generateProof w identity group index (MsgString message) scope ;;
    post_then w (join_url w groupId)
      (JoinProofBody (BigInt_toString commitment) joinProof
         (nullifier joinProof) scope)
      (tell (ConsoleLog (nl :: js "Join Proof sent and accepted")))
      (λ err, tell (ConsoleError (nl :: js "Error while sending Join Proof :")
                      (ResponseOrMessage (response_or_message err)))).

(** An element of [deltaw] as it is at run time: the three kinds the
    function accepts, a [BigNumber] object (allowed by the declared type),
    or any other value. *)
Inductive deltawItem :=
| ItemBigInt (z : Z)
| ItemNumber (n : number)
| ItemString (s : jsstring)
| ItemBigNumber (z : Z)
| ItemOther.

(** The callback of [deltaw.map]. *)
Definition item_toString (item : deltawItem) : exn + jsstring :=
  match item with
  | ItemBigInt z => inr (BigInt_toString z)
  | ItemNumber n =>
      if negb (Number_isSafeInteger n)
      then inl (JsError (js "Unsafe number in deltaw"))
      else inr (Number_toString n)
  | ItemString s => inr s
  | ItemBigNumber _ | ItemOther =>
      inl (JsError (js "Unsupported deltaw element type"))
  end.

(** [deltaw.map(callback)]: elements in order; the first throw ends it. *)
Fixpoint map_items (deltaw : list deltawItem) : exn + list jsstring :=
  match deltaw with
  | [] => inr []
  | item :: rest =>
      match item_toString item with
      | inl e => inl e
      | inr s =>
          match map_items rest with
          | inl e => inl e
          | inr ss => inr (s :: ss)
          end
      end
  end.

Definition sendModTrainProof (w : world) (groupId : jsstring) (group : Group)
    (identity : Identity) (commitment : Z) (scope : jsstring)
    (deltaw : list deltawItem) : M unit :=
  let index := Group_indexOf group commitment in
  if index =? -1 then
    throw (JsError (js "Commitment not found in the group"))
  else
    match map_items deltaw with
    | inl e => throw e
    | inr stringArray =>
        let jsonString := JSON_stringify stringArray in
        let message := TextEncoder_encode jsonString in
        fullProof <- call_generateProof w identity group index (MsgBytes message) scope ;;
        post_then w (modtrain_url w groupId)
          (ModTrainBody fullProof (nullifier fullProof) message scope)
          (tell (ConsoleLog (nl :: js "Model Update Proof sent and accepted")))
          (λ err, tell (ConsoleError (js "Error while sending Model Update Proof :")
                          (ResponseOrMessage (response_or_message err))))
    end.

(** *** Waiting for a member event *)

(** The promise a call of [waitForMemberEvent] returns. The function
    builds the first two kinds only. *)
Inductive promise :=
| AlreadyResolved
| Created (id : nat)
| Rejected (e : exn).

Definition waitForMemberEvent (groupId : jsstring) (identityCommitment : option Z)
    (st : state) : promise * state :=
  if isWaitingForMemberEvent st then (AlreadyResolved, st)
  else
    let st := set_isWaiting true st in
    let h := mkListener (nextPromise st) groupId identityCommitment in
    let st := set_nextPromise (S (promiseId h)) st in
    let st := on MemberAddedProcessed h st in
    let st := on MemberRemovedProcessed h st in
    let st := on MemberUpdatedProcessed h st in
    (Created (promiseId h), st).

(** Whether a promise has a value at this point. *)
Definition settled (p : promise) (st : state) : bool :=
  match p with
  | AlreadyResolved => true
  | Created id => bool_decide (id ∈ fulfilled st)
  | Rejected _ => true
  end.

(** While the coordinator is suspended on [Created id] the bridge goes on,
    one step at a time; the coordinator resumes after the first step that
    resolves the promise, and the steps not consumed are returned. *)
Fixpoint await_created (id : nat) (steps : list bridge_step) (st : state)
    : state * option (list bridge_step) :=
  if bool_decide (id ∈ fulfilled st) then (st, Some steps)
  else
    match steps with
    | [] => (st, None)
    | s :: rest => await_created id rest (Contract.do_step s st)
    end.

Definition await (p : promise) (steps : list bridge_step)
    : M (list bridge_step) := λ st,
  match p with
  | AlreadyResolved => ([], st, Returned steps)
  | Rejected e => ([], st, Threw e)
  | Created id =>
      match await_created id steps st with
      | (st', Some rest) => ([], st', Returned rest)
      | (st', None) => ([], st', Suspended)
      end
  end.

(** *** [main] *)

(** [isAlreadyMember] of [functions/contract.ts]. *)
Definition isAlreadyMember (w : world) (groupId : jsstring) (commitment : Z)
    : M bool :=
  tell (CallHasMember groupId commitment) ;;
  match hasMember w groupId commitment with
  | inr result => ret result
  | inl error =>
      tell (ConsoleError (js "Error verifying member:") (WholeError (inl error))) ;;
      throw error
  end.

(** Modelled from the spec: [loadMembers] of [groupStorage], whose source
    is not part of the snapshot. Section 4.1: [load()] returns the
    persisted mapping. The bridge takes the steps that are left while the
    call is awaited. *)
Definition loadMembers (steps : list bridge_step) : M mirror :=
  tell CallLoadMembers ;;
  modify (Contract.do_steps steps) ;;
  lift (λ st, (disk st, st)).

Definition Group_new (w : world) (groupMembers : option (list jsstring))
    : M Group :=
  match new_Group w groupMembers with
  | inl e => throw e
  | inr g => ret g
  end.

(** Steps 1 to 8: every collaborator is outside this development; the
    world says whether they produce an identity. *)
Definition prepare_identity (w : world) : M (Identity * Z) :=
  match credentials w with
  | inl e => throw e
  | inr ic => ret ic
  end.

(** Steps 10 to 12 of [main]: everything after the membership branch. *)
Definition main_proofs (w : world) (groupId : jsstring) (identity : Identity)
    (commitment : Z) (steps : list bridge_step) : M unit :=
  members <- loadMembers steps ;;
  let groupMembers := members !! groupId in
  tell (ConsoleLogMembers (nl :: js "10. The members of the group :" ++ [nl; nl])
          groupMembers) ;;
  group <- Group_new w groupMembers ;;
  tell (ConsoleLog (nl :: js "11. Sending proof of membership to the server")) ;;
  sendJoinProof w groupId group identity commitment ;;
  tell (ConsoleLog (nl :: js "12. Sending proof of model update to the server")) ;;
  let scope := js "round-1" in
  let message := [ItemBigInt 1; ItemBigInt 2; ItemBigInt 3] in
  sendModTrainProof w groupId group identity commitment scope message.

Definition main (w : world) (groupId : jsstring) : M unit :=
  ic <- prepare_identity w ;;
  let identity := ic.1 in
  let commitment := ic.2 in
  tell (ConsoleLog (nl :: js "9. Sending a request to join a group to the server")) ;;
  modify (Contract.do_steps (bridge_before w)) ;;
  alreadyMember <- isAlreadyMember w groupId commitment ;;
  steps <-
    (if negb alreadyMember then
       addMember w groupId commitment ;;
       tell (ConsoleLog (nl :: js "Waiting for member event processing...")) ;;
       p <- lift (waitForMemberEvent groupId (Some commitment)) ;;
       await p (bridge_after w)
     else
       tell (ConsoleLog (nl :: js "Already a member.")) ;;
       ret (bridge_after w)) ;;
  main_proofs w groupId identity commitment steps.

End Client.

(** ** Vocabulary of the specification *)

Module Spec.
Import GroupStorage Emitter Contract Client.

(** The model-update values the specification accepts: an
    arbitrary-precision integer, an exactly representable number, or a
    string. *)
Definition supported (item : deltawItem) : bool :=
  match item with
  | ItemBigInt _ => true
  | ItemNumber n => Number_isSafeInteger n
  | ItemString _ => true
  | ItemBigNumber _ | ItemOther => false
  end.

(** The canonical decimal string of a supported value; a string value is
    already formatted and stands for itself. *)
Definition canonical (item : deltawItem) : jsstring :=
  match item with
  | ItemBigInt z => BigInt_toString z
  | ItemNumber (NumInt z) => BigInt_toString z
  | ItemString s => s
  | _ => []
  end.

(** The proof message of the specification: the bytes of the JSON array of
    the canonical strings, in input order. *)
Definition proof_message (deltaw : list deltawItem) : list N :=
  TextEncoder_encode (JSON_stringify (canonical <$> deltaw)).

(** The two errors that reject a model-update value. *)
Definition unsupported_value_error (e : exn) : Prop :=
  e = JsError (js "Unsafe number in deltaw") ∨
  e = JsError (js "Unsupported deltaw element type").

(** The error for a commitment that the group does not contain, as thrown
    by [sendModTrainProof] and (after a line feed) by [sendJoinProof]. *)
Definition commitment_not_found_error (e : exn) : Prop :=
  e = JsError (js "Commitment not found in the group") ∨
  e = JsError (nl :: js "Commitment not found in the group").

(** The public message and the scope of a join proof. *)
Definition join_message (commitment : Z) : jsstring :=
  js "join-" ++ take 8 (BigInt_toString commitment).
Definition join_scope (groupId : jsstring) : jsstring :=
  js "join-" ++ groupId.

Definition is_http (ef : effect) : bool :=
  match ef with HttpPost _ _ => true | _ => false end.
Definition is_proof_generation (ef : effect) : bool :=
  match ef with CallGenerateProof _ _ _ _ _ => true | _ => false end.

(** *** Wait registrations *)

(** The three events a wait registration listens to. *)
Definition member_event_names : list jsstring :=
  [MemberAddedProcessed; MemberRemovedProcessed; MemberUpdatedProcessed].

(** The registration made for listener [h] is pending: the flag is up, [h]
    is the one listener of each of the three member events, and its
    promise has not been resolved. *)
Definition pending (h : listener) (st : state) : Prop :=
  isWaitingForMemberEvent st = true
  ∧ (∀ name, listeners_of name st
             = if decide (name ∈ member_event_names) then [h] else [])
  ∧ promiseId h ∉ fulfilled st.

(** No registration is pending. *)
Definition idle (st : state) : Prop :=
  isWaitingForMemberEvent st = false ∧ ∀ name, listeners_of name st = [].

(** What holds of the flag, the listeners and the promises in every state
    the process can be in. *)
Definition wait_inv (st : state) : Prop :=
  (idle st ∨ ∃ h, pending h st ∧ (promiseId h < nextPromise st)%nat)
  ∧ ∀ i, i ∈ fulfilled st → (i < nextPromise st)%nat.

(** The states of a run: the process starts with whatever mirror and
    group ids an earlier run persisted; the bridge handles a log, attaches
    a subscription or reloads the mirror; the coordinator asks to wait. *)
Inductive reachable : state → Prop :=
| reach_start persisted ids :
    reachable (set_groupIds ids (set_disk persisted initial))
| reach_log k e st :
    reachable st → reachable (handler_for k e st)
| reach_subscribe k st :
    reachable st → reachable (set_subscribed (subscribed st ++ [k]) st)
| reach_reload st :
    reachable st → reachable (set_members (disk st) st)
| reach_wait groupId identityCommitment st :
    reachable st →
    reachable (waitForMemberEvent groupId identityCommitment st).2.

(** The test made by the handler of [h] on the arguments of an event. *)
Definition wants (h : listener) (g : jsstring) (c : option jsstring) : Prop :=
  g = l_groupId h
  ∧ match l_identityCommitment h with
    | None => True
    | Some z => z = 0 ∨ c = Some (BigInt_toString z)
    end.

#[global] Instance wants_dec h g c : Decision (wants h g c).
Proof.
  unfold wants. destruct (l_identityCommitment h); apply _.
Defined.

(** Two states that agree on everything a wait registration depends on. *)
Definition same_wait (st st' : state) : Prop :=
  isWaitingForMemberEvent st' = isWaitingForMemberEvent st
  ∧ listeners st' = listeners st
  ∧ fulfilled st' = fulfilled st
  ∧ nextPromise st' = nextPromise st.

(** An emitted event carries the key of a registration for [(g, c)]. *)
Definition hits (g : jsstring) (c : Z) (ev : NormalizedEvent) : Prop :=
  ev_name ev ∈ member_event_names
  ∧ ev_groupId ev = g
  ∧ ev_commitment ev = Some (BigInt_toString c).

(** *** The bridge and the mirror *)

(** What handling one event does to the mirror. *)
Definition apply_to_mirror (e : RawChainEvent) (m : mirror) : mirror :=
  match e with
  | GroupCreated _ => m
  | MemberAdded g _ c =>
      GroupStorage.addMember m (BigInt_toString g) (BigInt_toString c)
  | MembersAdded g _ cs =>
      foldl (λ m c, GroupStorage.addMember m (BigInt_toString g)
                      (BigInt_toString c)) m cs
  | MemberRemoved g _ c =>
      removeMember m (BigInt_toString g) (BigInt_toString c)
  | MemberUpdated g _ old new =>
      updateMember m (BigInt_toString g) (BigInt_toString old)
        (BigInt_toString new)
  end.

Definition apply_list (es : list RawChainEvent) (m : mirror) : mirror :=
  foldl (λ m e, apply_to_mirror e m) m es.

(** The events of kind [k] that the historical query returns. *)
Definition backfilled (led : ledger) (T : timing) (k : eventKind)
    : list RawChainEvent :=
  snd <$> filter (λ pe, in_query T 0 k pe = true) led.

(** The logs that reach a closure in a sequence of steps of the bridge, in
    order: every replayed log, and every live log whose kind is subscribed
    when it arrives; [subs] are the kinds subscribed at the start. *)
Fixpoint handled_by (subs : list eventKind) (steps : list bridge_step)
    : list RawChainEvent :=
  match steps with
  | [] => []
  | Replay e :: rest => e :: handled_by subs rest
  | LiveLog e :: rest =>
      if decide (kind_of e ∈ subs) then e :: handled_by subs rest
      else handled_by subs rest
  | Attach k :: rest => handled_by (subs ++ [k]) rest
  | Reload :: rest => handled_by subs rest
  end.

(** One [processEvent] of a start-up as steps: the live logs that arrive
    during the query and, if the query is answered, the replay of the
    decoded entries, the subscription, and what follows. A rejected query
    ends the start-up. The chain answers a query with logs of the kind
    asked for; an entry of another kind, with which no closure does
    anything, is not a step. *)
Definition query_steps (env : script) (k : eventKind)
    (next : list bridge_step) : list bridge_step :=
  (LiveLog <$> live_during env k)
  ++ match past env k with
     | inl _ => []
     | inr pastEvents =>
         (Replay <$> filter (λ e, kind_of e = k) (omap id pastEvents))
         ++ [Attach k] ++ next
     end.

(** The steps of one run of [startBlockchainListeners]. *)
Definition startup_steps (env : script) : list bridge_step :=
  query_steps env KGroupCreated
    ((LiveLog <$> live_loading env) ++ [Reload]
     ++ query_steps env KMemberAdded
          (query_steps env KMembersAdded
             (query_steps env KMemberRemoved
                (query_steps env KMemberUpdated [])))).

(** The five kinds, in the order in which a start-up queries them. *)
Definition all_kinds : list eventKind :=
  [KGroupCreated; KMemberAdded; KMembersAdded; KMemberRemoved; KMemberUpdated].

(** The error a start-up is rejected with: the error of the first query
    that fails, if one does. *)
Definition startup_error (env : script) : option exn :=
  head (omap (λ k, match past env k with inl e => Some e | inr _ => None end)
          all_kinds).

(** The kinds for which a sequence of steps attaches a subscription. *)
Definition attached (steps : list bridge_step) : list eventKind :=
  omap (λ s, match s with Attach k => Some k | _ => None end) steps.

(** The query of kind [k] is answered. *)
Definition answered (env : script) (k : eventKind) : Prop :=
  ∃ pastEvents, past env k = inr pastEvents.

(** The live logs delivered during a start-up before [contract.on] is
    called for kind [k]. *)
Definition before_subscription (env : script) (k : eventKind)
    : list RawChainEvent :=
  match k with
  | KGroupCreated => live_during env KGroupCreated
  | KMemberAdded =>
      live_during env KGroupCreated ++ live_loading env
      ++ live_during env KMemberAdded
  | KMembersAdded =>
      live_during env KGroupCreated ++ live_loading env
      ++ live_during env KMemberAdded ++ live_during env KMembersAdded
  | KMemberRemoved =>
      live_during env KGroupCreated ++ live_loading env
      ++ live_during env KMemberAdded ++ live_during env KMembersAdded
      ++ live_during env KMemberRemoved
  | KMemberUpdated =>
      live_during env KGroupCreated ++ live_loading env
      ++ live_during env KMemberAdded ++ live_during env KMembersAdded
      ++ live_during env KMemberRemoved ++ live_during env KMemberUpdated
  end.

(** All live logs of a run, in the order of delivery: those delivered
    during the start-up, then [es]. *)
Definition live_logs (env : script) (es : list RawChainEvent)
    : list RawChainEvent :=
  before_subscription env KMemberUpdated ++ es.

(** The start-up [env] followed by the live logs [es] is a run against the
    ledger: every query is answered from the ledger; the live logs of each
    kind are what its subscription reports, each once and in that order,
    however the kinds are interleaved; and no log of a kind is delivered
    before [contract.on] has been called for it. *)
Definition run_on (led : ledger) (T : timing) (env : script)
    (es : list RawChainEvent) : Prop :=
  (∀ k, past env k = inr (queryFilter led T k))
  ∧ (∀ k, filter (λ e, kind_of e = k) (live_logs env es) = subscription led T k)
  ∧ (∀ k, Forall (λ e, kind_of e ≠ k) (before_subscription env k)).

(** The event was mined after the block that "latest" stood for in the
    query of its kind, and not after the block at which the subscription
    of its kind started. *)
Definition in_gap (T : timing) (pe : nat * RawChainEvent) : bool :=
  (head_at_query T (kind_of pe.2) <? pe.1)%nat
  && (pe.1 <=? live_from T (kind_of pe.2))%nat.

(** The events of the ledger that lie in no gap, in ledger order. *)
Definition outside_gaps (led : ledger) (T : timing) : list RawChainEvent :=
  snd <$> filter (λ pe, in_gap T pe = false) led.

(** *** The coordinator's requests *)

Definition add_member_url (w : world) : jsstring :=
  SERVER_URL w ++ js "/add-member".

(** An add-member request: a post to the admission endpoint, or a post of
    an admission body. *)
Definition is_add_member_request (w : world) (ef : effect) : Prop :=
  match ef with
  | HttpPost url body =>
      url = add_member_url w ∨ ∃ g c, body = AddMemberBody g c
  | _ => False
  end.

Definition join_body (commitment : Z) (proof : SemaphoreProof)
    (groupId : jsstring) : postBody :=
  JoinProofBody (BigInt_toString commitment) proof (nullifier proof)
    (join_scope groupId).

Definition modtrain_body (proof : SemaphoreProof) (message : list N)
    (scope : jsstring) : postBody :=
  ModTrainBody proof (nullifier proof) message scope.

(** The values [main] sends as its model update. *)
Definition round1_values : list deltawItem :=
  [ItemBigInt 1; ItemBigInt 2; ItemBigInt 3].

(** What [main] does after the add-member request: wait for the member
    event, then build the proofs. *)
Definition wait_then_prove (w : world) (groupId : jsstring)
    (identity : Identity) (commitment : Z) : M unit :=
  bind (bind (lift (waitForMemberEvent groupId (Some commitment)))
          (λ p, await p (bridge_after w)))
       (main_proofs w groupId identity commitment).

(** From [st] to [st'] no promise was created and no listener attached. *)
Definition no_new_wait (st st' : state) : Prop :=
  nextPromise st' = nextPromise st
  ∧ ∀ name h, h ∈ listeners_of name st' → h ∈ listeners_of name st.

(** A computation whose effects all satisfy [P] and whose state change
    satisfies [R], however it ends. *)
Definition keeps {A} (P : effect → Prop) (R : state → state → Prop)
    (m : M A) : Prop :=
  ∀ st, Forall P (m st).1.1 ∧ R st (m st).1.2.

End Spec.

(** ** Concrete worlds used in the examples *)

Module Examples.
Import Contract Client.

(** [BigInt(s)] on the numerals the mirror holds (what
    [BigInt.prototype.toString] prints, possibly with leading zeros); any
    other text is reported as a [SyntaxError]. *)
Definition BigInt_of_string (s : jsstring) : option Z :=
  if forallb (λ c, c <? 128)%N s then
    match NilZero.int_of_string (string_of_list_ascii (ascii_of_N <$> s)) with
    | Some d => Some (Z.of_int d)
    | None => None
    end
  else None.

Fixpoint parse_members (l : list jsstring) : exn + Group :=
  match l with
  | [] => inr []
  | s :: rest =>
      match BigInt_of_string s with
      | None => inl (JsError (js "Cannot convert to a BigInt"))
      | Some z =>
          match parse_members rest with
          | inl e => inl e
          | inr zs => inr (z :: zs)
          end
      end
  end.

(** A group built from the decimal numerals of the mirror; no members
    when the group has no entry. *)
Definition decimal_group (groupMembers : option (list jsstring)) : exn + Group :=
  parse_members (default [] groupMembers).

Definition identity0 : Identity := mkIdentity 11 123.
Definition proof0 : SemaphoreProof := mkProof 0 99 [].

(** The chain says "not a member", every request is answered with
    success, and the bridge takes no step meanwhile. *)
Definition friendly : world :=
  mkWorld None (inr (identity0, 123)) (λ _ _, inr false) (λ _ _, None)
    (λ _ _ _ _ _, inr proof0) decimal_group [] [].

(** While the coordinator waits, the chain reports a batch that contains
    the commitment and then the commitment on its own. *)
Definition joining : world :=
  mkWorld None (inr (identity0, 123)) (λ _ _, inr false) (λ _ _, None)
    (λ _ _ _ _ _, inr proof0) decimal_group []
    [LiveLog (MembersAdded 7 0 [5; 123]); LiveLog (MemberAdded 7 2 123)].

(** The member event is handled before the coordinator starts to wait. *)
Definition early_event : world :=
  mkWorld None (inr (identity0, 123)) (λ _ _, inr false) (λ _ _, None)
    (λ _ _ _ _ _, inr proof0) decimal_group [LiveLog (MemberAdded 7 0 123)] [].

(** The bridge after a start-up on an empty chain. *)
Definition listening : state :=
  (Contract.startBlockchainListeners
     (Contract.mkScript (λ _, inr []) (λ _, []) []) initial).1.

(** The coordinator runs while the bridge is still starting: the member
    event is in the answer to the historical query and is replayed while
    the coordinator waits, before any member subscription exists. *)
Definition replayed : world :=
  mkWorld None (inr (identity0, 123)) (λ _ _, inr false) (λ _ _, None)
    (λ _ _ _ _ _, inr proof0) decimal_group []
    [Attach KGroupCreated; Reload;
     Replay (MemberAdded 7 0 123); Attach KMemberAdded].

(** A start-up whose queries are answered from a ledger and during which
    no live log is delivered. *)
Definition quiet_startup (led : ledger) (T : timing) : script :=
  mkScript (λ k, inr (queryFilter led T k)) (λ _, []) [].

(** The same, except that the live logs [es] are delivered while the
    query for [MemberRemoved] is pending. *)
Definition busy_startup (led : ledger) (T : timing) (es : list RawChainEvent)
    : script :=
  mkScript (λ k, inr (queryFilter led T k))
    (λ k, match k with KMemberRemoved => es | _ => [] end) [].

(** Every query sees the block [head] as the latest, and every
    subscription reports the logs of later blocks. *)
Definition at_block (head : nat) : timing := mkTiming (λ _, head) (λ _, head).

(** The chain says "already a member". *)
Definition already_member : world :=
  mkWorld None (inr (identity0, 123)) (λ _ _, inr true) (λ _ _, None)
    (λ _ _ _ _ _, inr proof0) decimal_group [] [].

(** The chain says "already a member" and the verifier rejects. *)
Definition rejecting : world :=
  mkWorld None (inr (identity0, 123)) (λ _ _, inr true)
    (λ _ _, Some (mkAxiosError (Some (js "invalid proof")) (js "status 400")))
    (λ _ _ _ _ _, inr proof0) decimal_group [] [].

(** The same, with a server that cannot be reached. *)
Definition unreachable : world :=
  mkWorld None (inr (identity0, 123)) (λ _ _, inr false)
    (λ _ _, Some (mkAxiosError None (js "connect ECONNREFUSED")))
    (λ _ _ _ _ _, inr proof0) decimal_group [] [].

End Examples.

(** ** The rest of the entry file: [waitForGroupCreated] and [run] *)

Module Entry.
Import GroupStorage Emitter Contract Client.

(** The id with which the step calls [emit("GroupCreated", id)], if it
    does. *)
Definition announced_group (s : bridge_step) (st : state) : option jsstring :=
  match s with
  | Replay (GroupCreated groupId) => Some (BigInt_toString groupId)
  | LiveLog (GroupCreated groupId) =>
      if decide (KGroupCreated ∈ subscribed st)
      then Some (BigInt_toString groupId) else None
  | _ => None
  end.

(** The listener attached by [blockchainEvents.once("GroupCreated", ...)]
    is called by the first such [emit] and detaches itself; the steps given
    are those the bridge takes before the coordinator runs again. The
    result is the id of the first announcement, if there is one. *)
Fixpoint first_group_created (steps : list bridge_step) (st : state)
    : option jsstring * state :=
  match steps with
  | [] => (None, st)
  | s :: rest =>
      match announced_group s st with
      | Some groupId => (Some groupId, foldl (λ st s, do_step s st) (do_step s st) rest)
      | None => first_group_created rest (do_step s st)
      end
  end.

Definition waitForGroupCreated (steps : list bridge_step) : M jsstring := λ st,
  match first_group_created steps st with
  | (Some groupId, st') => ([], st', Returned groupId)
  | (None, st') => ([], st', Suspended)
  end.

(** What [run().catch(console.error)] shows: the effects of [main], the two
    messages of [run] itself, and the error printed by the final
    [catch]. *)
Inductive run_effect :=
| InMain (ef : effect)
| RunLog (text : jsstring) (value : option jsstring)
| RunError (e : exn).

(** [run().catch(console.error)], given what [getAllGroupIds()] returns
    ([groupStorage] is not part of the snapshot) and the steps the bridge
    takes while [waitForGroupCreated] is pending. *)
Definition run (w : world) (groupExistant : list jsstring)
    (steps : list bridge_step) (st : state)
    : list run_effect * state * outcome unit :=
  let '(t, st', r) :=
    match groupExistant with
    | [] =>
        match waitForGroupCreated steps st with
        | (_, st1, Returned groupId) =>
            match main w groupId st1 with
            | (t, st2, r) =>
                (RunLog (nl :: js "Waiting for group creation...") None
                 :: (InMain <$> t), st2, r)
            end
        | (_, st1, Threw e) =>
            ([RunLog (nl :: js "Waiting for group creation...") None], st1, Threw e)
        | (_, st1, Suspended) =>
            ([RunLog (nl :: js "Waiting for group creation...") None], st1, Suspended)
        end
    | groupId :: _ =>
        match main w groupId st with
        | (t, st2, r) =>
            (RunLog (nl :: js "Group exists with Id : ") (Some groupId)
             :: (InMain <$> t), st2, r)
        end
    end in
  match r with
  | Threw e => (t ++ [RunError e], st', Returned tt)
  | _ => (t, st', r)
  end.

End Entry.

(** ** Further vocabulary *)

Module Facts.
Import GroupStorage Emitter Contract Client Spec Entry.

(** The events the closure of a log passes to the emitter. *)
Definition normalize (e : RawChainEvent) : list NormalizedEvent :=
  match e with
  | GroupCreated g => [mkEvent GroupCreatedName (BigInt_toString g) None]
  | MemberAdded g _ c =>
      [mkEvent MemberAddedProcessed (BigInt_toString g) (Some (BigInt_toString c))]
  | MembersAdded _ _ _ => []
  | MemberRemoved g _ c =>
      [mkEvent MemberRemovedProcessed (BigInt_toString g)
         (Some (BigInt_toString c))]
  | MemberUpdated g _ _ new =>
      [mkEvent MemberUpdatedProcessed (BigInt_toString g)
         (Some (BigInt_toString new))]
  end.

(** The urls of the requests posted in a trace, in order. *)
Definition posted_urls (t : list effect) : list jsstring :=
  omap (λ ef, match ef with HttpPost url _ => Some url | _ => None end) t.

(** The requests posted by a computation are, in order, among those of
    [l]. *)
Definition posts_within {A} (l : list jsstring) (m : M A) : Prop :=
  ∀ st, posted_urls (m st).1.1 `sublist_of` l.

(** The error thrown for a value that is not supported. *)
Definition rejection_of (item : deltawItem) : exn :=
  match item with
  | ItemNumber _ => JsError (js "Unsafe number in deltaw")
  | _ => JsError (js "Unsupported deltaw element type")
  end.

(** The group ids of the [GroupCreated] events emitted from state [st] to
    the later state [st'], in order. *)
Definition groups_created (st st' : state) : list jsstring :=
  ev_groupId
  <$> filter (λ ev, ev_name ev = GroupCreatedName)
        (drop (length (emitted st)) (emitted st')).

(** What [run] makes of a run of [main]: its first message, the effects of
    [main], and the error of [main] printed by the final [catch]. *)
Definition finish (first : run_effect) (x : list effect * state * outcome unit)
    : list run_effect * state * outcome unit :=
  match x with
  | (t, st, Threw e) => (first :: (InMain <$> t) ++ [RunError e], st, Returned tt)
  | (t, st, r) => (first :: (InMain <$> t), st, r)
  end.

(** A computation that cannot end suspended. *)
Definition never_suspends {A} (m : M A) : Prop :=
  ∀ st, (m st).2 ≠ Suspended.

(** The log announces the key (g, c) of a wait. *)
Definition announces (g : jsstring) (c : Z) (e : RawChainEvent) : Prop :=
  Exists (hits g c) (normalize e).

#[global] Instance hits_dec g c ev : Decision (hits g c ev).
Proof. unfold hits. apply _. Defined.

#[global] Instance announces_dec g c e : Decision (announces g c e).
Proof. unfold announces. apply _. Defined.

(** Characters that [JSON.stringify] copies and UTF-8 encodes as
    themselves. *)
Definition plain (c : N) : Prop :=
  (32 ≤ c ∧ c < 128 ∧ c ≠ 34 ∧ c ≠ 92)%N.

(** The JSON text of an array of integers written as decimal strings. *)
Definition json_of_integers (zs : list Z) : jsstring :=
  [91%N] ++ join_comma ((λ z, [34%N] ++ BigInt_toString z ++ [34%N]) <$> zs)
  ++ [93%N].

(** The integer a supported non-string value stands for. *)
Definition integer_of (item : deltawItem) : option Z :=
  match item with
  | ItemBigInt z => Some z
  | ItemNumber (NumInt z) => if Number_isSafeInteger (NumInt z) then Some z else None
  | _ => None
  end.

End Facts.

(** * Properties *)

Import GroupStorage Emitter Contract Client Spec.

(** ** Looking up a commitment in a group *)

Lemma indexOf_from_minus_one group member i :
  0 <= i → (indexOf_from group member i = -1 ↔ member ∉ group).
Proof.
  revert i. induction group as [|x xs IH]; intros i Hi; simpl.
  - split; [intros _; apply not_elem_of_nil | done].
  - destruct (Z.eqb_spec x member) as [->|Hne].
    + split; [lia | intros H; exfalso; apply H; left].
    + rewrite IH by lia. rewrite not_elem_of_cons.
      split; [intros ?; split; [congruence | done] | by intros [_ ?]].
Qed.

Lemma Group_indexOf_minus_one group member :
  Group_indexOf group member = -1 ↔ member ∉ group.
Proof. apply indexOf_from_minus_one. lia. Qed.

Lemma Group_indexOf_present group member :
  member ∈ group → (Group_indexOf group member =? -1) = false.
Proof.
  intros Hin. apply Z.eqb_neq. rewrite Group_indexOf_minus_one. tauto.
Qed.

(** ** Validation and canonical form of model-update values *)

Lemma item_toString_supported item :
  supported item = true → item_toString item = inr (canonical item).
Proof.
  destruct item as [z|[z|]|s|z|]; simpl; try done.
  by intros ->.
Qed.

Lemma item_toString_unsupported item :
  supported item = false →
  ∃ e, item_toString item = inl e ∧ unsupported_value_error e.
Proof.
  destruct item as [z|n|s|z|]; simpl; try done.
  - intros ->. eexists; split; [done | by left].
  - intros _. eexists; split; [done | by right].
  - intros _. eexists; split; [done | by right].
Qed.

Lemma map_items_supported deltaw :
  Forall (λ item, supported item = true) deltaw →
  map_items deltaw = inr (canonical <$> deltaw).
Proof.
  induction 1 as [|item rest Hitem _ IH]; simpl; [done|].
  by rewrite item_toString_supported, IH.
Qed.

Lemma map_items_unsupported deltaw :
  (∃ item, item ∈ deltaw ∧ supported item = false) →
  ∃ e, map_items deltaw = inl e ∧ unsupported_value_error e.
Proof.
  induction deltaw as [|item rest IH]; intros (bad & Hin & Hbad).
  - by apply elem_of_nil in Hin.
  - simpl. destruct (supported item) eqn:Hs.
    + rewrite item_toString_supported by done.
      apply elem_of_cons in Hin as [->|Hin]; [congruence|].
      destruct IH as (e & -> & He); [by exists bad|]. by exists e.
    + destruct (item_toString_unsupported item Hs) as (e & -> & He).
      by exists e.
Qed.

(** ** [slice(0, 8)] *)

Lemma String_slice_0_8 s : String_slice s 0 8 = take 8 s.
Proof.
  unfold String_slice.
  change (0 <? 0) with false. change (8 <? 0) with false. cbv iota.
  rewrite (Z.min_l 0) by lia. rewrite drop_0.
  destruct (decide (8 ≤ length s)%nat).
  - f_equal. lia.
  - rewrite !take_ge; [done | lia | lia].
Qed.

(** ** The two proof-construction calls *)

Lemma commitment_absent_step w groupId (group : Group) identity commitment st :
  commitment ∉ group →
  sendJoinProof w groupId group identity commitment st
    = ([], st, Threw (JsError (nl :: js "Commitment not found in the group")))
  ∧ ∀ scope deltaw,
      sendModTrainProof w groupId group identity commitment scope deltaw st
      = ([], st, Threw (JsError (js "Commitment not found in the group"))).
Proof.
  intros Habs. apply Group_indexOf_minus_one in Habs.
  unfold sendJoinProof, sendModTrainProof. rewrite Habs. done.
Qed.

(** C8. The join proof is requested with the message "join-" followed by
    the first 8 characters of the commitment's decimal string (all of it
    when it has fewer) and with the scope "join-" followed by the group id;
    both depend on the group id and the commitment only, and the posted
    body carries the same scope. *)
Theorem join_message_and_scope
    w groupId (group : Group) identity commitment st :
  commitment ∈ group →
  ∃ t r,
    sendJoinProof w groupId group identity commitment st
    = (CallGenerateProof identity group (Group_indexOf group commitment)
         (MsgString (join_message commitment)) (join_scope groupId) :: t, st, r)
    ∧ join_message commitment = js "join-" ++ take 8 (BigInt_toString commitment)
    ∧ length (take 8 (BigInt_toString commitment))
      = (8 `min` length (BigInt_toString commitment))%nat
    ∧ join_scope groupId = js "join-" ++ groupId
    ∧ ∀ url body, HttpPost url body ∈ t →
        url = join_url w groupId ∧
        ∃ proof, body = JoinProofBody (BigInt_toString commitment) proof
                          (nullifier proof) (join_scope groupId).
Proof.
  intros Hin. unfold sendJoinProof.
  rewrite (Group_indexOf_present _ _ Hin), String_slice_0_8.
  fold (join_message commitment). fold (join_scope groupId).
  pose proof (length_take (BigInt_toString commitment) 8) as Hlen.
  set (m := (8 `min` _)%nat) in *. clearbody m.
  unfold bind, call_generateProof, post_then, tell, throw, ret.
  destruct (generateProof w _ _ _ _ _) as [e|proof]; simpl.
  - do 2 eexists. do 4 (split; [done|]).
    intros url body H. by apply elem_of_nil in H.
  - destruct (axios_post w _ _) as [err|]; simpl;
      (do 2 eexists; do 4 (split; [done|]); intros url body H;
       rewrite ?elem_of_cons, elem_of_nil in H; destruct_or!;
       simplify_eq; eauto).
Qed.

Lemma join_message_and_scope_witness :
  123 ∈ [5; 123]
  ∧ ∃ t r,
      sendJoinProof Examples.friendly (js "7") [5; 123] Examples.identity0 123 initial
      = (CallGenerateProof Examples.identity0 [5; 123] 1
           (MsgString (js "join-123")) (js "join-7") :: t, initial, r).
Proof.
  assert (H : 123 ∈ [5; 123]) by (by compute_done).
  split; [exact H|].
  destruct (join_message_and_scope Examples.friendly (js "7") [5; 123]
              Examples.identity0 123 initial H) as (t & r & Heq & _).
  exists t, r. exact Heq.
Defined.

(** C2 as stated fails when the commitment is not in the group: the
    unsafe number is never looked at, and the error is the
    commitment-not-found one. *)
Lemma unsafe_number_but_commitment_absent :
  supported (ItemNumber (NumInt 9007199254740992)) = false
  ∧ sendModTrainProof Examples.friendly (js "7") [] Examples.identity0 123
      (js "round-1")
      [ItemBigInt 1; ItemString (js "2"); ItemNumber (NumInt 9007199254740992)]
      initial
    = ([], initial, Threw (JsError (js "Commitment not found in the group")))
  ∧ ¬ unsupported_value_error (JsError (js "Commitment not found in the group")).
Proof.
  split; [reflexivity|]. split; [reflexivity|].
  intros [H|H]; discriminate H.
Qed.

(** C2, amended. A model-update call whose values include an unsupported
    one (a number that is not a safe integer, or a value of another type)
    throws before any proof is requested and before any request is posted,
    leaving the process state as it was. The lookup of the commitment comes
    first: the error is the unsupported-value one when the commitment is in
    the group, and the commitment-not-found one otherwise. *)
Theorem unsupported_value_fails_before_any_work
    w groupId (group : Group) identity commitment scope deltaw st :
  (∃ item, item ∈ deltaw ∧ supported item = false) →
  ∃ e,
    sendModTrainProof w groupId group identity commitment scope deltaw st
    = ([], st, Threw e)
    ∧ (commitment ∈ group → unsupported_value_error e)
    ∧ (commitment ∉ group → e = JsError (js "Commitment not found in the group")).
Proof.
  intros Hbad. unfold sendModTrainProof.
  destruct (decide (commitment ∈ group)) as [Hin|Habs].
  - rewrite (Group_indexOf_present _ _ Hin).
    destruct (map_items_unsupported deltaw Hbad) as (e & -> & He).
    exists e. split; [done|]. split; [done | tauto].
  - pose proof Habs as Hidx. apply Group_indexOf_minus_one in Hidx.
    rewrite Hidx. simpl. eexists. split; [done|]. split; [tauto | done].
Qed.

Lemma unsupported_value_fails_before_any_work_witness :
  (∃ item, item ∈ [ItemBigInt 1; ItemString (js "2");
                   ItemNumber (NumInt 9007199254740992)]
           ∧ supported item = false)
  ∧ sendModTrainProof Examples.friendly (js "7") [5; 123] Examples.identity0 123
      (js "round-1")
      [ItemBigInt 1; ItemString (js "2"); ItemNumber (NumInt 9007199254740992)]
      initial
    = ([], initial, Threw (JsError (js "Unsafe number in deltaw"))).
Proof.
  assert (H : ∃ item, item ∈ [ItemBigInt 1; ItemString (js "2");
                              ItemNumber (NumInt 9007199254740992)]
                      ∧ supported item = false).
  { exists (ItemNumber (NumInt 9007199254740992)).
    split; [| reflexivity]. do 2 right. left. }
  split; [exact H|].
  destruct (unsupported_value_fails_before_any_work Examples.friendly (js "7")
              [5; 123] Examples.identity0 123 (js "round-1") _ initial H)
    as (e & Heq & _).
  vm_compute in Heq. injection Heq as <-. reflexivity.
Defined.

(** C6. When every value is supported, the strings computed by the call
    are the canonical decimal strings of the values in input order, and
    the message handed to proof generation, and posted with the proof, is
    the UTF-8 encoding of the JSON array of these strings. *)
Theorem message_is_json_of_canonical_strings
    w groupId (group : Group) identity commitment scope deltaw st :
  Forall (λ item, supported item = true) deltaw →
  map_items deltaw = inr (canonical <$> deltaw)
  ∧ (commitment ∈ group →
     ∃ t r,
       sendModTrainProof w groupId group identity commitment scope deltaw st
       = (CallGenerateProof identity group (Group_indexOf group commitment)
            (MsgBytes (proof_message deltaw)) scope :: t, st, r)
       ∧ ∀ url body, HttpPost url body ∈ t →
           url = modtrain_url w groupId ∧
           ∃ proof, body = ModTrainBody proof (nullifier proof)
                             (proof_message deltaw) scope).
Proof.
  intros Hok. pose proof (map_items_supported deltaw Hok) as Hmap.
  split; [done|]. intros Hin. unfold sendModTrainProof.
  rewrite (Group_indexOf_present _ _ Hin), Hmap.
  fold (proof_message deltaw).
  unfold bind, call_generateProof, post_then, tell, throw, ret.
  destruct (generateProof w _ _ _ _ _) as [e|proof]; simpl.
  - do 2 eexists. split; [done|].
    intros url body H. by apply elem_of_nil in H.
  - destruct (axios_post w _ _) as [err|]; simpl;
      (do 2 eexists; split; [done|]; intros url body H;
       rewrite ?elem_of_cons, elem_of_nil in H; destruct_or!;
       simplify_eq; eauto).
Qed.

Lemma message_is_json_of_canonical_strings_witness :
  Forall (λ item, supported item = true)
    [ItemBigInt 1; ItemString (js "2"); ItemNumber (NumInt 3)]
  ∧ map_items [ItemBigInt 1; ItemString (js "2"); ItemNumber (NumInt 3)]
    = inr [js "1"; js "2"; js "3"]
  ∧ proof_message [ItemBigInt 1; ItemString (js "2"); ItemNumber (NumInt 3)]
    = [91; 34; 49; 34; 44; 34; 50; 34; 44; 34; 51; 34; 93]%N.
Proof.
  assert (H : Forall (λ item, supported item = true)
                [ItemBigInt 1; ItemString (js "2"); ItemNumber (NumInt 3)]).
  { repeat constructor. }
  split; [exact H|].
  destruct (message_is_json_of_canonical_strings Examples.friendly (js "7")
              [5; 123] Examples.identity0 123 (js "round-1") _ initial H)
    as [Hmap _].
  split; [exact Hmap | reflexivity].
Defined.

(** ** The emitter and the wait registrations *)

Lemma listeners_of_on n name h st :
  listeners_of n (on name h st)
  = if decide (n = name) then listeners_of name st ++ [h] else listeners_of n st.
Proof.
  unfold listeners_of, on. simpl.
  rewrite lookup_insert. repeat case_decide; simplify_eq; done.
Qed.

Lemma listeners_of_off n name h st :
  listeners_of n (off name h st)
  = if decide (n = name)
    then reverse (remove_first h (reverse (listeners_of name st)))
    else listeners_of n st.
Proof.
  unfold listeners_of, off.
  destruct (listeners st !! name) as [l|] eqn:Hl; simpl.
  - rewrite lookup_insert. repeat case_decide; simplify_eq; done.
  - case_decide; simplify_eq; [by rewrite Hl | done].
Qed.

Lemma off_single n name h st :
  (listeners_of n st = [] ∨ listeners_of n st = [h]) →
  listeners_of n (off name h st)
  = if decide (n = name) then [] else listeners_of n st.
Proof.
  intros Hn. rewrite listeners_of_off. case_decide as Heq; [|done].
  subst n. destruct Hn as [->| ->]; simpl; [done|].
  by rewrite decide_True.
Qed.

Lemma member_event_names_elem name :
  name ∈ member_event_names ↔
  name = MemberAddedProcessed ∨ name = MemberRemovedProcessed
  ∨ name = MemberUpdatedProcessed.
Proof.
  unfold member_event_names. rewrite !elem_of_cons, elem_of_nil. tauto.
Qed.

(** What firing the handler of a pending registration leaves behind. *)
Lemma handler_fires h st g c :
  pending h st →
  wants h g c →
  let st' := handler h g c st in
  idle st' ∧ fulfilled st' = {[promiseId h]} ∪ fulfilled st
  ∧ members st' = members st ∧ disk st' = disk st
  ∧ groupIds st' = groupIds st ∧ subscribed st' = subscribed st
  ∧ nextPromise st' = nextPromise st ∧ emitted st' = emitted st.
Proof.
  intros (Hflag & Hl & Hfresh) [-> Hwant]. unfold handler.
  rewrite decide_True by done.
  assert (Hw : match l_identityCommitment h with
               | Some z => (z =? 0) || bool_decide (c = Some (BigInt_toString z))
               | None => true
               end = true).
  { destruct (l_identityCommitment h) as [z|]; [|done].
    destruct Hwant as [->| ->]; [done|].
    rewrite bool_decide_eq_true_2 by done. apply orb_true_r. }
  rewrite Hw. cbv zeta.
  assert (Hone : ∀ n, listeners_of n st = [] ∨ listeners_of n st = [h]).
  { intros n. rewrite Hl. case_decide; auto. }
  set (st1 := off MemberAddedProcessed h st).
  assert (H1 : ∀ n, listeners_of n st1
                    = if decide (n = MemberAddedProcessed) then []
                      else listeners_of n st).
  { intros n. by apply off_single. }
  set (st2 := off MemberRemovedProcessed h st1).
  assert (H2 : ∀ n, listeners_of n st2
                    = if decide (n = MemberRemovedProcessed) then []
                      else listeners_of n st1).
  { intros n. apply off_single. rewrite H1. case_decide; auto. }
  set (st3 := off MemberUpdatedProcessed h st2).
  assert (H3 : ∀ n, listeners_of n st3
                    = if decide (n = MemberUpdatedProcessed) then []
                      else listeners_of n st2).
  { intros n. apply off_single. rewrite H2, H1. repeat case_decide; auto. }
  assert (Hfields : members st3 = members st ∧ disk st3 = disk st
                    ∧ groupIds st3 = groupIds st ∧ subscribed st3 = subscribed st
                    ∧ nextPromise st3 = nextPromise st ∧ emitted st3 = emitted st
                    ∧ fulfilled st3 = fulfilled st).
  { unfold st3, st2, st1, off.
    repeat (match goal with |- context [listeners ?s !! ?n] =>
              destruct (listeners s !! n) end; simpl). all: done. }
  destruct Hfields as (? & ? & ? & ? & ? & ? & Hf).
  split; [split; [done|]|].
  - intros n. change (listeners_of n st3 = []).
    rewrite H3, H2, H1, Hl. repeat case_decide; try done.
    exfalso. rewrite member_event_names_elem in *. tauto.
  - simpl. rewrite Hf. done.
Qed.

Lemma handler_skips h st g c : ¬ wants h g c → handler h g c st = st.
Proof.
  intros Hno. unfold handler. case_decide as Hg; [|done].
  destruct (l_identityCommitment h) as [z|] eqn:Hc.
  - destruct (Z.eqb_spec z 0) as [->|Hz].
    + exfalso. apply Hno. split; [done|]. rewrite Hc. by left.
    + simpl. case_bool_decide as Hd; [|done].
      exfalso. apply Hno. split; [done|]. rewrite Hc. by right.
  - exfalso. apply Hno. split; [done|]. by rewrite Hc.
Qed.

Lemma pending_set_emitted h l st : pending h st → pending h (set_emitted l st).
Proof. by intros (? & ? & ?). Qed.

Lemma idle_set_emitted l st : idle st → idle (set_emitted l st).
Proof. by intros (? & ?). Qed.

(** Emitting while nothing is pending only extends the history. *)
Lemma emit_idle ev st :
  idle st → emit ev st = set_emitted (emitted st ++ [ev]) st.
Proof.
  intros [_ Hl]. unfold emit. cbv zeta.
  change (listeners_of (ev_name ev) (set_emitted (emitted st ++ [ev]) st))
    with (listeners_of (ev_name ev) st).
  by rewrite Hl.
Qed.

(** Emitting an event that the pending registration does not listen to or
    does not want only extends the history. *)
Lemma emit_pending_miss h ev st :
  pending h st →
  ¬ (ev_name ev ∈ member_event_names ∧ wants h (ev_groupId ev) (ev_commitment ev)) →
  emit ev st = set_emitted (emitted st ++ [ev]) st.
Proof.
  intros (_ & Hl & _) Hno. unfold emit. cbv zeta.
  change (listeners_of (ev_name ev) (set_emitted (emitted st ++ [ev]) st))
    with (listeners_of (ev_name ev) st).
  rewrite Hl. case_decide as Hn; [|done]. simpl.
  apply handler_skips. tauto.
Qed.

(** Emitting an event that the pending registration listens to and wants
    resolves its promise and takes the registration down. *)
Lemma emit_pending_hit h ev st :
  pending h st →
  ev_name ev ∈ member_event_names →
  wants h (ev_groupId ev) (ev_commitment ev) →
  let st' := emit ev st in
  idle st' ∧ fulfilled st' = {[promiseId h]} ∪ fulfilled st
  ∧ members st' = members st ∧ disk st' = disk st
  ∧ groupIds st' = groupIds st ∧ subscribed st' = subscribed st
  ∧ nextPromise st' = nextPromise st ∧ emitted st' = emitted st ++ [ev].
Proof.
  intros Hp Hn Hw. unfold emit. cbv zeta.
  change (listeners_of (ev_name ev) (set_emitted (emitted st ++ [ev]) st))
    with (listeners_of (ev_name ev) st).
  destruct Hp as (Hflag & Hl & Hfresh). rewrite Hl, decide_True by done.
  simpl. apply (handler_fires h (set_emitted (emitted st ++ [ev]) st)); [|done].
  by apply pending_set_emitted.
Qed.

Lemma same_wait_refl st : same_wait st st.
Proof. done. Qed.

Lemma same_wait_trans st1 st2 st3 :
  same_wait st1 st2 → same_wait st2 st3 → same_wait st1 st3.
Proof. unfold same_wait. intros (?&?&?&?) (?&?&?&?). repeat split; congruence. Qed.

Lemma same_wait_pending h st st' : same_wait st st' → pending h st → pending h st'.
Proof.
  intros (Hw & Hl & Hf & Hn) (? & Hls & ?). unfold pending, listeners_of in *.
  rewrite Hw, Hl, Hf. done.
Qed.

Lemma same_wait_idle st st' : same_wait st st' → idle st → idle st'.
Proof.
  intros (Hw & Hl & Hf & Hn) (? & Hls). unfold idle, listeners_of in *.
  rewrite Hw, Hl. done.
Qed.

Lemma same_wait_inv st st' : same_wait st st' → wait_inv st → wait_inv st'.
Proof.
  intros Hs [Hcase Hlt]. pose proof Hs as (Hw & Hl & Hf & Hn). split.
  - destruct Hcase as [Hi|(h & Hp & Hh)].
    + left. by eapply same_wait_idle.
    + right. exists h. rewrite Hn. split; [by eapply same_wait_pending | done].
  - rewrite Hf, Hn. done.
Qed.

Lemma distinct_member_event_names :
  MemberAddedProcessed ≠ MemberRemovedProcessed
  ∧ MemberAddedProcessed ≠ MemberUpdatedProcessed
  ∧ MemberRemovedProcessed ≠ MemberUpdatedProcessed.
Proof. repeat split; discriminate. Qed.

(** A call made while nothing is pending creates a promise and attaches
    its handler to the three member events. *)
Lemma waitForMemberEvent_registers groupId identityCommitment st :
  idle st →
  (∀ i, i ∈ fulfilled st → (i < nextPromise st)%nat) →
  let h := mkListener (nextPromise st) groupId identityCommitment in
  let st' := (waitForMemberEvent groupId identityCommitment st).2 in
  (waitForMemberEvent groupId identityCommitment st).1 = Created (nextPromise st)
  ∧ pending h st'
  ∧ nextPromise st' = S (nextPromise st)
  ∧ fulfilled st' = fulfilled st
  ∧ members st' = members st ∧ disk st' = disk st ∧ emitted st' = emitted st.
Proof.
  intros [Hflag Hl] Hlt. unfold waitForMemberEvent. rewrite Hflag. cbv zeta.
  simpl. split; [done|]. split; [|done].
  destruct distinct_member_event_names as (Har & Hau & Hru).
  split; [done|]. split.
  - intros n. rewrite !listeners_of_on.
    change (listeners_of ?m (set_nextPromise _ (set_isWaiting _ st)))
      with (listeners_of m st).
    rewrite !Hl. pose proof (member_event_names_elem n) as Hn.
    repeat case_decide; simplify_eq; try done; exfalso; tauto.
  - simpl. intros Hin. apply Hlt in Hin. lia.
Qed.

(** A call made while the flag is up changes nothing. *)
Lemma waitForMemberEvent_flag_up groupId identityCommitment st :
  isWaitingForMemberEvent st = true →
  waitForMemberEvent groupId identityCommitment st = (AlreadyResolved, st).
Proof. intros H. unfold waitForMemberEvent. by rewrite H. Qed.

Lemma emit_wait_inv ev st : wait_inv st → wait_inv (emit ev st).
Proof.
  intros [Hcase Hlt]. destruct Hcase as [Hi|(h & Hp & Hh)].
  - rewrite emit_idle by done. split; [left; by apply idle_set_emitted | done].
  - destruct (decide (ev_name ev ∈ member_event_names
                      ∧ wants h (ev_groupId ev) (ev_commitment ev)))
      as [[Hn Hw]|Hno].
    + destruct (emit_pending_hit h ev st Hp Hn Hw)
        as (Hidle & Hf & _ & _ & _ & _ & Hnext & _).
      split; [by left|]. rewrite Hf, Hnext. intros i.
      rewrite elem_of_union, elem_of_singleton. intros [->|Hi]; auto.
    + rewrite (emit_pending_miss h ev st Hp Hno).
      split; [|done]. right. exists h. split; [|done].
      by apply pending_set_emitted.
Qed.

(** The mirror part of [onMembersAdded]: it does not touch what a wait
    registration depends on, and emits nothing. *)
Lemma add_batch_same_wait g cs st :
  let st' := foldl (λ st commitment,
                      set_members (GroupStorage.addMember (members st) g
                                     (BigInt_toString commitment)) st) st cs in
  same_wait st st' ∧ emitted st' = emitted st ∧ subscribed st' = subscribed st.
Proof.
  revert st. induction cs as [|c cs IH]; intros st; simpl; [done|].
  destruct (IH (set_members (GroupStorage.addMember (members st) g (BigInt_toString c)) st))
    as (Hs & He & Hsub).
  split; [|split; [by rewrite He | by rewrite Hsub]].
  eapply same_wait_trans; [|exact Hs]. done.
Qed.

(** Every closure of the bridge first updates mirror fields, then emits at
    most one event. *)
Lemma handler_for_shape k e st :
  ∃ stm, same_wait st stm ∧ emitted stm = emitted st
         ∧ subscribed stm = subscribed st
         ∧ (handler_for k e st = stm ∨ ∃ ev, handler_for k e st = emit ev stm).
Proof.
  destruct k, e; simpl;
    try (exists st; repeat split; by left).
  - eexists. split; [|split; [|split; [|right; eexists; reflexivity]]]; done.
  - eexists. split; [|split; [|split; [|right; eexists; reflexivity]]]; done.
  - destruct (add_batch_same_wait (BigInt_toString groupId) identityCommitments st)
      as (Hs & He & Hsub).
    eexists. split; [|split; [|split; [|left; reflexivity]]];
      unfold saveMembers; simpl; [|done|done].
    eapply same_wait_trans; [exact Hs | done].
  - eexists. split; [|split; [|split; [|right; eexists; reflexivity]]]; done.
  - eexists. split; [|split; [|split; [|right; eexists; reflexivity]]]; done.
Qed.

Lemma handler_for_wait_inv k e st : wait_inv st → wait_inv (handler_for k e st).
Proof.
  intros Hinv. destruct (handler_for_shape k e st) as (stm & Hs & _ & _ & Hcase).
  apply (same_wait_inv _ _ Hs) in Hinv.
  destruct Hcase as [->|(ev & ->)]; [done | by apply emit_wait_inv].
Qed.

Lemma waitForMemberEvent_wait_inv g c st :
  wait_inv st → wait_inv (waitForMemberEvent g c st).2.
Proof.
  intros Hinv. destruct (isWaitingForMemberEvent st) eqn:Hflag.
  - by rewrite waitForMemberEvent_flag_up.
  - destruct Hinv as [[Hi|(h & (Hup & _) & _)] Hlt]; [|congruence].
    destruct (waitForMemberEvent_registers g c st Hi Hlt)
      as (_ & Hp & Hn & Hf & _).
    split.
    + right. eexists. split; [exact Hp|]. rewrite Hn. simpl. lia.
    + rewrite Hf, Hn. intros i Hin. apply Hlt in Hin. lia.
Qed.

Lemma reach_initial : reachable initial.
Proof. exact (reach_start ∅ []). Qed.

(** The invariant holds in every state of a run. *)
Lemma reachable_wait_inv st : reachable st → wait_inv st.
Proof.
  induction 1 as [persisted ids|k e st _ IH|k st _ IH|st _ IH|g c st _ IH].
  - split; [left; split; [done|]|].
    + intros n. unfold listeners_of. simpl. by rewrite lookup_empty.
    + intros i Hi. simpl in Hi. by apply elem_of_empty in Hi.
  - by apply handler_for_wait_inv.
  - eapply same_wait_inv; [|exact IH]. done.
  - eapply same_wait_inv; [|exact IH]. done.
  - by apply waitForMemberEvent_wait_inv.
Qed.

(** ** Requests to wait *)

(** C1 as stated fails: with a wait for ("7", 123) pending and no event
    emitted, a request to wait for ("7", 456) is answered by a promise that
    is already resolved; it is neither the pending promise nor a rejected
    one. *)
Lemma second_wait_resolves_without_event :
  (waitForMemberEvent (js "7") (Some 123) initial).1 = Created 0
  ∧ settled (Created 0) (waitForMemberEvent (js "7") (Some 123) initial).2 = false
  ∧ emitted (waitForMemberEvent (js "7") (Some 123) initial).2 = []
  ∧ (waitForMemberEvent (js "7") (Some 456)
       (waitForMemberEvent (js "7") (Some 123) initial).2).1 = AlreadyResolved
  ∧ settled AlreadyResolved
      (waitForMemberEvent (js "7") (Some 456)
         (waitForMemberEvent (js "7") (Some 123) initial).2).2 = true
  ∧ AlreadyResolved ≠ Created 0
  ∧ ∀ e, AlreadyResolved ≠ Rejected e.
Proof. repeat split; try reflexivity; intros; discriminate. Qed.

(** C1, amended. While a wait registration is pending (its handler is
    attached to the emitter), a further request to wait returns at once a
    promise that is already resolved, whatever key it names: no handler is
    attached for it, the state is unchanged, and the pending registration
    stays as it was, still unresolved. *)
Theorem wait_while_pending_is_resolved_at_once
    st name h groupId identityCommitment :
  reachable st →
  h ∈ listeners_of name st →
  waitForMemberEvent groupId identityCommitment st = (AlreadyResolved, st)
  ∧ settled AlreadyResolved st = true
  ∧ pending h st
  ∧ settled (Created (promiseId h)) st = false.
Proof.
  intros Hr Hin. destruct (reachable_wait_inv st Hr) as [[[_ Hl]|(h' & Hp & _)] _].
  - rewrite Hl in Hin. by apply elem_of_nil in Hin.
  - pose proof Hp as (Hflag & Hl & Hfresh). rewrite Hl in Hin.
    case_decide; [|by apply elem_of_nil in Hin].
    apply list_elem_of_singleton in Hin as ->.
    split; [by apply waitForMemberEvent_flag_up|]. split; [done|].
    split; [done|]. simpl. by apply bool_decide_eq_false_2.
Qed.

Lemma wait_while_pending_is_resolved_at_once_witness :
  reachable (waitForMemberEvent (js "7") (Some 123) initial).2
  ∧ mkListener 0 (js "7") (Some 123)
      ∈ listeners_of MemberAddedProcessed
          (waitForMemberEvent (js "7") (Some 123) initial).2
  ∧ waitForMemberEvent (js "7") (Some 456)
      (waitForMemberEvent (js "7") (Some 123) initial).2
    = (AlreadyResolved, (waitForMemberEvent (js "7") (Some 123) initial).2).
Proof.
  assert (Hr : reachable (waitForMemberEvent (js "7") (Some 123) initial).2).
  { apply reach_wait, reach_initial. }
  assert (Hin : mkListener 0 (js "7") (Some 123)
                  ∈ listeners_of MemberAddedProcessed
                      (waitForMemberEvent (js "7") (Some 123) initial).2).
  { vm_compute. left. }
  split; [exact Hr|]. split; [exact Hin|].
  exact (proj1 (wait_while_pending_is_resolved_at_once _ _ _
                  (js "7") (Some 456) Hr Hin)).
Defined.

Lemma pending_unsettled h st :
  pending h st → settled (Created (promiseId h)) st = false.
Proof. intros (_ & _ & Hf). simpl. by apply bool_decide_eq_false_2. Qed.

Lemma hits_wants h g c ev :
  l_groupId h = g → l_identityCommitment h = Some c → c ≠ 0 →
  hits g c ev ↔
  ev_name ev ∈ member_event_names ∧ wants h (ev_groupId ev) (ev_commitment ev).
Proof.
  intros Hg Hc Hz. unfold hits, wants. rewrite Hg, Hc.
  split; [intros (?&?&?); auto | intros (? & ? & [?|?]); done].
Qed.

(** Events that miss the key leave a pending registration pending. *)
Lemma misses_keep_pending h g c evs st :
  l_groupId h = g → l_identityCommitment h = Some c → c ≠ 0 →
  pending h st →
  Forall (λ e, ¬ hits g c e) evs →
  pending h (foldl (λ s e, emit e s) st evs).
Proof.
  intros Hg Hc Hz Hp Hall. revert st Hp.
  induction Hall as [|ev evs Hmiss _ IH]; intros st Hp; simpl; [done|].
  apply IH. rewrite (emit_pending_miss h ev st Hp).
  - by apply pending_set_emitted.
  - by rewrite <- (hits_wants h g c ev).
Qed.

(** C4 as stated fails: a [MemberRemovedProcessed] event with the
    registered key resolves the wait, and that is what the bridge emits
    when it handles [MemberRemoved(7, 0, 123)]. *)
Lemma removal_event_resolves_wait :
  settled (Created 0) (waitForMemberEvent (js "7") (Some 123) initial).2 = false
  ∧ MemberRemovedProcessed ≠ MemberAddedProcessed
  ∧ MemberRemovedProcessed ≠ MemberUpdatedProcessed
  ∧ settled (Created 0)
      (emit (mkEvent MemberRemovedProcessed (js "7") (Some (js "123")))
         (waitForMemberEvent (js "7") (Some 123) initial).2) = true
  ∧ settled (Created 0)
      (onMemberRemoved (MemberRemoved 7 0 123)
         (waitForMemberEvent (js "7") (Some 123) initial).2) = true.
Proof. repeat split; try discriminate; by vm_compute. Qed.

(** C4, amended. A wait registered for the key (g, c), with c not zero,
    stays unresolved through any emitted events that miss the key, and the
    next event resolves it exactly when it is one of
    [MemberAddedProcessed], [MemberRemovedProcessed] and
    [MemberUpdatedProcessed] and carries the group g and the decimal
    string of c. An event of another name, for another group or for
    another commitment leaves it pending. *)
Theorem wait_resolves_exactly_on_its_key st0 g c evs ev :
  reachable st0 →
  isWaitingForMemberEvent st0 = false →
  c ≠ 0 →
  Forall (λ e, ¬ hits g c e) evs →
  let p := (waitForMemberEvent g (Some c) st0).1 in
  let st := foldl (λ s e, emit e s) (waitForMemberEvent g (Some c) st0).2 evs in
  settled p st = false
  ∧ (hits g c ev → settled p (emit ev st) = true)
  ∧ (¬ hits g c ev → settled p (emit ev st) = false).
Proof.
  intros Hr Hflag Hz Hall p st.
  destruct (reachable_wait_inv st0 Hr) as [[Hi|(h' & (Hup & _) & _)] Hlt];
    [|congruence].
  destruct (waitForMemberEvent_registers g (Some c) st0 Hi Hlt)
    as (Hp1 & Hp & _).
  set (h := mkListener (nextPromise st0) g (Some c)) in *.
  assert (Hpst : pending h st).
  { by apply (misses_keep_pending h g c). }
  subst p. rewrite Hp1. change (nextPromise st0) with (promiseId h).
  split; [by apply pending_unsettled|]. split.
  - intros Hhit. apply (hits_wants h g c ev) in Hhit as [Hn Hw]; [|done..].
    destruct (emit_pending_hit h ev st Hpst Hn Hw) as (_ & Hf & _).
    simpl. apply bool_decide_eq_true_2. rewrite Hf.
    apply elem_of_union_l, elem_of_singleton. done.
  - intros Hmiss. apply pending_unsettled.
    rewrite (emit_pending_miss h ev st Hpst).
    + by apply pending_set_emitted.
    + by rewrite <- (hits_wants h g c ev).
Qed.

Lemma wait_resolves_exactly_on_its_key_witness :
  reachable initial
  ∧ isWaitingForMemberEvent initial = false
  ∧ (123 ≠ 0)
  ∧ Forall (λ e, ¬ hits (js "7") 123 e)
      [mkEvent MemberAddedProcessed (js "7") (Some (js "456"));
       mkEvent MemberAddedProcessed (js "8") (Some (js "123"));
       mkEvent GroupCreatedName (js "7") None]
  ∧ settled (waitForMemberEvent (js "7") (Some 123) initial).1
      (emit (mkEvent MemberUpdatedProcessed (js "7") (Some (js "123")))
         (foldl (λ s e, emit e s) (waitForMemberEvent (js "7") (Some 123) initial).2
            [mkEvent MemberAddedProcessed (js "7") (Some (js "456"));
             mkEvent MemberAddedProcessed (js "8") (Some (js "123"));
             mkEvent GroupCreatedName (js "7") None])) = true.
Proof.
  assert (Hz : 123 ≠ 0) by lia.
  assert (Hall : Forall (λ e, ¬ hits (js "7") 123 e)
      [mkEvent MemberAddedProcessed (js "7") (Some (js "456"));
       mkEvent MemberAddedProcessed (js "8") (Some (js "123"));
       mkEvent GroupCreatedName (js "7") None]).
  { repeat constructor.
    - intros (_ & _ & H). discriminate H.
    - intros (_ & H & _). discriminate H.
    - intros (_ & _ & H). discriminate H. }
  split; [exact reach_initial|]. split; [reflexivity|]. split; [exact Hz|].
  split; [exact Hall|].
  apply (wait_resolves_exactly_on_its_key initial (js "7") 123 _
           (mkEvent MemberUpdatedProcessed (js "7") (Some (js "123")))
           reach_initial eq_refl Hz Hall).
  split; [apply member_event_names_elem; auto|]. split; reflexivity.
Defined.

(** ** Batches of members *)

Lemma addMember_keeps members g c x :
  x ∈ default [] (members !! g) →
  x ∈ default [] (GroupStorage.addMember members g c !! g).
Proof.
  intros Hx. unfold GroupStorage.addMember. case_decide; [done|].
  rewrite lookup_insert_eq. simpl. apply elem_of_app. by left.
Qed.

Lemma addMember_adds members g c :
  c ∈ default [] (GroupStorage.addMember members g c !! g).
Proof.
  unfold GroupStorage.addMember. case_decide; [done|].
  rewrite lookup_insert_eq. simpl. apply elem_of_app. right. left.
Qed.

Lemma add_batch_members g cs st :
  let st' := foldl (λ st commitment,
                      set_members (GroupStorage.addMember (members st) g
                                     (BigInt_toString commitment)) st) st cs in
  (∀ x, x ∈ default [] (members st !! g) → x ∈ default [] (members st' !! g))
  ∧ ∀ c, c ∈ cs → BigInt_toString c ∈ default [] (members st' !! g).
Proof.
  revert st. induction cs as [|c cs IH]; intros st; simpl.
  - split; [done|]. intros c Hc. by apply elem_of_nil in Hc.
  - destruct (IH (set_members (GroupStorage.addMember (members st) g
                                 (BigInt_toString c)) st)) as [Hkeep Hadd].
    split.
    + intros x Hx. apply Hkeep. simpl. by apply addMember_keeps.
    + intros c' [->|Hc']%elem_of_cons; [|by apply Hadd].
      apply Hkeep. simpl. apply addMember_adds.
Qed.

(** C10. Handling a [MembersAdded] batch puts every commitment of the
    batch into the group's list of the mirror and persists it, and passes
    nothing to the emitter; so every wait registration that was pending is
    still pending afterwards, and no promise has been resolved, even when
    the batch contains the commitment it waits for. *)
Theorem batch_is_mirrored_but_not_announced st groupId startIndex cs :
  let st' := onMembersAdded (MembersAdded groupId startIndex cs) st in
  (∀ c, c ∈ cs →
        BigInt_toString c ∈ default [] (members st' !! BigInt_toString groupId))
  ∧ disk st' = members st'
  ∧ emitted st' = emitted st
  ∧ (∀ h, pending h st → pending h st')
  ∧ (∀ id, settled (Created id) st' = settled (Created id) st).
Proof.
  simpl.
  destruct (add_batch_same_wait (BigInt_toString groupId) cs st) as (Hs & He & _).
  destruct (add_batch_members (BigInt_toString groupId) cs st) as [_ Hadd].
  unfold saveMembers. simpl. split; [exact Hadd|]. split; [done|].
  split; [exact He|]. split.
  - intros h Hp. eapply same_wait_pending; [|exact Hp].
    eapply same_wait_trans; [exact Hs | done].
  - intros id. destruct Hs as (_ & _ & Hf & _). by rewrite Hf.
Qed.

Lemma emitted_off name h st : emitted (off name h st) = emitted st.
Proof. unfold off. by destruct (listeners st !! name). Qed.

Lemma emitted_handler h g c st : emitted (handler h g c st) = emitted st.
Proof.
  unfold handler. case_decide; [|done].
  match goal with |- context [if ?b then _ else _] => destruct b end; [|done].
  simpl. by rewrite !emitted_off.
Qed.

Lemma emitted_foldl_handler g c l st :
  emitted (foldl (λ st h, handler h g c st) st l) = emitted st.
Proof.
  revert st. induction l as [|h l IH]; intros st; simpl; [done|].
  by rewrite IH, emitted_handler.
Qed.

Lemma emitted_emit ev st : emitted (emit ev st) = emitted st ++ [ev].
Proof. unfold emit. cbv zeta. by rewrite emitted_foldl_handler. Qed.

(** By contrast, a single [MemberAdded] is announced. *)
Lemma single_add_is_announced st groupId index c :
  emitted (onMemberAdded (MemberAdded groupId index c) st)
  = emitted st
    ++ [mkEvent MemberAddedProcessed (BigInt_toString groupId)
          (Some (BigInt_toString c))].
Proof. simpl. by rewrite emitted_emit. Qed.

(** A batch that contains the awaited commitment, handled while the wait
    is pending: the mirror has the commitment, the wait goes on. *)
Example batch_does_not_resolve_wait :
  let st := onMembersAdded (MembersAdded 7 0 [123; 456])
              (waitForMemberEvent (js "7") (Some 123) initial).2 in
  members st !! js "7" = Some [js "123"; js "456"]
  ∧ settled (Created 0) st = false.
Proof. by vm_compute. Qed.

(** ** Effects and state changes of the coordinator's steps *)

Section keeps.
Context (P : effect → Prop) (R : state → state → Prop).
Context (R_refl : ∀ st, R st st).
Context (R_trans : ∀ a b c, R a b → R b c → R a c).

Lemma keeps_ret {A} (a : A) : keeps P R (ret a).
Proof using R_refl. intros st. simpl. split; [constructor | apply R_refl]. Qed.

Lemma keeps_throw {A} e : keeps P R (@throw A e).
Proof using R_refl. intros st. simpl. split; [constructor | apply R_refl]. Qed.

Lemma keeps_tell ef : P ef → keeps P R (tell ef).
Proof using R_refl.
  intros Hef st. simpl. split; [by repeat constructor | apply R_refl].
Qed.

Lemma keeps_bind {A B} (m : M A) (k : A → M B) :
  keeps P R m → (∀ a, keeps P R (k a)) → keeps P R (bind m k).
Proof using R_trans.
  intros Hm Hk st. unfold bind. destruct (Hm st) as [Ht Hst].
  destruct (m st) as [[t st'] [a| |]]; simpl in *; [|done..].
  destruct (Hk a st') as [Ht' Hst'].
  destruct (k a st') as [[t' st''] r]; simpl in *.
  split; [by apply Forall_app | by eapply R_trans].
Qed.

Lemma keeps_modify f : (∀ st, R st (f st)) → keeps P R (modify f).
Proof. intros Hf st. simpl. split; [constructor | apply Hf]. Qed.
End keeps.

Lemma no_new_wait_refl st : no_new_wait st st.
Proof. by split. Qed.

Lemma no_new_wait_trans a b c :
  no_new_wait a b → no_new_wait b c → no_new_wait a c.
Proof. intros [Hn Hl] [Hn' Hl']. split; [congruence | eauto]. Qed.

Lemma same_wait_no_new_wait st st' : same_wait st st' → no_new_wait st st'.
Proof.
  intros (_ & Hl & _ & Hn). split; [done|]. unfold listeners_of. by rewrite Hl.
Qed.

Lemma remove_first_subset h l x : x ∈ remove_first h l → x ∈ l.
Proof.
  induction l as [|y l IH]; simpl; [done|].
  case_decide; rewrite ?elem_of_cons; [auto | intros [?|?]; auto].
Qed.

Lemma off_no_new_wait name h st : no_new_wait st (off name h st).
Proof.
  split; [unfold off; by destruct (listeners st !! name)|].
  intros n x. rewrite listeners_of_off. case_decide as Hn; [|done].
  subst n. rewrite elem_of_reverse. intros Hx%remove_first_subset.
  by apply elem_of_reverse.
Qed.

Lemma handler_no_new_wait h g c st : no_new_wait st (handler h g c st).
Proof.
  unfold handler. case_decide; [|apply no_new_wait_refl].
  match goal with |- context [if ?b then _ else _] => destruct b end;
    [|apply no_new_wait_refl].
  cbv zeta.
  eapply no_new_wait_trans; [apply (off_no_new_wait MemberAddedProcessed h)|].
  eapply no_new_wait_trans; [apply (off_no_new_wait MemberRemovedProcessed h)|].
  eapply no_new_wait_trans; [apply (off_no_new_wait MemberUpdatedProcessed h)|].
  by split.
Qed.

Lemma emit_no_new_wait ev st : no_new_wait st (emit ev st).
Proof.
  unfold emit. cbv zeta.
  eapply no_new_wait_trans with (set_emitted (emitted st ++ [ev]) st); [by split|].
  generalize (listeners_of (ev_name ev) (set_emitted (emitted st ++ [ev]) st)).
  generalize (set_emitted (emitted st ++ [ev]) st).
  intros s l. revert s. induction l as [|h l IH]; intros s; simpl.
  - apply no_new_wait_refl.
  - eapply no_new_wait_trans; [apply handler_no_new_wait | apply IH].
Qed.

Lemma handler_for_no_new_wait k e st : no_new_wait st (handler_for k e st).
Proof.
  destruct (handler_for_shape k e st) as (stm & Hs & _ & _ & [->|(ev & ->)]).
  - by apply same_wait_no_new_wait.
  - eapply no_new_wait_trans; [by apply same_wait_no_new_wait|].
    apply emit_no_new_wait.
Qed.

Lemma deliver_no_new_wait e st : no_new_wait st (deliver e st).
Proof.
  unfold deliver. case_decide; [apply handler_for_no_new_wait|].
  apply no_new_wait_refl.
Qed.

Lemma deliver_all_no_new_wait es st : no_new_wait st (deliver_all es st).
Proof.
  unfold deliver_all. revert st. induction es as [|e es IH]; intros st; simpl.
  - apply no_new_wait_refl.
  - eapply no_new_wait_trans; [apply deliver_no_new_wait | apply IH].
Qed.

Lemma do_step_no_new_wait s st : no_new_wait st (do_step s st).
Proof.
  destruct s as [e|e|k|]; cbn [do_step].
  - apply handler_for_no_new_wait.
  - apply deliver_no_new_wait.
  - by apply same_wait_no_new_wait.
  - by apply same_wait_no_new_wait.
Qed.

Lemma do_steps_no_new_wait steps st : no_new_wait st (do_steps steps st).
Proof.
  unfold do_steps. revert st. induction steps as [|s steps IH]; intros st; simpl.
  - apply no_new_wait_refl.
  - eapply no_new_wait_trans; [apply do_step_no_new_wait | apply IH].
Qed.

(** The endpoints of the two proofs are not the admission endpoint. *)
Lemma join_url_not_add_member w g : join_url w g ≠ add_member_url w.
Proof.
  unfold join_url, add_member_url. intros H%app_inv_head. discriminate H.
Qed.

Lemma modtrain_url_not_add_member w g : modtrain_url w g ≠ add_member_url w.
Proof.
  unfold modtrain_url, add_member_url. intros H%app_inv_head. discriminate H.
Qed.

Section proof_steps.
Context (w : world).

(** Not an add-member request. *)
Let other (ef : effect) : Prop := ¬ is_add_member_request w ef.

Local Hint Resolve no_new_wait_refl no_new_wait_trans : core.

Lemma call_generateProof_keeps identity group index message scope :
  keeps other no_new_wait
    (call_generateProof w identity group index message scope).
Proof.
  unfold call_generateProof. apply keeps_bind; eauto.
  - apply keeps_tell; eauto. by intros [].
  - intros _. destruct (generateProof w _ _ _ _ _);
      [apply keeps_throw | apply keeps_ret]; eauto.
Qed.

Lemma sendJoinProof_keeps groupId group identity commitment :
  keeps other no_new_wait (sendJoinProof w groupId group identity commitment).
Proof.
  unfold sendJoinProof. case_match; [apply keeps_throw; eauto|].
  apply keeps_bind; eauto using call_generateProof_keeps.
  intros proof. unfold post_then. apply keeps_bind; eauto.
  - apply keeps_tell; eauto. intros [Hu|(? & ? & Hu)]; [|discriminate Hu].
    by apply join_url_not_add_member in Hu.
  - intros _. destruct (axios_post w _ _); apply keeps_tell; eauto; by intros [].
Qed.

Lemma sendModTrainProof_keeps groupId group identity commitment scope deltaw :
  keeps other no_new_wait
    (sendModTrainProof w groupId group identity commitment scope deltaw).
Proof.
  unfold sendModTrainProof. case_match; [apply keeps_throw; eauto|].
  destruct (map_items deltaw); [apply keeps_throw; eauto|].
  apply keeps_bind; eauto using call_generateProof_keeps.
  intros proof. unfold post_then. apply keeps_bind; eauto.
  - apply keeps_tell; eauto. intros [Hu|(? & ? & Hu)]; [|discriminate Hu].
    by apply modtrain_url_not_add_member in Hu.
  - intros _. destruct (axios_post w _ _); apply keeps_tell; eauto; by intros [].
Qed.

Lemma main_proofs_keeps groupId identity commitment steps :
  keeps other no_new_wait (main_proofs w groupId identity commitment steps).
Proof.
  unfold main_proofs, loadMembers, Group_new.
  repeat first
    [ apply keeps_bind; eauto; [|intros ?]
    | apply keeps_tell; eauto; by intros []
    | apply keeps_modify; apply do_steps_no_new_wait
    | apply sendJoinProof_keeps
    | apply sendModTrainProof_keeps
    | case_match; [apply keeps_throw | apply keeps_ret]; eauto ].
  intros st. simpl. split; [constructor | eauto].
Qed.
End proof_steps.

(** ** Equations of the coordinator's monad *)

Lemma bind_ret {A B} (a : A) (k : A → M B) st : bind (ret a) k st = k a st.
Proof. unfold bind, ret. by destruct (k a st) as [[? ?] ?]. Qed.

Lemma bind_throw {A B} e (k : A → M B) st :
  bind (throw e) k st = ([], st, Threw e).
Proof. done. Qed.

Lemma bind_tell {B} ef (k : unit → M B) st :
  bind (tell ef) k st = (ef :: (k tt st).1.1, (k tt st).1.2, (k tt st).2).
Proof. unfold bind, tell. by destruct (k tt st) as [[? ?] ?]. Qed.

Lemma bind_modify {B} f (k : unit → M B) st :
  bind (modify f) k st = k tt (f st).
Proof. unfold bind, modify. by destruct (k tt (f st)) as [[? ?] ?]. Qed.

Lemma bind_lift {A B} (f : state → A * state) (k : A → M B) st :
  bind (lift f) k st = k (f st).1 (f st).2.
Proof.
  unfold bind, lift. destruct (f st) as [a st']. simpl.
  by destruct (k a st') as [[? ?] ?].
Qed.

Lemma bind_assoc {A B C} (m : M A) (k : A → M B) (k' : B → M C) st :
  bind (bind m k) k' st = bind m (λ a, bind (k a) k') st.
Proof.
  unfold bind. destruct (m st) as [[t st1] [a| |]]; [|done..].
  destruct (k a st1) as [[t1 st2] [b| |]]; [|done..].
  destruct (k' b st2) as [[t2 st3] r]. by rewrite app_assoc.
Qed.

Lemma bind_returned {A B} (m : M A) (k : A → M B) st t st' a :
  m st = (t, st', Returned a) →
  bind m k st = (t ++ (k a st').1.1, (k a st').1.2, (k a st').2).
Proof. intros H. unfold bind. rewrite H. by destruct (k a st') as [[? ?] ?]. Qed.

Lemma bind_threw {A B} (m : M A) (k : A → M B) st t st' e :
  m st = (t, st', Threw e) → bind m k st = (t, st', Threw e).
Proof. intros H. unfold bind. by rewrite H. Qed.

(** ** The coordinator's sequence *)

(** C5. When the chain answers that the commitment is a member, [main]
    logs it and goes straight on to loading the mirror and building the
    proofs: its trace contains no add-member request, and from its first
    state to its last no promise is created and no listener is attached. *)
Theorem member_skips_admission_and_wait w groupId identity commitment st :
  credentials w = inr (identity, commitment) →
  hasMember w groupId commitment = inr true →
  ∃ t st' r,
    main_proofs w groupId identity commitment (bridge_after w)
      (do_steps (bridge_before w) st) = (CallLoadMembers :: t, st', r)
    ∧ main w groupId st
      = (ConsoleLog (nl :: js "9. Sending a request to join a group to the server")
         :: CallHasMember groupId commitment
         :: ConsoleLog (nl :: js "Already a member.")
         :: CallLoadMembers :: t, st', r)
    ∧ Forall (λ ef, ¬ is_add_member_request w ef) (main w groupId st).1.1
    ∧ no_new_wait st (main w groupId st).1.2.
Proof.
  intros Hcred Hmem.
  destruct (main_proofs_keeps w groupId identity commitment (bridge_after w)
              (do_steps (bridge_before w) st)) as [Hall Hnew].
  assert (Hmain : main w groupId st
    = (ConsoleLog (nl :: js "9. Sending a request to join a group to the server")
       :: CallHasMember groupId commitment
       :: ConsoleLog (nl :: js "Already a member.")
       :: (main_proofs w groupId identity commitment (bridge_after w)
             (do_steps (bridge_before w) st)).1.1,
       (main_proofs w groupId identity commitment (bridge_after w)
             (do_steps (bridge_before w) st)).1.2,
       (main_proofs w groupId identity commitment (bridge_after w)
             (do_steps (bridge_before w) st)).2)).
  { unfold main, prepare_identity. rewrite Hcred, bind_ret. cbn [fst snd].
    unfold isAlreadyMember. rewrite Hmem.
    rewrite bind_tell, bind_modify, bind_assoc, bind_tell, bind_ret.
    cbn [negb fst snd]. rewrite bind_assoc, bind_tell, bind_ret. done. }
  assert (Hload : ∃ t, (main_proofs w groupId identity commitment (bridge_after w)
             (do_steps (bridge_before w) st)).1.1 = CallLoadMembers :: t).
  { unfold main_proofs, loadMembers. rewrite bind_assoc, bind_tell. eauto. }
  destruct Hload as (t & Ht).
  rewrite Hmain. cbn [fst snd].
  destruct (main_proofs _ _ _ _ _ _) as [[t0 st'] r]. cbn [fst snd] in *.
  subst t0. exists t, st', r. split; [done|]. split; [done|]. split.
  - do 3 (constructor; [by intros []|]). exact Hall.
  - eapply no_new_wait_trans; [apply do_steps_no_new_wait | exact Hnew].
Qed.

Lemma member_skips_admission_and_wait_witness :
  credentials Examples.already_member = inr (Examples.identity0, 123)
  ∧ hasMember Examples.already_member (js "7") 123 = inr true
  ∧ Forall (λ ef, ¬ is_add_member_request Examples.already_member ef)
      (main Examples.already_member (js "7") initial).1.1
  ∧ no_new_wait initial (main Examples.already_member (js "7") initial).1.2.
Proof.
  split; [reflexivity|]. split; [reflexivity|].
  destruct (member_skips_admission_and_wait Examples.already_member (js "7")
              Examples.identity0 123 initial eq_refl eq_refl)
    as (t & st' & r & _ & _ & H1 & H2).
  split; [exact H1 | exact H2].
Defined.

(** ** Failed submissions *)

Lemma post_then_failed w url body ok failed err st :
  axios_post w url body = Some err →
  post_then w url body ok failed st
  = (HttpPost url body :: (failed err st).1.1,
     (failed err st).1.2, (failed err st).2).
Proof. intros H. unfold post_then. by rewrite bind_tell, H. Qed.

Lemma post_then_ok w url body ok failed st :
  axios_post w url body = None →
  post_then w url body ok failed st
  = (HttpPost url body :: (ok st).1.1, (ok st).1.2, (ok st).2).
Proof. intros H. unfold post_then. by rewrite bind_tell, H. Qed.

Lemma call_generateProof_ok w identity group index message scope proof
    {B} (k : SemaphoreProof → M B) st :
  generateProof w identity group index message scope = inr proof →
  bind (call_generateProof w identity group index message scope) k st
  = (CallGenerateProof identity group index message scope :: (k proof st).1.1,
     (k proof st).1.2, (k proof st).2).
Proof.
  intros H. unfold call_generateProof.
  by rewrite bind_assoc, bind_tell, H, bind_ret.
Qed.

(** A rejected add-member request is logged and [addMember] returns. *)
Lemma addMember_failed w groupId commitment err st :
  axios_post w (add_member_url w)
    (AddMemberBody groupId (BigInt_toString commitment)) = Some err →
  Client.addMember w groupId commitment st
  = ([HttpPost (add_member_url w)
        (AddMemberBody groupId (BigInt_toString commitment));
      ConsoleError (nl :: js "Error adding member :") (WholeError (inr err))],
     st, Returned tt).
Proof. intros H. unfold Client.addMember. by rewrite (post_then_failed _ _ _ _ _ err). Qed.

(** A rejected join-proof submission is logged and [sendJoinProof]
    returns. *)
Lemma sendJoinProof_failed w groupId (group : Group) identity commitment
    proof err st :
  commitment ∈ group →
  generateProof w identity group (Group_indexOf group commitment)
    (MsgString (join_message commitment)) (join_scope groupId) = inr proof →
  axios_post w (join_url w groupId) (join_body commitment proof groupId)
    = Some err →
  sendJoinProof w groupId group identity commitment st
  = ([CallGenerateProof identity group (Group_indexOf group commitment)
        (MsgString (join_message commitment)) (join_scope groupId);
      HttpPost (join_url w groupId) (join_body commitment proof groupId);
      ConsoleError (nl :: js "Error while sending Join Proof :")
        (ResponseOrMessage (response_or_message err))],
     st, Returned tt).
Proof.
  intros Hin Hgen Hpost. unfold sendJoinProof.
  rewrite (Group_indexOf_present _ _ Hin), String_slice_0_8.
  fold (join_message commitment). fold (join_scope groupId).
  rewrite (call_generateProof_ok _ _ _ _ _ _ proof) by done.
  fold (join_body commitment proof groupId).
  by rewrite (post_then_failed _ _ _ _ _ err).
Qed.

(** A rejected model-update submission is logged and [sendModTrainProof]
    returns. *)
Lemma sendModTrainProof_failed w groupId (group : Group) identity commitment
    scope deltaw proof err st :
  commitment ∈ group →
  Forall (λ item, supported item = true) deltaw →
  generateProof w identity group (Group_indexOf group commitment)
    (MsgBytes (proof_message deltaw)) scope = inr proof →
  axios_post w (modtrain_url w groupId)
    (modtrain_body proof (proof_message deltaw) scope) = Some err →
  sendModTrainProof w groupId group identity commitment scope deltaw st
  = ([CallGenerateProof identity group (Group_indexOf group commitment)
        (MsgBytes (proof_message deltaw)) scope;
      HttpPost (modtrain_url w groupId)
        (modtrain_body proof (proof_message deltaw) scope);
      ConsoleError (js "Error while sending Model Update Proof :")
        (ResponseOrMessage (response_or_message err))],
     st, Returned tt).
Proof.
  intros Hin Hok Hgen Hpost. unfold sendModTrainProof.
  rewrite (Group_indexOf_present _ _ Hin), (map_items_supported _ Hok).
  fold (proof_message deltaw).
  rewrite (call_generateProof_ok _ _ _ _ _ _ proof) by done.
  fold (modtrain_body proof (proof_message deltaw) scope).
  by rewrite (post_then_failed _ _ _ _ _ err).
Qed.

Lemma round1_values_supported :
  Forall (λ item, supported item = true) round1_values.
Proof. repeat constructor. Qed.

(** After a rejected join-proof submission, [main] goes on with the
    model-update step. *)
Lemma main_proofs_after_failed_join w groupId (group : Group) identity
    commitment steps proof err st :
  new_Group w (disk (do_steps steps st) !! groupId) = inr group →
  commitment ∈ group →
  generateProof w identity group (Group_indexOf group commitment)
    (MsgString (join_message commitment)) (join_scope groupId) = inr proof →
  axios_post w (join_url w groupId) (join_body commitment proof groupId)
    = Some err →
  let next := sendModTrainProof w groupId group identity commitment
                (js "round-1") round1_values (do_steps steps st) in
  main_proofs w groupId identity commitment steps st
  = (CallLoadMembers
     :: ConsoleLogMembers
          (nl :: js "10. The members of the group :" ++ [nl; nl])
          (disk (do_steps steps st) !! groupId)
     :: ConsoleLog (nl :: js "11. Sending proof of membership to the server")
     :: CallGenerateProof identity group (Group_indexOf group commitment)
          (MsgString (join_message commitment)) (join_scope groupId)
     :: HttpPost (join_url w groupId) (join_body commitment proof groupId)
     :: ConsoleError (nl :: js "Error while sending Join Proof :")
          (ResponseOrMessage (response_or_message err))
     :: ConsoleLog (nl :: js "12. Sending proof of model update to the server")
     :: next.1.1, next.1.2, next.2).
Proof.
  intros Hparse Hin Hgen Hpost next. unfold main_proofs, loadMembers, Group_new.
  rewrite !bind_assoc, bind_tell, bind_assoc, bind_modify, bind_lift.
  cbn [fst snd]. rewrite bind_tell, Hparse, bind_ret, bind_tell.
  rewrite (bind_returned _ _ _ _ _ _
             (sendJoinProof_failed _ _ _ _ _ proof err _ Hin Hgen Hpost)).
  rewrite bind_tell. cbn [fst snd app]. fold round1_values. by fold next.
Qed.

(** After a rejected add-member request, [main] goes on to wait for the
    member event. *)
Lemma main_after_failed_admission w groupId identity commitment err st :
  credentials w = inr (identity, commitment) →
  hasMember w groupId commitment = inr false →
  axios_post w (add_member_url w)
    (AddMemberBody groupId (BigInt_toString commitment)) = Some err →
  let next := wait_then_prove w groupId identity commitment
                (do_steps (bridge_before w) st) in
  main w groupId st
  = (ConsoleLog (nl :: js "9. Sending a request to join a group to the server")
     :: CallHasMember groupId commitment
     :: HttpPost (add_member_url w)
          (AddMemberBody groupId (BigInt_toString commitment))
     :: ConsoleError (nl :: js "Error adding member :") (WholeError (inr err))
     :: ConsoleLog (nl :: js "Waiting for member event processing...")
     :: next.1.1, next.1.2, next.2).
Proof.
  intros Hcred Hmem Hpost next. unfold main, prepare_identity.
  rewrite Hcred, bind_ret. cbn [fst snd].
  unfold isAlreadyMember. rewrite Hmem.
  rewrite bind_tell, bind_modify, bind_assoc, bind_tell, bind_ret.
  cbn [negb fst snd]. rewrite !bind_assoc.
  rewrite (bind_returned _ _ _ _ _ _
             (addMember_failed _ _ _ err _ Hpost)).
  rewrite bind_assoc, bind_tell. cbn [fst snd app].
  unfold next, wait_then_prove. done.
Qed.

(** C9. A rejected or unanswered submission is logged once and the
    function that made it returns normally, after a single post: this
    holds for the add-member request, the join proof and the model-update
    proof. In [main], a failed add-member request is followed by the wait
    for the member event, and a failed join-proof submission is followed by
    the model-update step, which requests its proof and, when it gets one,
    posts it. *)
Theorem failed_submission_is_logged_and_sequence_continues
    w groupId (group : Group) identity commitment st :
  (∀ err,
     axios_post w (add_member_url w)
       (AddMemberBody groupId (BigInt_toString commitment)) = Some err →
     Client.addMember w groupId commitment st
     = ([HttpPost (add_member_url w)
           (AddMemberBody groupId (BigInt_toString commitment));
         ConsoleError (nl :: js "Error adding member :") (WholeError (inr err))],
        st, Returned tt)
     ∧ (credentials w = inr (identity, commitment) →
        hasMember w groupId commitment = inr false →
        let next := wait_then_prove w groupId identity commitment
                      (do_steps (bridge_before w) st) in
        main w groupId st
        = (ConsoleLog (nl :: js "9. Sending a request to join a group to the server")
           :: CallHasMember groupId commitment
           :: HttpPost (add_member_url w)
                (AddMemberBody groupId (BigInt_toString commitment))
           :: ConsoleError (nl :: js "Error adding member :")
                (WholeError (inr err))
           :: ConsoleLog (nl :: js "Waiting for member event processing...")
           :: next.1.1, next.1.2, next.2)))
  ∧ (∀ proof err,
       commitment ∈ group →
       generateProof w identity group (Group_indexOf group commitment)
         (MsgString (join_message commitment)) (join_scope groupId) = inr proof →
       axios_post w (join_url w groupId) (join_body commitment proof groupId)
         = Some err →
       sendJoinProof w groupId group identity commitment st
       = ([CallGenerateProof identity group (Group_indexOf group commitment)
             (MsgString (join_message commitment)) (join_scope groupId);
           HttpPost (join_url w groupId) (join_body commitment proof groupId);
           ConsoleError (nl :: js "Error while sending Join Proof :")
             (ResponseOrMessage (response_or_message err))],
          st, Returned tt)
       ∧ ∀ steps st0,
           st = do_steps steps st0 →
           new_Group w (disk st !! groupId) = inr group →
           let next := sendModTrainProof w groupId group identity commitment
                         (js "round-1") round1_values st in
           main_proofs w groupId identity commitment steps st0
           = (CallLoadMembers
              :: ConsoleLogMembers
                   (nl :: js "10. The members of the group :" ++ [nl; nl])
                   (disk st !! groupId)
              :: ConsoleLog (nl :: js "11. Sending proof of membership to the server")
              :: CallGenerateProof identity group (Group_indexOf group commitment)
                   (MsgString (join_message commitment)) (join_scope groupId)
              :: HttpPost (join_url w groupId) (join_body commitment proof groupId)
              :: ConsoleError (nl :: js "Error while sending Join Proof :")
                   (ResponseOrMessage (response_or_message err))
              :: ConsoleLog (nl :: js "12. Sending proof of model update to the server")
              :: next.1.1, next.1.2, next.2)
           ∧ ∃ t, next.1.1
                  = CallGenerateProof identity group (Group_indexOf group commitment)
                      (MsgBytes (proof_message round1_values)) (js "round-1") :: t
                  ∧ ∀ proof2,
                      generateProof w identity group (Group_indexOf group commitment)
                        (MsgBytes (proof_message round1_values)) (js "round-1")
                      = inr proof2 →
                      ∃ t', t = HttpPost (modtrain_url w groupId)
                                  (modtrain_body proof2
                                     (proof_message round1_values) (js "round-1"))
                                :: t')
  ∧ (∀ scope deltaw proof err,
       commitment ∈ group →
       Forall (λ item, supported item = true) deltaw →
       generateProof w identity group (Group_indexOf group commitment)
         (MsgBytes (proof_message deltaw)) scope = inr proof →
       axios_post w (modtrain_url w groupId)
         (modtrain_body proof (proof_message deltaw) scope) = Some err →
       sendModTrainProof w groupId group identity commitment scope deltaw st
       = ([CallGenerateProof identity group (Group_indexOf group commitment)
             (MsgBytes (proof_message deltaw)) scope;
           HttpPost (modtrain_url w groupId)
             (modtrain_body proof (proof_message deltaw) scope);
           ConsoleError (js "Error while sending Model Update Proof :")
             (ResponseOrMessage (response_or_message err))],
          st, Returned tt)).
Proof.
  split; [|split].
  - intros err Hpost. split; [by apply addMember_failed|].
    intros Hcred Hmem. by apply main_after_failed_admission.
  - intros proof err Hin Hgen Hpost.
    split; [by apply sendJoinProof_failed|].
    intros steps st0 -> Hparse next.
    split; [by apply (main_proofs_after_failed_join _ _ group _ _ _ proof err)|].
    unfold next, sendModTrainProof.
    rewrite (Group_indexOf_present _ _ Hin),
      (map_items_supported _ round1_values_supported).
    fold (proof_message round1_values).
    unfold call_generateProof. rewrite bind_assoc, bind_tell. cbn [fst].
    eexists. split; [reflexivity|].
    intros proof2 ->. rewrite bind_ret. unfold post_then.
    rewrite bind_tell. cbn [fst]. eexists. reflexivity.
  - intros scope deltaw proof err Hin Hok Hgen Hpost.
    by apply sendModTrainProof_failed.
Qed.

Lemma failed_submission_is_logged_and_sequence_continues_witness :
  axios_post Examples.unreachable (add_member_url Examples.unreachable)
    (AddMemberBody (js "7") (BigInt_toString 123))
  = Some (mkAxiosError None (js "connect ECONNREFUSED"))
  ∧ Client.addMember Examples.unreachable (js "7") 123 initial
    = ([HttpPost (add_member_url Examples.unreachable)
          (AddMemberBody (js "7") (BigInt_toString 123));
        ConsoleError (nl :: js "Error adding member :")
          (WholeError (inr (mkAxiosError None (js "connect ECONNREFUSED"))))],
       initial, Returned tt)
  ∧ sendJoinProof Examples.unreachable (js "7") [5; 123] Examples.identity0 123
      initial
    = ([CallGenerateProof Examples.identity0 [5; 123] 1
          (MsgString (js "join-123")) (js "join-7");
        HttpPost (join_url Examples.unreachable (js "7"))
          (join_body 123 Examples.proof0 (js "7"));
        ConsoleError (nl :: js "Error while sending Join Proof :")
          (ResponseOrMessage (js "connect ECONNREFUSED"))],
       initial, Returned tt).
Proof.
  destruct (failed_submission_is_logged_and_sequence_continues
              Examples.unreachable (js "7") [5; 123] Examples.identity0 123 initial)
    as (Hadd & Hjoin & _).
  split; [reflexivity|]. split.
  - exact (proj1 (Hadd _ eq_refl)).
  - assert (Hin : 123 ∈ [5; 123]) by (right; left).
    exact (proj1 (Hjoin Examples.proof0 _ Hin eq_refl eq_refl)).
Defined.

(** A whole run against a verifier that rejects both proofs: each
    rejection is logged and the next step follows. *)
Example run_with_rejecting_verifier :
  (main Examples.rejecting (js "7")
     (set_disk {[ js "7" := [js "5"; js "123"] ]} initial)).1.1
  = [ConsoleLog (nl :: js "9. Sending a request to join a group to the server");
     CallHasMember (js "7") 123;
     ConsoleLog (nl :: js "Already a member.");
     CallLoadMembers;
     ConsoleLogMembers (nl :: js "10. The members of the group :" ++ [nl; nl])
       (Some [js "5"; js "123"]);
     ConsoleLog (nl :: js "11. Sending proof of membership to the server");
     CallGenerateProof Examples.identity0 [5; 123] 1
       (MsgString (js "join-123")) (js "join-7");
     HttpPost (join_url Examples.rejecting (js "7"))
       (join_body 123 Examples.proof0 (js "7"));
     ConsoleError (nl :: js "Error while sending Join Proof :")
       (ResponseOrMessage (js "invalid proof"));
     ConsoleLog (nl :: js "12. Sending proof of model update to the server");
     CallGenerateProof Examples.identity0 [5; 123] 1
       (MsgBytes (proof_message round1_values)) (js "round-1");
     HttpPost (modtrain_url Examples.rejecting (js "7"))
       (modtrain_body Examples.proof0 (proof_message round1_values)
          (js "round-1"));
     ConsoleError (js "Error while sending Model Update Proof :")
       (ResponseOrMessage (js "invalid proof"))].
Proof. by vm_compute. Qed.

(** ** The bridge and the mirror *)

Lemma mirror_off name h st :
  members (off name h st) = members st ∧ disk (off name h st) = disk st
  ∧ subscribed (off name h st) = subscribed st.
Proof. unfold off. by destruct (listeners st !! name). Qed.

Lemma mirror_handler h g c st :
  members (handler h g c st) = members st ∧ disk (handler h g c st) = disk st
  ∧ subscribed (handler h g c st) = subscribed st.
Proof.
  unfold handler. case_decide; [|done].
  match goal with |- context [if ?b then _ else _] => destruct b end; [|done].
  cbv zeta. simpl.
  destruct (mirror_off MemberUpdatedProcessed h
              (off MemberRemovedProcessed h (off MemberAddedProcessed h st)))
    as (-> & -> & ->).
  destruct (mirror_off MemberRemovedProcessed h (off MemberAddedProcessed h st))
    as (-> & -> & ->).
  apply mirror_off.
Qed.

Lemma mirror_emit ev st :
  members (emit ev st) = members st ∧ disk (emit ev st) = disk st
  ∧ subscribed (emit ev st) = subscribed st.
Proof.
  unfold emit. cbv zeta.
  change (members st) with (members (set_emitted (emitted st ++ [ev]) st)).
  change (disk st) with (disk (set_emitted (emitted st ++ [ev]) st)).
  change (subscribed st) with (subscribed (set_emitted (emitted st ++ [ev]) st)).
  generalize (listeners_of (ev_name ev) (set_emitted (emitted st ++ [ev]) st)).
  generalize (set_emitted (emitted st ++ [ev]) st).
  intros s l. revert s. induction l as [|h l IH]; intros s; simpl; [done|].
  destruct (IH (handler h (ev_groupId ev) (ev_commitment ev) s)) as (-> & -> & ->).
  apply mirror_handler.
Qed.

Lemma members_add_batch g cs st :
  members (foldl (λ st commitment,
                    set_members (GroupStorage.addMember (members st) g
                                   (BigInt_toString commitment)) st) st cs)
  = foldl (λ m c, GroupStorage.addMember m g (BigInt_toString c)) (members st) cs.
Proof.
  revert st. induction cs as [|c cs IH]; intros st; simpl; [done|].
  by rewrite IH.
Qed.

(** The closure of an event's own kind updates the in-memory mirror as
    [apply_to_mirror] says, leaves the subscriptions alone and, started
    with the persisted mirror equal to the in-memory one, ends so. *)
Lemma handler_for_mirror e st :
  let st' := handler_for (kind_of e) e st in
  members st' = apply_to_mirror e (members st)
  ∧ subscribed st' = subscribed st
  ∧ (disk st = members st → disk st' = members st').
Proof.
  destruct e; simpl.
  - destruct (mirror_emit (mkEvent GroupCreatedName (BigInt_toString groupId) None)
                (saveGroupId (BigInt_toString groupId) st)) as (-> & -> & ->).
    done.
  - match goal with |- context [emit ?ev ?s] =>
      destruct (mirror_emit ev s) as (-> & -> & ->) end. done.
  - unfold saveMembers. simpl. rewrite members_add_batch.
    destruct (add_batch_same_wait (BigInt_toString groupId) identityCommitments st)
      as (_ & _ & ->). done.
  - match goal with |- context [emit ?ev ?s] =>
      destruct (mirror_emit ev s) as (-> & -> & ->) end. done.
  - match goal with |- context [emit ?ev ?s] =>
      destruct (mirror_emit ev s) as (-> & -> & ->) end. done.
Qed.

(** Handling a list of events, each by the closure of its own kind. *)
Lemma handle_list_mirror es st :
  let st' := foldl (λ st e, handler_for (kind_of e) e st) st es in
  members st' = apply_list es (members st)
  ∧ subscribed st' = subscribed st
  ∧ (disk st = members st → disk st' = members st').
Proof.
  revert st. induction es as [|e es IH]; intros st; simpl; [done|].
  destruct (handler_for_mirror e st) as (Hm & Hs & Hd).
  destruct (IH (handler_for (kind_of e) e st)) as (Hm' & Hs' & Hd').
  unfold apply_list in *. simpl.
  split; [by rewrite Hm', Hm|]. split; [by rewrite Hs', Hs|].
  intros Heq. apply Hd', Hd, Heq.
Qed.

Lemma backfilled_kind led T k e : e ∈ backfilled led T k → kind_of e = k.
Proof.
  unfold backfilled. intros ([pos e'] & -> & Hin)%list_elem_of_fmap.
  apply list_elem_of_filter in Hin as [Hq _]. unfold in_query in Hq.
  simpl in *. apply andb_prop in Hq as [Hq _]. apply andb_prop in Hq as [Hq _].
  by apply bool_decide_eq_true in Hq.
Qed.

Lemma apply_list_app es es' m :
  apply_list (es ++ es') m = apply_list es' (apply_list es m).
Proof. unfold apply_list. by rewrite foldl_app. Qed.

(** ** A start-up, step by step *)

(** A closure does nothing with a log that is not of its kind. *)
Lemma handler_for_other_kind k e st : kind_of e ≠ k → handler_for k e st = st.
Proof. destruct k, e; simpl; intros H; try done; by destruct H. Qed.

Lemma do_steps_nil st : do_steps [] st = st.
Proof. done. Qed.

Lemma do_steps_cons s steps st :
  do_steps (s :: steps) st = do_steps steps (do_step s st).
Proof. done. Qed.

Lemma do_steps_app s1 s2 st :
  do_steps (s1 ++ s2) st = do_steps s2 (do_steps s1 st).
Proof. unfold do_steps. by rewrite foldl_app. Qed.

Lemma deliver_all_steps es st : deliver_all es st = do_steps (LiveLog <$> es) st.
Proof.
  unfold deliver_all, do_steps. revert st.
  induction es as [|e es IH]; intros st; simpl; [done|]. apply IH.
Qed.

Lemma deliver_all_nil st : deliver_all [] st = st.
Proof. done. Qed.

(** An answered query: the decoded entries are replayed in order, then the
    subscription is attached. *)
Lemma processEvent_steps k pastEvents st :
  processEvent k (handler_for k) (inr pastEvents) st
  = (do_steps ((Replay <$> filter (λ e, kind_of e = k) (omap id pastEvents))
               ++ [Attach k]) st, None).
Proof.
  unfold processEvent. rewrite do_steps_app. cbn [do_steps foldl do_step].
  assert (Hreplay : ∀ st,
    foldl (λ st e, match e with Some args => handler_for k args st | None => st end)
      st pastEvents
    = foldl (λ st s, do_step s st) st
        (Replay <$> filter (λ e, kind_of e = k) (omap id pastEvents))).
  { induction pastEvents as [|[e|] pastEvents IH]; intros s; simpl; [done|..].
    - rewrite filter_cons. case_decide as Hk.
      + rewrite fmap_cons. simpl. rewrite Hk. apply IH.
      + rewrite handler_for_other_kind by done. apply IH.
    - apply IH. }
  by rewrite Hreplay.
Qed.

(** A start-up is the sequence of its steps, and is rejected with the
    error of the first query that fails. *)
Lemma startup_as_steps env st :
  startBlockchainListeners env st
  = (do_steps (startup_steps env) st, startup_error env).
Proof.
  unfold startBlockchainListeners, startup_steps, query_steps, startup_error.
  change onGroupCreated with (handler_for KGroupCreated).
  change onMemberAdded with (handler_for KMemberAdded).
  change onMembersAdded with (handler_for KMembersAdded).
  change onMemberRemoved with (handler_for KMemberRemoved).
  change onMemberUpdated with (handler_for KMemberUpdated).
  cbn [all_kinds omap list_omap].
  repeat match goal with
         | |- context [past env ?k] =>
             destruct (past env k) as [?|?];
             [ cbn [processEvent and_then head];
               by rewrite ?deliver_all_steps, ?app_nil_r, ?do_steps_app,
                    ?do_steps_cons, ?do_steps_nil
             | rewrite processEvent_steps; cbn [and_then] ]
         end.
  cbn [head].
  by rewrite ?deliver_all_steps, ?app_nil_r, ?do_steps_app, ?do_steps_cons,
       ?do_steps_nil.
Qed.

(** ** The bridge and the subscriptions *)

Lemma subscribed_do_step s st :
  subscribed (do_step s st) = subscribed st ++ attached [s].
Proof.
  destruct s as [e|e|k|]; cbn [do_step attached omap list_omap];
    rewrite ?app_nil_r; try done.
  - by destruct (handler_for_mirror e st) as (_ & -> & _).
  - unfold deliver. case_decide; [|done].
    by destruct (handler_for_mirror e st) as (_ & -> & _).
Qed.

Lemma attached_app s1 s2 : attached (s1 ++ s2) = attached s1 ++ attached s2.
Proof. unfold attached. apply omap_app. Qed.

Lemma subscribed_do_steps steps st :
  subscribed (do_steps steps st) = subscribed st ++ attached steps.
Proof.
  revert st. induction steps as [|s steps IH]; intros st.
  - by rewrite app_nil_r.
  - rewrite do_steps_cons, IH, subscribed_do_step.
    change (s :: steps) with ([s] ++ steps).
    by rewrite attached_app, app_assoc.
Qed.

Lemma handled_by_app subs s1 s2 :
  handled_by subs (s1 ++ s2)
  = handled_by subs s1 ++ handled_by (subs ++ attached s1) s2.
Proof.
  revert subs. induction s1 as [|s s1 IH]; intros subs.
  - by rewrite app_nil_r.
  - change (attached (s :: s1)) with (attached ([s] ++ s1)).
    rewrite attached_app.
    destruct s as [e|e|k|]; cbn [app handled_by attached omap list_omap];
      rewrite ?IH, ?app_nil_r; try done.
    + by case_decide.
    + by rewrite <- app_assoc.
Qed.

Lemma handled_by_replay subs es : handled_by subs (Replay <$> es) = es.
Proof.
  induction es as [|e es IH]; [done|].
  rewrite fmap_cons. cbn [handled_by]. by rewrite IH.
Qed.

Lemma attached_replay es : attached (Replay <$> es) = [].
Proof. by induction es. Qed.

Lemma attached_live es : attached (LiveLog <$> es) = [].
Proof. by induction es. Qed.

Lemma handled_by_live subs es :
  handled_by subs (LiveLog <$> es) = filter (λ e, kind_of e ∈ subs) es.
Proof.
  induction es as [|e es IH]; [done|].
  rewrite fmap_cons, filter_cons. cbn [handled_by]. case_decide; by rewrite IH.
Qed.

Lemma filter_all {A} (P : A → Prop) `{∀ x, Decision (P x)} (l : list A) :
  Forall P l → filter P l = l.
Proof.
  induction 1 as [|x l Hx _ IH]; [done|].
  by rewrite filter_cons_True, IH.
Qed.

Lemma filter_none {A} (P : A → Prop) `{∀ x, Decision (P x)} (l : list A) :
  Forall (λ x, ¬ P x) l → filter P l = [].
Proof.
  induction 1 as [|x l Hx _ IH]; [done|].
  by rewrite filter_cons_False.
Qed.

(** ** The bridge and the mirror, step by step *)

(** Steps without a reload, from a state whose persisted mirror is the one
    in memory: the logs handled are applied in order, and what is in memory
    stays what is persisted. *)
Lemma do_steps_mirror steps st :
  Forall (λ s, s ≠ Reload) steps →
  disk st = members st →
  members (do_steps steps st)
  = apply_list (handled_by (subscribed st) steps) (members st)
  ∧ disk (do_steps steps st) = members (do_steps steps st).
Proof.
  intros Hsteps. revert st.
  induction Hsteps as [|s steps Hs _ IH]; intros st Hd; [done|].
  rewrite do_steps_cons.
  destruct s as [e|e|k|]; cbn [do_step handled_by]; [| | |done].
  - destruct (handler_for_mirror e st) as (Hm & Hsub & Hd').
    destruct (IH _ (Hd' Hd)) as [IHm IHd]. rewrite Hsub in IHm.
    split; [|done]. rewrite IHm, Hm. done.
  - unfold deliver. case_decide.
    + destruct (handler_for_mirror e st) as (Hm & Hsub & Hd').
      destruct (IH _ (Hd' Hd)) as [IHm IHd]. rewrite Hsub in IHm.
      split; [|done]. rewrite IHm, Hm. done.
    + by apply IH.
  - by destruct (IH (set_subscribed (subscribed st ++ [k]) st) Hd).
Qed.

(** Steps that handle [GroupCreated] logs only leave what is persisted
    alone, and applying their logs leaves a mirror alone. *)
Lemma do_steps_groups steps st :
  Forall (λ e, kind_of e = KGroupCreated) (handled_by (subscribed st) steps) →
  disk (do_steps steps st) = disk st
  ∧ ∀ m, apply_list (handled_by (subscribed st) steps) m = m.
Proof.
  revert st. induction steps as [|s steps IH]; intros st Hall; [done|].
  rewrite do_steps_cons.
  assert (Hgroup : ∀ e, kind_of e = KGroupCreated →
            disk (handler_for (kind_of e) e st) = disk st
            ∧ subscribed (handler_for (kind_of e) e st) = subscribed st
            ∧ ∀ m, apply_to_mirror e m = m).
  { intros e He. destruct e; try discriminate He. simpl.
    match goal with |- context [emit ?ev ?s] =>
      destruct (mirror_emit ev s) as (_ & -> & ->) end. done. }
  destruct s as [e|e|k|]; cbn [do_step handled_by] in *.
  - apply Forall_cons in Hall as [He Hall].
    destruct (Hgroup e He) as (Hd & Hsub & Hm).
    rewrite <- Hsub in Hall. destruct (IH _ Hall) as [IHd IHm].
    rewrite Hsub in IHm. split; [by rewrite IHd|].
    intros m. unfold apply_list in *. simpl. rewrite Hm. apply IHm.
  - unfold deliver. case_decide.
    + apply Forall_cons in Hall as [He Hall].
      destruct (Hgroup e He) as (Hd & Hsub & Hm).
      rewrite <- Hsub in Hall. destruct (IH _ Hall) as [IHd IHm].
      rewrite Hsub in IHm. split; [by rewrite IHd|].
      intros m. unfold apply_list in *. simpl. rewrite Hm. apply IHm.
    + by apply IH.
  - by apply (IH (set_subscribed (subscribed st ++ [k]) st)).
  - by apply (IH (set_members (disk st) st)).
Qed.

(** The shape of a start-up: [GroupCreated] logs only before the reload,
    no reload after it. The mirror, in memory and persisted, is then the
    result of applying the logs handled, in the order in which they are
    handled, to what was persisted before. *)
Lemma startup_mirror pre post st :
  Forall (λ e, kind_of e = KGroupCreated) (handled_by (subscribed st) pre) →
  Forall (λ s, s ≠ Reload) post →
  let st' := do_steps (pre ++ Reload :: post) st in
  members st'
  = apply_list (handled_by (subscribed st) (pre ++ Reload :: post)) (disk st)
  ∧ disk st' = members st'.
Proof.
  intros Hpre Hpost. cbv zeta.
  destruct (do_steps_groups pre st Hpre) as [Hd Hm].
  rewrite do_steps_app, do_steps_cons. cbn [do_step].
  set (st1 := set_members (disk (do_steps pre st)) (do_steps pre st)).
  destruct (do_steps_mirror post st1 Hpost eq_refl) as [Hm1 Hd1].
  split; [|exact Hd1]. rewrite Hm1.
  rewrite handled_by_app, apply_list_app, Hm. cbn [handled_by].
  unfold st1. cbn [subscribed members set_members].
  by rewrite subscribed_do_steps, Hd.
Qed.


(** ** A run against a ledger *)

Lemma subscription_kind led T k e : e ∈ subscription led T k → kind_of e = k.
Proof.
  unfold subscription. intros ([pos e'] & -> & Hin)%list_elem_of_fmap.
  apply list_elem_of_filter in Hin as [Hk _]. by destruct Hk as [Hk _].
Qed.

Lemma queryFilter_backfilled led T k :
  filter (λ e, kind_of e = k) (omap id (queryFilter led T k))
  = backfilled led T k.
Proof.
  assert (Hdec : omap id (queryFilter led T k) = backfilled led T k).
  { unfold queryFilter, backfilled.
    generalize (filter (λ pe, in_query T 0 k pe = true) led).
    intros l. induction l as [|pe l IH]; [done|].
    rewrite !fmap_cons. cbn [omap list_omap id]. by rewrite <- IH. }
  rewrite Hdec. apply filter_all, Forall_forall. apply backfilled_kind.
Qed.

Lemma filter_backfilled led T k k' :
  filter (λ e, kind_of e = k) (backfilled led T k')
  = if decide (k' = k) then backfilled led T k' else [].
Proof.
  case_decide as Hk.
  - apply filter_all, Forall_forall. intros e He.
    by rewrite (backfilled_kind _ _ _ _ He).
  - apply filter_none, Forall_forall. intros e He.
    by rewrite (backfilled_kind _ _ _ _ He).
Qed.

(** One [processEvent] of a start-up. *)
Lemma phase_handled subs lives replayed k next :
  handled_by subs
    ((LiveLog <$> lives) ++ (Replay <$> replayed) ++ [Attach k] ++ next)
  = filter (λ e, kind_of e ∈ subs) lives ++ replayed
    ++ handled_by (subs ++ [k]) next.
Proof.
  rewrite !handled_by_app, handled_by_live, handled_by_replay.
  rewrite attached_live, attached_replay, !app_nil_r. done.
Qed.

(** In a run against a ledger every live log finds the subscription of its
    kind attached, so the logs handled are the replayed logs and the live
    logs, in the order of the run. *)
Lemma run_on_handled led T env es subs :
  run_on led T env es →
  live_during env KGroupCreated = []
  ∧ handled_by subs (startup_steps env ++ (LiveLog <$> es))
    = backfilled led T KGroupCreated ++ live_loading env
      ++ live_during env KMemberAdded ++ backfilled led T KMemberAdded
      ++ live_during env KMembersAdded ++ backfilled led T KMembersAdded
      ++ live_during env KMemberRemoved ++ backfilled led T KMemberRemoved
      ++ live_during env KMemberUpdated ++ backfilled led T KMemberUpdated
      ++ es.
Proof.
  intros (Hq & _ & Hbefore).
  pose proof (Hbefore KGroupCreated) as H1.
  pose proof (Hbefore KMemberAdded) as H2.
  pose proof (Hbefore KMembersAdded) as H3.
  pose proof (Hbefore KMemberRemoved) as H4.
  pose proof (Hbefore KMemberUpdated) as H5.
  unfold before_subscription in H1, H2, H3, H4, H5.
  rewrite ?Forall_app in H2. rewrite ?Forall_app in H3.
  rewrite ?Forall_app in H4. rewrite ?Forall_app in H5.
  rewrite ?Forall_forall in H1. rewrite ?Forall_forall in H2.
  rewrite ?Forall_forall in H3. rewrite ?Forall_forall in H4.
  rewrite ?Forall_forall in H5.
  destruct H2 as (? & ? & ?). destruct H3 as (? & ? & ? & ?).
  destruct H4 as (? & ? & ? & ? & ?). destruct H5 as (? & ? & ? & ? & ? & ?).
  assert (Hnone : live_during env KGroupCreated = []).
  { destruct (live_during env KGroupCreated) as [|e l]; [done|]. exfalso.
    assert (He : e ∈ e :: l) by left.
    destruct (kind_of e) eqn:Hk;
      match goal with
      | H : ∀ x, x ∈ e :: l → kind_of x ≠ ?k, Hk : kind_of e = ?k |- _ =>
          exact (H e He Hk)
      end. }
  split; [exact Hnone|].
  unfold startup_steps, query_steps. rewrite !Hq, Hnone, !queryFilter_backfilled.
  rewrite <- !app_assoc. rewrite phase_handled.
  rewrite handled_by_app, handled_by_live, attached_live, app_nil_r.
  change ([Reload] ++ ?l) with (Reload :: l). cbn [handled_by].
  rewrite !phase_handled. cbn [app handled_by]. rewrite handled_by_live.
  rewrite filter_nil. cbn [app].
  repeat match goal with
         | |- context [filter (λ e, kind_of e ∈ ?ks) ?l] =>
             rewrite (filter_all (λ e, kind_of e ∈ ks) l);
             [|apply Forall_forall; intros e He;
               destruct (kind_of e) eqn:Hk;
               first [ set_solver
                     | exfalso;
                       match goal with
                       | H : ∀ x, x ∈ l → kind_of x ≠ ?k, Hk : kind_of e = ?k |- _ =>
                           exact (H e He Hk)
                       end ]]
         end.
  done.
Qed.

(** For each kind, the logs handled in a run against a ledger are what the
    historical query returned, in that order, and then what the live
    subscription reported, in that order. *)
Lemma run_on_kind led T env es subs k :
  run_on led T env es →
  filter (λ e, kind_of e = k)
    (handled_by subs (startup_steps env ++ (LiveLog <$> es)))
  = backfilled led T k ++ subscription led T k.
Proof.
  intros Hrun. destruct (run_on_handled led T env es subs Hrun) as [Hnone ->].
  destruct Hrun as (_ & Hlive & Hbefore).
  specialize (Hlive k). specialize (Hbefore k). rewrite <- Hlive.
  unfold live_logs, before_subscription in *. rewrite Hnone in *.
  rewrite !filter_app, !filter_backfilled.
  destruct k; cbn [app] in *; rewrite ?Forall_app in Hbefore;
    repeat match goal with
           | H : _ ∧ _ |- _ => destruct H
           | H : Forall (λ e, kind_of e ≠ ?k) ?l |- _ =>
               rewrite (filter_none (λ e, kind_of e = k) l H); clear H
           end;
    repeat first [ rewrite decide_True by done
                 | rewrite decide_False by done ];
    cbn [app]; rewrite ?filter_nil, ?app_nil_r; cbn [app];
    rewrite <- ?app_assoc; done.
Qed.

(** ** Which events a run handles *)

(** A list of logs is, up to order, its logs kind by kind. *)
Lemma by_kind (l : list RawChainEvent) :
  l ≡ₚ concat ((λ k, filter (λ e, kind_of e = k) l) <$> all_kinds).
Proof.
  induction l as [|e l IH]; [done|].
  cbn [all_kinds fmap list_fmap concat] in *. rewrite !filter_cons.
  destruct (kind_of e) eqn:Hk;
    repeat first [ rewrite decide_True by done
                 | rewrite decide_False by done ];
    cbn [app]; rewrite <- ?Permutation_middle; by apply Permutation_skip.
Qed.

Lemma perm_by_kind (l1 l2 : list RawChainEvent) :
  (∀ k, filter (λ e, kind_of e = k) l1 ≡ₚ filter (λ e, kind_of e = k) l2) →
  l1 ≡ₚ l2.
Proof.
  intros H. rewrite (by_kind l1), (by_kind l2).
  cbn [all_kinds fmap list_fmap concat]. by rewrite !H.
Qed.

(** With every subscription starting no earlier than its query's head,
    the events of a kind outside the gaps are those the query returned and
    those the subscription reported, each once. *)
Lemma outside_gaps_kind led T k :
  (∀ k, (head_at_query T k ≤ live_from T k)%nat) →
  filter (λ e, kind_of e = k) (outside_gaps led T)
  ≡ₚ backfilled led T k ++ subscription led T k.
Proof.
  intros Hle. unfold outside_gaps, backfilled, subscription.
  induction led as [|[pos e] led IH]; [done|].
  rewrite !(filter_cons _ (pos, e)).
  unfold in_query, is_live, in_gap. cbn [fst snd].
  pose proof (Hle (kind_of e)) as Hk.
  destruct (decide (kind_of e = k)) as [Heq|Hne].
  - rewrite (bool_decide_eq_true_2 _ Heq). cbn [andb Nat.leb].
    destruct (Nat.leb_spec pos (head_at_query T k));
      destruct (Nat.ltb_spec (head_at_query T (kind_of e)) pos);
      destruct (Nat.leb_spec pos (live_from T (kind_of e)));
      destruct (Nat.ltb_spec (live_from T (kind_of e)) pos);
      subst k; try lia; cbn [andb];
      repeat case_decide; try done; try (destruct_and?; done);
      rewrite ?fmap_cons; cbn [snd]; rewrite ?filter_cons;
      repeat case_decide; try done; try (exfalso; tauto);
      cbn [app]; rewrite <- ?Permutation_middle;
      first [exact IH | by apply Permutation_skip].
  - rewrite (bool_decide_eq_false_2 _ Hne). cbn [andb].
    repeat case_decide; try done; try (destruct_and?; done);
      rewrite ?fmap_cons; cbn [snd]; rewrite ?filter_cons;
      repeat case_decide; try done; exact IH.
Qed.

Lemma filter_all_outside_gap T (led : ledger) :
  (∀ pe, pe ∈ led → in_gap T pe = false) → outside_gaps led T = snd <$> led.
Proof.
  intros Hall. unfold outside_gaps. f_equal. by apply filter_all, Forall_forall.
Qed.

(** Handling every event of the ledger once, in block order. *)
Lemma apply_all_mirror led st :
  members (apply_all led st) = apply_list (snd <$> led) (members st).
Proof.
  unfold apply_all, apply_list. revert st.
  induction led as [|[pos e] led IH]; intros st; simpl; [done|].
  rewrite IH. by destruct (handler_for_mirror e st) as (-> & _).
Qed.

(** In a run against a ledger the start-up is not rejected and has the
    shape [startup_mirror] asks for. *)
Lemma run_on_mirror led T env es st :
  run_on led T env es →
  let st' := deliver_all es (startBlockchainListeners env st).1 in
  (startBlockchainListeners env st).2 = None
  ∧ st' = do_steps (startup_steps env ++ (LiveLog <$> es)) st
  ∧ members st'
    = apply_list
        (handled_by (subscribed st) (startup_steps env ++ (LiveLog <$> es)))
        (disk st)
  ∧ disk st' = members st'.
Proof.
  intros Hrun. cbv zeta. rewrite startup_as_steps. cbn [fst snd].
  rewrite deliver_all_steps, <- do_steps_app.
  destruct (run_on_handled led T env es (subscribed st) Hrun) as [Hnone _].
  destruct Hrun as (Hq & _ & Hbefore).
  split; [unfold startup_error; cbn [all_kinds omap list_omap]; by rewrite !Hq|].
  split; [done|].
  pose proof (Hbefore KMemberAdded) as H2.
  pose proof (Hbefore KMembersAdded) as H3.
  pose proof (Hbefore KMemberRemoved) as H4.
  pose proof (Hbefore KMemberUpdated) as H5.
  unfold before_subscription in H2, H3, H4, H5.
  rewrite ?Forall_app in H2. rewrite ?Forall_app in H3.
  rewrite ?Forall_app in H4. rewrite ?Forall_app in H5.
  rewrite ?Forall_forall in H2. rewrite ?Forall_forall in H3.
  rewrite ?Forall_forall in H4. rewrite ?Forall_forall in H5.
  destruct H2 as (_ & H2 & _). destruct H3 as (_ & H3 & _).
  destruct H4 as (_ & H4 & _). destruct H5 as (_ & H5 & _).
  unfold startup_steps, query_steps. rewrite !Hq, Hnone, !queryFilter_backfilled.
  rewrite <- !app_assoc. cbn [fmap list_fmap app].
  change ([Reload] ++ ?l) with (Reload :: l).
  match goal with
  | |- context [do_steps (?R ++ Attach KGroupCreated :: ?L ++ Reload :: ?post)] =>
      replace (R ++ Attach KGroupCreated :: L ++ Reload :: post)
        with ((R ++ Attach KGroupCreated :: L) ++ Reload :: post)
        by (by rewrite <- app_assoc)
  end.
  apply startup_mirror.
  - rewrite handled_by_app, handled_by_replay. cbn [handled_by].
    rewrite handled_by_live. apply Forall_app. split.
    + apply Forall_forall, backfilled_kind.
    + apply Forall_forall. intros e [_ He]%list_elem_of_filter.
      destruct (kind_of e) eqn:Hk; [done|exfalso..].
      * exact (H2 e He Hk).
      * exact (H3 e He Hk).
      * exact (H4 e He Hk).
      * exact (H5 e He Hk).
  - repeat first [rewrite Forall_app | rewrite Forall_cons | rewrite Forall_fmap].
    repeat split; try done; apply Forall_true; intros ?; done.
Qed.


(** C3 as stated fails: one [MemberAdded] event, mined in block 10 after
    the historical query saw block 9 as the head and before the live
    subscription started at block 10, is in neither delivery. The start-up
    is not rejected and the mirror stays empty, while handling the event
    once would add the member. *)
Lemma event_between_query_and_subscription_is_lost :
  run_on [(10%nat, MemberAdded 7 0 123)] (mkTiming (λ _, 9%nat) (λ _, 10%nat))
    (Examples.quiet_startup [(10%nat, MemberAdded 7 0 123)]
       (mkTiming (λ _, 9%nat) (λ _, 10%nat))) []
  ∧ (∀ k, (head_at_query (mkTiming (λ _, 9) (λ _, 10)) k
           ≤ live_from (mkTiming (λ _, 9) (λ _, 10)) k)%nat)
  ∧ (startBlockchainListeners
       (Examples.quiet_startup [(10%nat, MemberAdded 7 0 123)]
          (mkTiming (λ _, 9%nat) (λ _, 10%nat))) initial).2 = None
  ∧ members
      (deliver_all []
         (startBlockchainListeners
            (Examples.quiet_startup [(10%nat, MemberAdded 7 0 123)]
               (mkTiming (λ _, 9%nat) (λ _, 10%nat))) initial).1) !! js "7"
    = None
  ∧ members (apply_all [(10%nat, MemberAdded 7 0 123)] initial) !! js "7"
    = Some [js "123"].
Proof.
  split.
  { split; [done|]. split; intros k; destruct k; by vm_compute. }
  split; [intros k; simpl; lia|]. split; [by vm_compute|].
  split; by vm_compute.
Qed.

(** C3, amended. The bridge keeps no watermark and no event identity: it
    handles what it is handed. In a run against a ledger, whatever live
    logs are delivered while later queries are pending and however the
    deliveries of the different kinds are interleaved, the start-up is not
    rejected, and the mirror, in memory and persisted, is the result of
    applying the logs handled, in the order in which the run handles them,
    to what was persisted before. For each kind these are the logs of the
    historical query followed by those of the live subscription. With each
    subscription starting at or after the head its query saw, they are
    exactly the events of the ledger that lie outside the gaps between the
    two, each once; an event inside a gap is not handled. When no event
    lies in a gap, every event of the ledger is handled exactly once. *)
Theorem bridge_handles_events_outside_gaps_once led T env es st :
  run_on led T env es →
  (∀ k, (head_at_query T k ≤ live_from T k)%nat) →
  let st' := deliver_all es (startBlockchainListeners env st).1 in
  let hs := handled_by (subscribed st) (startup_steps env ++ (LiveLog <$> es)) in
  (startBlockchainListeners env st).2 = None
  ∧ members st' = apply_list hs (disk st)
  ∧ disk st' = members st'
  ∧ (∀ k, filter (λ e, kind_of e = k) hs
          = backfilled led T k ++ subscription led T k)
  ∧ hs ≡ₚ outside_gaps led T
  ∧ ((∀ pe, pe ∈ led → in_gap T pe = false) → hs ≡ₚ snd <$> led).
Proof.
  intros Hrun Hle st' hs.
  destruct (run_on_mirror led T env es st Hrun) as (Hok & _ & Hm & Hd).
  assert (Hkind : ∀ k, filter (λ e, kind_of e = k) hs
                       = backfilled led T k ++ subscription led T k).
  { intros k. by apply run_on_kind. }
  assert (Hperm : hs ≡ₚ outside_gaps led T).
  { apply perm_by_kind. intros k. by rewrite Hkind, outside_gaps_kind. }
  split; [exact Hok|]. split; [exact Hm|]. split; [exact Hd|].
  split; [exact Hkind|]. split; [exact Hperm|].
  intros Hall. by rewrite Hperm, filter_all_outside_gap.
Qed.

Lemma bridge_handles_events_outside_gaps_once_witness :
  run_on [(3%nat, MemberAdded 7 0 123); (4%nat, GroupCreated 8)]
    (Examples.at_block 3)
    (Examples.busy_startup [(3%nat, MemberAdded 7 0 123); (4%nat, GroupCreated 8)]
       (Examples.at_block 3) [GroupCreated 8]) []
  ∧ handled_by []
      (startup_steps
         (Examples.busy_startup
            [(3%nat, MemberAdded 7 0 123); (4%nat, GroupCreated 8)]
            (Examples.at_block 3) [GroupCreated 8]) ++ (LiveLog <$> []))
    ≡ₚ [MemberAdded 7 0 123; GroupCreated 8]
  ∧ members
      (deliver_all []
         (startBlockchainListeners
            (Examples.busy_startup
               [(3%nat, MemberAdded 7 0 123); (4%nat, GroupCreated 8)]
               (Examples.at_block 3) [GroupCreated 8]) initial).1)
    = apply_list [MemberAdded 7 0 123; GroupCreated 8] ∅.
Proof.
  assert (Hrun : run_on [(3%nat, MemberAdded 7 0 123); (4%nat, GroupCreated 8)]
                   (Examples.at_block 3)
                   (Examples.busy_startup
                      [(3%nat, MemberAdded 7 0 123); (4%nat, GroupCreated 8)]
                      (Examples.at_block 3) [GroupCreated 8]) []).
  { split; [done|]. split; intros k; destruct k; vm_compute;
      repeat constructor; discriminate. }
  assert (Hle : ∀ k, (head_at_query (Examples.at_block 3) k
                      ≤ live_from (Examples.at_block 3) k)%nat).
  { intros k. simpl. lia. }
  split; [exact Hrun|].
  destruct (bridge_handles_events_outside_gaps_once _ _ _ _ initial Hrun Hle)
    as (_ & Hm & _ & _ & _ & Hall).
  split.
  - apply Hall. intros pe Hin.
    apply elem_of_cons in Hin as [->|Hin]; [reflexivity|].
    apply elem_of_cons in Hin as [->|Hin]; [reflexivity|].
    by apply elem_of_nil in Hin.
  - exact Hm.
Defined.

(** The order of a run is not block order. Here every event is at or
    before the head and is handled once, the removal before the update it
    follows on the chain, and the mirror keeps a member that handling in
    block order removes. *)
Example backfill_is_kind_by_kind :
  run_on
    [(1%nat, MemberAdded 7 0 1); (2%nat, MemberUpdated 7 0 1 2);
     (3%nat, MemberRemoved 7 0 2)] (Examples.at_block 3)
    (Examples.quiet_startup
       [(1%nat, MemberAdded 7 0 1); (2%nat, MemberUpdated 7 0 1 2);
        (3%nat, MemberRemoved 7 0 2)] (Examples.at_block 3)) []
  ∧ members
      (startBlockchainListeners
         (Examples.quiet_startup
            [(1%nat, MemberAdded 7 0 1); (2%nat, MemberUpdated 7 0 1 2);
             (3%nat, MemberRemoved 7 0 2)] (Examples.at_block 3))
         initial).1 !! js "7"
    = Some [js "2"]
  ∧ members (apply_all
               [(1%nat, MemberAdded 7 0 1); (2%nat, MemberUpdated 7 0 1 2);
                (3%nat, MemberRemoved 7 0 2)] initial) !! js "7"
    = Some [].
Proof.
  split.
  { split; [done|]. split; intros k; destruct k; by vm_compute. }
  split; by vm_compute.
Qed.

(** The same for live logs: three logs of one block, after the start-up,
    handled subscription by subscription. *)
Example live_logs_subscription_by_subscription :
  run_on
    [(5%nat, MemberAdded 7 0 1); (5%nat, MemberUpdated 7 0 1 2);
     (5%nat, MemberRemoved 7 0 2)] (Examples.at_block 4)
    (Examples.quiet_startup
       [(5%nat, MemberAdded 7 0 1); (5%nat, MemberUpdated 7 0 1 2);
        (5%nat, MemberRemoved 7 0 2)] (Examples.at_block 4))
    [MemberAdded 7 0 1; MemberRemoved 7 0 2; MemberUpdated 7 0 1 2]
  ∧ members
      (deliver_all
         [MemberAdded 7 0 1; MemberRemoved 7 0 2; MemberUpdated 7 0 1 2]
         (startBlockchainListeners
            (Examples.quiet_startup
               [(5%nat, MemberAdded 7 0 1); (5%nat, MemberUpdated 7 0 1 2);
                (5%nat, MemberRemoved 7 0 2)] (Examples.at_block 4))
            initial).1) !! js "7"
    = Some [js "2"].
Proof.
  split.
  { split; [done|]. split; intros k; destruct k; vm_compute;
      repeat constructor; discriminate. }
  by vm_compute.
Qed.

(** One ledger and one timing, two runs, two mirrors: the member added in
    block 3 is reported by the live subscription either while the query
    for [MemberRemoved] is pending, and then the replayed removal of block
    4 takes it out, or after the start-up, and then it stays. *)
Example same_ledger_two_mirrors :
  run_on [(3%nat, MemberAdded 7 0 123); (4%nat, MemberRemoved 7 0 123)]
    (mkTiming (λ k, match k with KMemberAdded => 2 | _ => 4 end)
       (λ k, match k with KMemberAdded => 2 | _ => 4 end))%nat
    (Examples.busy_startup
       [(3%nat, MemberAdded 7 0 123); (4%nat, MemberRemoved 7 0 123)]
       (mkTiming (λ k, match k with KMemberAdded => 2 | _ => 4 end)
          (λ k, match k with KMemberAdded => 2 | _ => 4 end))%nat
       [MemberAdded 7 0 123]) []
  ∧ run_on [(3%nat, MemberAdded 7 0 123); (4%nat, MemberRemoved 7 0 123)]
      (mkTiming (λ k, match k with KMemberAdded => 2 | _ => 4 end)
         (λ k, match k with KMemberAdded => 2 | _ => 4 end))%nat
      (Examples.quiet_startup
         [(3%nat, MemberAdded 7 0 123); (4%nat, MemberRemoved 7 0 123)]
         (mkTiming (λ k, match k with KMemberAdded => 2 | _ => 4 end)
            (λ k, match k with KMemberAdded => 2 | _ => 4 end))%nat)
      [MemberAdded 7 0 123]
  ∧ members
      (startBlockchainListeners
         (Examples.busy_startup
            [(3%nat, MemberAdded 7 0 123); (4%nat, MemberRemoved 7 0 123)]
            (mkTiming (λ k, match k with KMemberAdded => 2 | _ => 4 end)
               (λ k, match k with KMemberAdded => 2 | _ => 4 end))%nat
            [MemberAdded 7 0 123]) initial).1 !! js "7"
    = Some []
  ∧ members
      (deliver_all [MemberAdded 7 0 123]
         (startBlockchainListeners
            (Examples.quiet_startup
               [(3%nat, MemberAdded 7 0 123); (4%nat, MemberRemoved 7 0 123)]
               (mkTiming (λ k, match k with KMemberAdded => 2 | _ => 4 end)
                  (λ k, match k with KMemberAdded => 2 | _ => 4 end))%nat)
            initial).1) !! js "7"
    = Some [js "123"].
Proof.
  split.
  { split; [done|]. split; intros k; destruct k; vm_compute;
      repeat constructor; discriminate. }
  split.
  { split; [done|]. split; intros k; destruct k; vm_compute;
      repeat constructor; discriminate. }
  split; by vm_compute.
Qed.

(** Scenario 1 of the specification: one historical [MemberAdded(7, 0,
    123)] at block 10, backfill from block 0. *)
Example scenario_backfill :
  members
    (startBlockchainListeners
       (Examples.quiet_startup [(10%nat, MemberAdded 7 0 123)]
          (Examples.at_block 10)) initial).1 !! js "7"
  = Some [js "123"].
Proof. by vm_compute. Qed.

(** ** The states of a run are reachable *)

Lemma reachable_deliver e st : reachable st → reachable (deliver e st).
Proof. intros Hr. unfold deliver. case_decide; [by apply reach_log | done]. Qed.

Lemma reachable_deliver_all es st : reachable st → reachable (deliver_all es st).
Proof.
  unfold deliver_all. revert st. induction es as [|e es IH]; intros st Hr; [done|].
  simpl. by apply IH, reachable_deliver.
Qed.

Lemma reachable_do_step s st : reachable st → reachable (do_step s st).
Proof.
  intros Hr. destruct s as [e|e|k|]; cbn [do_step].
  - by apply reach_log.
  - by apply reachable_deliver.
  - by apply reach_subscribe.
  - by apply reach_reload.
Qed.

Lemma reachable_do_steps steps st : reachable st → reachable (do_steps steps st).
Proof.
  unfold do_steps. revert st.
  induction steps as [|s steps IH]; intros st Hr; [done|].
  simpl. by apply IH, reachable_do_step.
Qed.

Lemma reachable_processEvent k answer st :
  reachable st → reachable (processEvent k (handler_for k) answer st).1.
Proof.
  intros Hr. unfold processEvent. destruct answer as [error|past]; [done|].
  cbn [fst]. apply reach_subscribe.
  revert st Hr. induction past as [|[e|] past IH]; intros st Hr; simpl; [done|..].
  - by apply IH, reach_log.
  - by apply IH.
Qed.

Lemma reachable_and_then r k :
  reachable r.1 → (∀ st, reachable st → reachable (k st).1) →
  reachable (and_then r k).1.
Proof. destruct r as [st [error|]]; simpl; auto. Qed.

Lemma reachable_startBlockchainListeners env st :
  reachable st → reachable (startBlockchainListeners env st).1.
Proof.
  intros Hr. unfold startBlockchainListeners.
  change onGroupCreated with (handler_for KGroupCreated).
  change onMemberAdded with (handler_for KMemberAdded).
  change onMembersAdded with (handler_for KMembersAdded).
  change onMemberRemoved with (handler_for KMemberRemoved).
  change onMemberUpdated with (handler_for KMemberUpdated).
  repeat first [ apply reachable_and_then; [|intros ? ?]
               | apply reachable_processEvent
               | apply reachable_deliver_all
               | apply reach_reload ];
    done.
Qed.

Lemma reachable_await_created id steps st :
  reachable st → reachable (await_created id steps st).1.
Proof.
  revert st. induction steps as [|s rest IH]; intros st Hr; simpl.
  - by case_bool_decide.
  - case_bool_decide; [done|]. by apply IH, reachable_do_step.
Qed.

Section reachable_main.
Context (w : world).

Let any (ef : effect) : Prop := True.
Let stays (st st' : state) : Prop := reachable st → reachable st'.

Local Lemma stays_refl st : stays st st.
Proof. by intros ?. Qed.
Local Lemma stays_trans a b c : stays a b → stays b c → stays a c.
Proof. unfold stays. auto. Qed.
Local Hint Resolve stays_refl stays_trans : core.

Lemma main_reachable groupId st :
  reachable st → reachable (main w groupId st).1.2.
Proof.
  pose proof (λ A B, @keeps_bind any stays stays_trans A B) as Hbind.
  pose proof (λ A, @keeps_ret any stays stays_refl A) as Hret.
  pose proof (λ A, @keeps_throw any stays stays_refl A) as Hthrow.
  assert (Htell : ∀ ef, keeps any stays (tell ef)).
  { intros ef. by apply keeps_tell. }
  assert (Hpost : ∀ url body ok failed,
            keeps any stays ok → (∀ err, keeps any stays (failed err)) →
            keeps any stays (post_then w url body ok failed)).
  { intros url body ok failed Hok Hfailed. unfold post_then.
    apply Hbind; [apply Htell|]. intros _. by destruct (axios_post w url body). }
  assert (Hgen : ∀ identity group index message scope,
            keeps any stays
              (call_generateProof w identity group index message scope)).
  { intros. unfold call_generateProof. apply Hbind; [apply Htell|].
    intros _. destruct (generateProof w _ _ _ _ _);
      [apply Hthrow | apply Hret]. }
  assert (Hdeliver : ∀ es, keeps any stays (modify (do_steps es))).
  { intros es. apply keeps_modify. intros s Hs. by apply reachable_do_steps. }
  assert (Hproofs : ∀ identity commitment steps,
            keeps any stays (main_proofs w groupId identity commitment steps)).
  { intros. unfold main_proofs, loadMembers, Group_new, sendJoinProof,
      sendModTrainProof.
    repeat first
      [ apply Hbind; [|intros ?]
      | apply Htell
      | apply Hgen
      | apply Hpost; [|intros ?]
      | apply Hdeliver
      | apply Hthrow
      | apply Hret
      | case_match ].
    intros s. simpl. split; [constructor | apply stays_refl]. }
  cut (keeps any stays (main w groupId)); [intros Hk; apply Hk|].
  unfold main, prepare_identity, isAlreadyMember, Client.addMember.
  repeat first
    [ apply Hproofs
    | progress cbv zeta
    | apply Hbind; [|intros ?]
    | apply Htell
    | apply Hpost; [|intros ?]
    | apply Hdeliver
    | apply Hthrow
    | apply Hret
    | case_match ].
  - intros s. unfold lift.
    pose proof (reach_wait groupId (Some a.2) s) as Hw.
    destruct (waitForMemberEvent groupId (Some a.2) s) as [p s'].
    simpl in *. split; [constructor | exact Hw].
  - intros s. unfold await.
    match goal with |- context [match ?p with AlreadyResolved => _ | _ => _ end] =>
      destruct p as [|id|e] end; simpl;
      [split; [constructor | apply stays_refl]|
      |split; [constructor | apply stays_refl]].
    pose proof (reachable_await_created id (bridge_after w) s) as Hr.
    destruct (await_created id (bridge_after w) s) as [s' [rest|]];
      simpl in *; (split; [constructor | exact Hr]).
Qed.
End reachable_main.

(** ** A commitment missing from the loaded snapshot, seen from [main] *)

(** The error of the join-proof step is not caught in [main]: the run ends
    with it after the announcement of step 11, having requested no proof
    and posted nothing in steps 10 to 12. *)
Lemma main_proofs_commitment_absent w groupId (group : Group) identity
    commitment steps st :
  new_Group w (disk (do_steps steps st) !! groupId) = inr group →
  commitment ∉ group →
  main_proofs w groupId identity commitment steps st
  = ([CallLoadMembers;
      ConsoleLogMembers
        (nl :: js "10. The members of the group :" ++ [nl; nl])
        (disk (do_steps steps st) !! groupId);
      ConsoleLog (nl :: js "11. Sending proof of membership to the server")],
     do_steps steps st,
     Threw (JsError (nl :: js "Commitment not found in the group"))).
Proof.
  intros Hparse Habs. unfold main_proofs, loadMembers, Group_new.
  rewrite !bind_assoc, bind_tell, bind_assoc, bind_modify, bind_lift.
  cbn [fst snd]. rewrite bind_tell, Hparse, bind_ret, bind_tell.
  destruct (commitment_absent_step w groupId group identity commitment
              (do_steps steps st) Habs) as [Hjoin _].
  by rewrite (bind_threw _ _ _ _ _ _ Hjoin).
Qed.

(** The same seen from [main], when the chain says "already a member". *)
Lemma main_commitment_absent w groupId (group : Group) identity commitment st :
  credentials w = inr (identity, commitment) →
  hasMember w groupId commitment = inr true →
  new_Group w
    (disk (do_steps (bridge_after w) (do_steps (bridge_before w) st)) !! groupId)
  = inr group →
  commitment ∉ group →
  main w groupId st
  = ([ConsoleLog (nl :: js "9. Sending a request to join a group to the server");
      CallHasMember groupId commitment;
      ConsoleLog (nl :: js "Already a member.");
      CallLoadMembers;
      ConsoleLogMembers
        (nl :: js "10. The members of the group :" ++ [nl; nl])
        (disk (do_steps (bridge_after w) (do_steps (bridge_before w) st))
         !! groupId);
      ConsoleLog (nl :: js "11. Sending proof of membership to the server")],
     do_steps (bridge_after w) (do_steps (bridge_before w) st),
     Threw (JsError (nl :: js "Commitment not found in the group"))).
Proof.
  intros Hcred Hmem Hparse Habs.
  unfold main, prepare_identity. rewrite Hcred, bind_ret. cbn [fst snd].
  unfold isAlreadyMember. rewrite Hmem.
  rewrite bind_tell, bind_modify, bind_assoc, bind_tell, bind_ret.
  cbn [negb fst snd]. rewrite bind_assoc, bind_tell, bind_ret. cbn [fst snd].
  by rewrite (main_proofs_commitment_absent w groupId group identity commitment
                (bridge_after w) (do_steps (bridge_before w) st) Hparse Habs).
Qed.

(** C7 as stated fails: the failure does not abort only the step in which
    it occurs. With the commitment missing from the loaded snapshot, the
    join-proof step throws, [main] has no handler for it and ends with the
    same error: the model-update step of the run is never announced or
    started. *)
Lemma absent_commitment_ends_main :
  main Examples.already_member (js "7") initial
  = ([ConsoleLog (nl :: js "9. Sending a request to join a group to the server");
      CallHasMember (js "7") 123;
      ConsoleLog (nl :: js "Already a member.");
      CallLoadMembers;
      ConsoleLogMembers (nl :: js "10. The members of the group :" ++ [nl; nl])
        None;
      ConsoleLog (nl :: js "11. Sending proof of membership to the server")],
     initial, Threw (JsError (nl :: js "Commitment not found in the group")))
  ∧ ConsoleLog (nl :: js "12. Sending proof of model update to the server")
    ∉ (main Examples.already_member (js "7") initial).1.1.
Proof.
  assert (Hmain : main Examples.already_member (js "7") initial
    = ([ConsoleLog (nl :: js "9. Sending a request to join a group to the server");
        CallHasMember (js "7") 123;
        ConsoleLog (nl :: js "Already a member.");
        CallLoadMembers;
        ConsoleLogMembers (nl :: js "10. The members of the group :" ++ [nl; nl])
          None;
        ConsoleLog (nl :: js "11. Sending proof of membership to the server")],
       initial, Threw (JsError (nl :: js "Commitment not found in the group"))))
    by (by vm_compute).
  split; [exact Hmain|]. rewrite Hmain. cbn [fst].
  repeat (apply not_elem_of_cons; split;
          [intros H;
           first [discriminate H
                 | apply (f_equal (λ ef, match ef with
                                         | ConsoleLog text => text
                                         | _ => []
                                         end)) in H;
                   vm_compute in H; discriminate H]|]).
  apply not_elem_of_nil.
Qed.

(** C7, amended. When the caller's commitment is not in the group handed
    to the call, [sendJoinProof] and [sendModTrainProof] both end by
    throwing the commitment-not-found error before anything else happens
    in that step: no proof is requested, no request is posted, and the
    process state is as before. The error is not confined to the step:
    [main] does not catch it, so when the group built from the loaded
    snapshot lacks the commitment, steps 10 to 12 end with the error of the
    join-proof step right after the announcement of step 11, and so does
    [main]; the model-update step is not started. *)
Theorem commitment_absent_fails_step
    w groupId (group : Group) identity commitment scope deltaw steps st :
  commitment ∉ group →
  sendJoinProof w groupId group identity commitment st
    = ([], st, Threw (JsError (nl :: js "Commitment not found in the group")))
  ∧ sendModTrainProof w groupId group identity commitment scope deltaw st
    = ([], st, Threw (JsError (js "Commitment not found in the group")))
  ∧ commitment_not_found_error (JsError (nl :: js "Commitment not found in the group"))
  ∧ commitment_not_found_error (JsError (js "Commitment not found in the group"))
  ∧ (new_Group w (disk (do_steps steps st) !! groupId) = inr group →
     main_proofs w groupId identity commitment steps st
     = ([CallLoadMembers;
         ConsoleLogMembers
           (nl :: js "10. The members of the group :" ++ [nl; nl])
           (disk (do_steps steps st) !! groupId);
         ConsoleLog (nl :: js "11. Sending proof of membership to the server")],
        do_steps steps st,
        Threw (JsError (nl :: js "Commitment not found in the group"))))
  ∧ (credentials w = inr (identity, commitment) →
     hasMember w groupId commitment = inr true →
     new_Group w
       (disk (do_steps (bridge_after w) (do_steps (bridge_before w) st))
        !! groupId) = inr group →
     (main w groupId st).2
     = Threw (JsError (nl :: js "Commitment not found in the group"))
     ∧ Forall (λ ef, is_http ef = false ∧ is_proof_generation ef = false
                     ∧ ef ≠ ConsoleLog
                              (nl :: js "12. Sending proof of model update to the server"))
         (main w groupId st).1.1).
Proof.
  intros Habs.
  destruct (commitment_absent_step w groupId group identity commitment st Habs)
    as [Hjoin Hmod].
  split; [exact Hjoin|]. split; [apply Hmod|]. split; [by right|].
  split; [by left|]. split.
  - intros Hparse.
    exact (main_proofs_commitment_absent w groupId group identity commitment
             steps st Hparse Habs).
  - intros Hcred Hmem Hparse.
    rewrite (main_commitment_absent w groupId group identity commitment st
               Hcred Hmem Hparse Habs).
    split; [done|]. cbn [fst].
    repeat (apply Forall_cons; split;
            [split; [reflexivity|]; split; [reflexivity|]; intros H;
             first [discriminate H
                   | apply (f_equal (λ ef, match ef with
                                           | ConsoleLog text => text
                                           | _ => []
                                           end)) in H;
                     vm_compute in H; discriminate H]|]).
    constructor.
Qed.

Lemma commitment_absent_fails_step_witness :
  (123 ∉ ([] : Group))
  ∧ sendJoinProof Examples.already_member (js "7") [] Examples.identity0 123 initial
    = ([], initial, Threw (JsError (nl :: js "Commitment not found in the group")))
  ∧ sendModTrainProof Examples.already_member (js "7") [] Examples.identity0 123
      (js "round-1") [ItemBigInt 1] initial
    = ([], initial, Threw (JsError (js "Commitment not found in the group")))
  ∧ (main Examples.already_member (js "7") initial).2
    = Threw (JsError (nl :: js "Commitment not found in the group")).
Proof.
  assert (H : (123 ∉ ([] : Group))) by apply not_elem_of_nil.
  split; [exact H|].
  pose proof (commitment_absent_fails_step Examples.already_member (js "7") []
                Examples.identity0 123 (js "round-1") [ItemBigInt 1] [] initial H)
    as (H1 & H2 & _ & _ & _ & Hmain).
  split; [exact H1|]. split; [exact H2|].
  exact (proj1 (Hmain eq_refl eq_refl eq_refl)).
Defined.

(** ** Whole runs *)

(** Scenario 2 of the specification: the coordinator asks for admission and
    waits; a batch containing its commitment does not wake it, the
    [MemberAdded] event for its key does, once; it then finds itself in the
    mirror and sends both proofs. *)
Example run_join_then_prove :
  main Examples.joining (js "7") Examples.listening
  = ([ConsoleLog (nl :: js "9. Sending a request to join a group to the server");
      CallHasMember (js "7") 123;
      HttpPost (add_member_url Examples.joining)
        (AddMemberBody (js "7") (js "123"));
      ConsoleLog (nl :: js "Membre added to the group.");
      ConsoleLog (nl :: js "Waiting for member event processing...");
      CallLoadMembers;
      ConsoleLogMembers (nl :: js "10. The members of the group :" ++ [nl; nl])
        (Some [js "5"; js "123"]);
      ConsoleLog (nl :: js "11. Sending proof of membership to the server");
      CallGenerateProof Examples.identity0 [5; 123] 1
        (MsgString (js "join-123")) (js "join-7");
      HttpPost (join_url Examples.joining (js "7"))
        (join_body 123 Examples.proof0 (js "7"));
      ConsoleLog (nl :: js "Join Proof sent and accepted");
      ConsoleLog (nl :: js "12. Sending proof of model update to the server");
      CallGenerateProof Examples.identity0 [5; 123] 1
        (MsgBytes (proof_message round1_values)) (js "round-1");
      HttpPost (modtrain_url Examples.joining (js "7"))
        (modtrain_body Examples.proof0 (proof_message round1_values)
           (js "round-1"));
      ConsoleLog (nl :: js "Model Update Proof sent and accepted")],
     (main Examples.joining (js "7") Examples.listening).1.2,
     Returned tt)
  ∧ fulfilled (main Examples.joining (js "7") Examples.listening).1.2 = {[ 0%nat ]}
  ∧ isWaitingForMemberEvent
      (main Examples.joining (js "7") Examples.listening).1.2 = false.
Proof. by vm_compute. Qed.

(** There is no timeout: when the member event is handled before the wait
    is registered, the coordinator stays suspended. *)
Example run_suspended_after_early_event :
  (main Examples.early_event (js "7") Examples.listening).2 = Suspended
  ∧ disk (main Examples.early_event (js "7") Examples.listening).1.2 !! js "7"
    = Some [js "123"].
Proof. by vm_compute. Qed.

(** Scenario 3 of the specification: the third value is beyond the safe
    integers. *)
Example scenario_unsafe_number :
  sendModTrainProof Examples.friendly (js "7") [5; 123] Examples.identity0 123
    (js "round-1")
    [ItemNumber (NumInt 1); ItemString (js "2");
     ItemNumber (NumInt 9007199254740992)] initial
  = ([], initial, Threw (JsError (js "Unsafe number in deltaw"))).
Proof. reflexivity. Qed.

(** * Further properties *)

Import Entry Facts.

(** ** The bridge *)

Lemma subscribed_handler_for k e st :
  subscribed (handler_for k e st) = subscribed st.
Proof.
  destruct (handler_for_shape k e st) as (stm & _ & _ & Hs & [->|(ev & ->)]);
    [done|].
  by destruct (mirror_emit ev stm) as (_ & _ & ->).
Qed.

Lemma subscribed_deliver_all es st :
  subscribed (deliver_all es st) = subscribed st.
Proof.
  unfold deliver_all. revert st. induction es as [|e es IH]; intros st; [done|].
  simpl. rewrite IH. unfold deliver. case_decide; [|done].
  apply subscribed_handler_for.
Qed.

Lemma subscribed_replay (handler : RawChainEvent → state → state) es st :
  (∀ e s, subscribed (handler e s) = subscribed s) →
  subscribed (foldl (λ st args, handler args st) st es) = subscribed st.
Proof.
  intros Hh. revert st. induction es as [|e es IH]; intros st; simpl; [done|].
  by rewrite IH, Hh.
Qed.

(** X1. [processEvent], when the historical query is answered: the
    entries without decoded arguments are passed over, the decoded ones
    are handed to the handler in the order of the answer and, after the
    last of them, the kind is subscribed. With one of the bridge's closures
    as the handler this is the only subscription made, so a live log of the
    kind finds nobody until the replay is over. When the query is
    rejected, nothing is replayed, nothing is subscribed, and the call is
    rejected with the error of the query. *)
Theorem processEvent_replays_then_subscribes eventName handler pastEvents error st :
  let st' := foldl (λ st args, handler args st) st (omap id pastEvents) in
  processEvent eventName handler (inr pastEvents) st
  = (set_subscribed (subscribed st' ++ [eventName]) st', None)
  ∧ processEvent eventName handler (inl error) st = (st, Some error)
  ∧ ((∀ e s, subscribed (handler e s) = subscribed s) →
     subscribed (processEvent eventName handler (inr pastEvents) st).1
     = subscribed st ++ [eventName]).
Proof.
  cbv zeta.
  assert (Hskip : ∀ st,
    foldl (λ st e, match e with Some args => handler args st | None => st end)
      st pastEvents
    = foldl (λ st args, handler args st) st (omap id pastEvents)).
  { induction pastEvents as [|[e|] pastEvents IH]; intros s; simpl; [done|..];
      apply IH. }
  unfold processEvent. rewrite Hskip.
  split; [done|]. split; [done|].
  intros Hh. cbn [fst subscribed set_subscribed]. by rewrite subscribed_replay.
Qed.

Lemma processEvent_replays_then_subscribes_witness :
  subscribed
    (processEvent KMemberAdded onMemberAdded
       (inr [Some (MemberAdded 7 0 123); None; Some (MemberAdded 7 1 5)])
       initial).1
  = [KMemberAdded].
Proof.
  apply (processEvent_replays_then_subscribes KMemberAdded onMemberAdded
           [Some (MemberAdded 7 0 123); None; Some (MemberAdded 7 1 5)]
           (JsError []) initial).
  intros e s. apply (subscribed_handler_for KMemberAdded).
Defined.

(** The subscriptions a start-up attaches: those of the queries answered
    before the first one that fails. *)
Lemma attached_startup env :
  attached (startup_steps env)
  = match past env KGroupCreated with
    | inl _ => []
    | inr _ =>
        KGroupCreated ::
        match past env KMemberAdded with
        | inl _ => []
        | inr _ =>
            KMemberAdded ::
            match past env KMembersAdded with
            | inl _ => []
            | inr _ =>
                KMembersAdded ::
                match past env KMemberRemoved with
                | inl _ => []
                | inr _ =>
                    KMemberRemoved ::
                    match past env KMemberUpdated with
                    | inl _ => []
                    | inr _ => [KMemberUpdated]
                    end
                end
            end
        end
    end.
Proof.
  unfold startup_steps, query_steps.
  repeat match goal with
         | |- context [past env ?k] => destruct (past env k) as [?|?]
         end;
    rewrite ?attached_app, ?attached_live, ?attached_replay;
    cbn [attached omap list_omap app];
    rewrite ?attached_app, ?attached_live, ?attached_replay;
    cbn [attached omap list_omap app];
    rewrite ?attached_app, ?attached_live, ?attached_replay;
    cbn [attached omap list_omap app];
    rewrite ?attached_app, ?attached_live, ?attached_replay;
    cbn [attached omap list_omap app];
    rewrite ?attached_app, ?attached_live, ?attached_replay;
    cbn [attached omap list_omap app];
    rewrite ?attached_app, ?attached_live, ?attached_replay;
    cbn [attached omap list_omap app]; done.
Qed.

(** X2. A start-up subscribes the kinds in the order of the source, each
    after its query has been answered and its backfill replayed. The
    first query that is rejected ends it: [startBlockchainListeners] is
    rejected with the error of that query, the kinds before it are
    subscribed, and neither it nor any later kind is. When all five
    queries are answered the start-up is not rejected, all five kinds are
    subscribed, and every log delivered afterwards reaches the closure of
    its kind. *)
Theorem startup_subscribes_until_first_failure env st :
  (∀ pre k post error,
     all_kinds = pre ++ k :: post →
     Forall (answered env) pre →
     past env k = inl error →
     (startBlockchainListeners env st).2 = Some error
     ∧ subscribed (startBlockchainListeners env st).1 = subscribed st ++ pre)
  ∧ (Forall (answered env) all_kinds →
     (startBlockchainListeners env st).2 = None
     ∧ subscribed (startBlockchainListeners env st).1 = subscribed st ++ all_kinds
     ∧ ∀ es e,
         deliver e (deliver_all es (startBlockchainListeners env st).1)
         = handler_for (kind_of e) e
             (deliver_all es (startBlockchainListeners env st).1)).
Proof.
  rewrite startup_as_steps. cbn [fst snd].
  rewrite subscribed_do_steps, attached_startup.
  unfold startup_error, all_kinds. cbn [omap list_omap]. split.
  - intros pre k post error Hsplit Hpre Hk.
    repeat (destruct pre as [|? pre];
            [ injection Hsplit as <- <-; rewrite Hk; done
            | injection Hsplit as <- Hsplit;
              apply Forall_cons in Hpre as [[? Ha] Hpre]; rewrite Ha;
              clear Ha; cbn [head] ]).
    destruct pre; discriminate Hsplit.
  - intros Hall.
    rewrite !Forall_cons in Hall.
    destruct Hall as ([? H1] & [? H2] & [? H3] & [? H4] & [? H5] & _).
    rewrite H1, H2, H3, H4, H5.
    cbn [head]. split; [done|]. split; [done|].
    intros es e. unfold deliver. rewrite decide_True; [done|].
    rewrite subscribed_deliver_all, subscribed_do_steps, attached_startup.
    rewrite H1, H2, H3, H4, H5.
    apply elem_of_app. right. destruct (kind_of e); set_solver.
Qed.

Lemma startup_subscribes_until_first_failure_witness :
  (startBlockchainListeners
     (mkScript (λ k, match k with
                     | KMembersAdded => inl (JsError (js "timeout"))
                     | _ => inr []
                     end) (λ _, []) []) initial).2
  = Some (JsError (js "timeout"))
  ∧ subscribed
      (startBlockchainListeners
         (mkScript (λ k, match k with
                         | KMembersAdded => inl (JsError (js "timeout"))
                         | _ => inr []
                         end) (λ _, []) []) initial).1
    = [KGroupCreated; KMemberAdded].
Proof.
  destruct (startup_subscribes_until_first_failure
              (mkScript (λ k, match k with
                              | KMembersAdded => inl (JsError (js "timeout"))
                              | _ => inr []
                              end) (λ _, []) []) initial) as [Hfail _].
  apply (Hfail [KGroupCreated; KMemberAdded] KMembersAdded
           [KMemberRemoved; KMemberUpdated] (JsError (js "timeout")) eq_refl).
  - repeat constructor; by eexists.
  - reflexivity.
Defined.

(** The closure of a log updates mirror fields and then hands the events of
    [normalize] to the emitter. *)
Lemma handler_for_emits e st :
  ∃ stm, same_wait st stm ∧ emitted stm = emitted st
         ∧ handler_for (kind_of e) e st
           = foldl (λ s ev, emit ev s) stm (normalize e).
Proof.
  destruct e; simpl; try (eexists; split; [|split; [|reflexivity]]; done).
  destruct (add_batch_same_wait (BigInt_toString groupId) identityCommitments st)
    as (Hs & He & _).
  eexists. split; [|split; [|reflexivity]]; unfold saveMembers; simpl; [|done].
  eapply same_wait_trans; [exact Hs | done].
Qed.

Lemma emitted_foldl_emit evs st :
  emitted (foldl (λ s ev, emit ev s) st evs) = emitted st ++ evs.
Proof.
  revert st. induction evs as [|ev evs IH]; intros st; simpl.
  - by rewrite app_nil_r.
  - by rewrite IH, emitted_emit, <- app_assoc.
Qed.

Lemma emitted_handler_for e st :
  emitted (handler_for (kind_of e) e st) = emitted st ++ normalize e.
Proof.
  destruct (handler_for_emits e st) as (stm & _ & He & ->).
  by rewrite emitted_foldl_emit, He.
Qed.

(** X3. Handling a member log persists the mirror: after the closure of a
    [MemberAdded], [MembersAdded], [MemberRemoved] or [MemberUpdated] log,
    what is persisted is the bridge's in-memory mirror, whatever was
    persisted before. Handling [GroupCreated] leaves both untouched. *)
Theorem member_log_is_persisted e st :
  let st' := handler_for (kind_of e) e st in
  members st' = apply_to_mirror e (members st)
  ∧ (kind_of e ≠ KGroupCreated → disk st' = members st')
  ∧ (kind_of e = KGroupCreated → disk st' = disk st ∧ members st' = members st).
Proof.
  destruct e; simpl.
  - match goal with |- context [emit ?ev ?s] =>
      destruct (mirror_emit ev s) as (-> & -> & _) end. done.
  - match goal with |- context [emit ?ev ?s] =>
      destruct (mirror_emit ev s) as (-> & -> & _) end. done.
  - unfold saveMembers. simpl. by rewrite members_add_batch.
  - match goal with |- context [emit ?ev ?s] =>
      destruct (mirror_emit ev s) as (-> & -> & _) end. done.
  - match goal with |- context [emit ?ev ?s] =>
      destruct (mirror_emit ev s) as (-> & -> & _) end. done.
Qed.

(** What a sequence of steps of the bridge emits. *)
Lemma emitted_do_steps steps st :
  emitted (do_steps steps st)
  = emitted st ++ concat (normalize <$> handled_by (subscribed st) steps).
Proof.
  revert st. induction steps as [|s steps IH]; intros st.
  - by rewrite app_nil_r.
  - rewrite do_steps_cons, IH, subscribed_do_step.
    destruct s as [e|e|k|]; cbn [do_step handled_by attached omap list_omap];
      rewrite ?app_nil_r.
    + by rewrite emitted_handler_for, fmap_cons, concat_cons, app_assoc.
    + unfold deliver. case_decide; [|done].
      by rewrite emitted_handler_for, fmap_cons, concat_cons, app_assoc.
    + done.
    + done.
Qed.

(** X4. What the bridge emits through a start-up and the live logs after
    it, whatever the chain answers and delivers: for every log that
    reaches a closure, in the order in which the logs reach them, one
    event ([GroupCreated], [MemberAddedProcessed],
    [MemberRemovedProcessed], or [MemberUpdatedProcessed] with the new
    commitment), and nothing for a [MembersAdded] batch. The order is that
    of the replays and deliveries, not that of the chain. *)
Theorem run_emits_normalized_logs env es st :
  emitted (deliver_all es (startBlockchainListeners env st).1)
  = emitted st
    ++ concat (normalize
               <$> handled_by (subscribed st)
                     (startup_steps env ++ (LiveLog <$> es))).
Proof.
  rewrite startup_as_steps. cbn [fst].
  by rewrite deliver_all_steps, <- do_steps_app, emitted_do_steps.
Qed.

Lemma fulfilled_off name h st : fulfilled (off name h st) = fulfilled st.
Proof. unfold off. by destruct (listeners st !! name). Qed.

Lemma fulfilled_handler h g c st : fulfilled st ⊆ fulfilled (handler h g c st).
Proof.
  unfold handler. case_decide; [|done].
  match goal with |- context [if ?b then _ else _] => destruct b end; [|done].
  cbv zeta. simpl. rewrite !fulfilled_off. set_solver.
Qed.

Lemma fulfilled_emit ev st : fulfilled st ⊆ fulfilled (emit ev st).
Proof.
  unfold emit. cbv zeta.
  change (fulfilled st) with (fulfilled (set_emitted (emitted st ++ [ev]) st)) at 1.
  generalize (listeners_of (ev_name ev) (set_emitted (emitted st ++ [ev]) st)).
  generalize (set_emitted (emitted st ++ [ev]) st).
  intros s l. revert s. induction l as [|h l IH]; intros s; simpl; [done|].
  etrans; [apply fulfilled_handler | apply IH].
Qed.

Lemma fulfilled_handler_for k e st :
  fulfilled st ⊆ fulfilled (handler_for k e st).
Proof.
  destruct (handler_for_shape k e st)
    as (stm & (_ & _ & Hf & _) & _ & _ & [->|(ev & ->)]).
  - by rewrite Hf.
  - rewrite <- Hf. apply fulfilled_emit.
Qed.

Lemma fulfilled_do_step s st : fulfilled st ⊆ fulfilled (do_step s st).
Proof.
  destruct s as [e|e|k|]; cbn [do_step]; [| |done..].
  - apply fulfilled_handler_for.
  - unfold deliver. case_decide; [|done]. apply fulfilled_handler_for.
Qed.

Lemma fulfilled_do_steps steps st : fulfilled st ⊆ fulfilled (do_steps steps st).
Proof.
  revert st. induction steps as [|s steps IH]; intros st; [done|].
  rewrite do_steps_cons. etrans; [apply fulfilled_do_step | apply IH].
Qed.

(** X5. The bridge only ever resolves waits: through a whole start-up and
    any live logs after it, it creates no promise and attaches no listener,
    and a promise that was resolved stays resolved. *)
Theorem bridge_creates_no_wait env es st :
  let st' := deliver_all es (startBlockchainListeners env st).1 in
  no_new_wait st st' ∧ fulfilled st ⊆ fulfilled st'.
Proof.
  cbv zeta. rewrite startup_as_steps. cbn [fst].
  rewrite deliver_all_steps, <- do_steps_app.
  split; [apply do_steps_no_new_wait | apply fulfilled_do_steps].
Qed.

(** ** Decimal strings *)

Lemma js_inj s1 s2 : js s1 = js s2 → s1 = s2.
Proof.
  unfold js. intros H.
  apply (f_equal (fmap ascii_of_N)) in H.
  rewrite <- !list_fmap_compose in H.
  rewrite !(list_fmap_ext (ascii_of_N ∘ N_of_ascii) id) in H
    by (intros ? ? ?; apply ascii_N_embedding).
  rewrite !list_fmap_id in H.
  apply (f_equal string_of_list_ascii) in H.
  by rewrite !string_of_list_ascii_of_string in H.
Qed.

Lemma to_int_not_nil z :
  Z.to_int z ≠ Decimal.Pos Decimal.Nil ∧ Z.to_int z ≠ Decimal.Neg Decimal.Nil.
Proof.
  destruct z as [|p|p]; simpl; split; try discriminate;
    intros H; injection H as H; by apply DecimalPos.Unsigned.to_uint_nonnil in H.
Qed.

(** Two integers with the same decimal string are equal. *)
Lemma BigInt_toString_inj z1 z2 :
  BigInt_toString z1 = BigInt_toString z2 → z1 = z2.
Proof.
  unfold BigInt_toString. intros H%js_inj.
  apply (f_equal NilZero.int_of_string) in H.
  destruct (to_int_not_nil z1), (to_int_not_nil z2).
  rewrite !NilZero.isi in H by done.
  injection H as H. by apply DecimalZ.to_int_inj.
Qed.

(** ** Wait registrations *)

(** X6. In every state of a run the flag [isWaitingForMemberEvent] is up
    exactly when a handler is attached; there is then one handler, attached
    once to each of the three member events and to no other event, and its
    promise is unresolved. So at most one wait registration exists at any
    time. *)
Theorem flag_up_iff_one_registration st :
  reachable st →
  (isWaitingForMemberEvent st = true
   ↔ ∃ h, listeners_of MemberAddedProcessed st = [h])
  ∧ ∀ name h,
      h ∈ listeners_of name st →
      name ∈ member_event_names
      ∧ isWaitingForMemberEvent st = true
      ∧ (promiseId h ∉ fulfilled st)
      ∧ ∀ name', listeners_of name' st
                 = if decide (name' ∈ member_event_names) then [h] else [].
Proof.
  intros Hr.
  destruct (reachable_wait_inv st Hr) as [[[Hflag Hl]|(h & Hp & _)] _].
  - split.
    + rewrite Hflag. split; [done|]. intros (h & Hh). by rewrite Hl in Hh.
    + intros name h Hin. rewrite Hl in Hin. by apply elem_of_nil in Hin.
  - pose proof Hp as (Hflag & Hl & Hfresh). split.
    + rewrite Hflag. split; [|done]. intros _. exists h. rewrite Hl.
      rewrite decide_True; [done|]. apply member_event_names_elem. auto.
    + intros name h' Hin. rewrite Hl in Hin.
      case_decide as Hn; [|by apply elem_of_nil in Hin].
      apply list_elem_of_singleton in Hin as ->. done.
Qed.

Lemma flag_up_iff_one_registration_witness :
  reachable (waitForMemberEvent (js "7") (Some 123) initial).2
  ∧ (isWaitingForMemberEvent (waitForMemberEvent (js "7") (Some 123) initial).2
     = true
     ↔ ∃ h, listeners_of MemberAddedProcessed
              (waitForMemberEvent (js "7") (Some 123) initial).2 = [h]).
Proof.
  assert (Hr : reachable (waitForMemberEvent (js "7") (Some 123) initial).2).
  { apply reach_wait, reach_initial. }
  split; [exact Hr|].
  exact (proj1 (flag_up_iff_one_registration _ Hr)).
Defined.

(** X7. When an event resolves the pending wait, its handler is detached
    from all three member events and the flag goes down; the next request
    to wait is then registered with a new promise, which is unresolved,
    while the promise of the first wait stays resolved. *)
Theorem wait_after_resolution_is_fresh st h ev groupId identityCommitment :
  reachable st →
  pending h st →
  ev_name ev ∈ member_event_names →
  wants h (ev_groupId ev) (ev_commitment ev) →
  let st1 := emit ev st in
  let p := (waitForMemberEvent groupId identityCommitment st1).1 in
  let st2 := (waitForMemberEvent groupId identityCommitment st1).2 in
  idle st1
  ∧ p = Created (nextPromise st)
  ∧ p ≠ Created (promiseId h)
  ∧ settled p st2 = false
  ∧ settled (Created (promiseId h)) st2 = true
  ∧ pending (mkListener (nextPromise st) groupId identityCommitment) st2.
Proof.
  intros Hr Hp Hn Hw st1 p st2.
  destruct (emit_pending_hit h ev st Hp Hn Hw)
    as (Hidle & Hf & _ & _ & _ & _ & Hnext & _). fold st1 in Hidle, Hf, Hnext.
  assert (Hlt1 : ∀ i, i ∈ fulfilled st1 → (i < nextPromise st1)%nat).
  { apply emit_wait_inv. by apply reachable_wait_inv. }
  destruct (waitForMemberEvent_registers groupId identityCommitment st1 Hidle Hlt1)
    as (Hp1 & Hpend & _ & Hf2 & _). fold p in Hp1. fold st2 in Hpend, Hf2.
  rewrite Hnext in Hp1, Hpend.
  assert (Hh : promiseId h ∈ fulfilled st1).
  { rewrite Hf. apply elem_of_union_l, elem_of_singleton. done. }
  split; [done|]. split; [done|]. split.
  - rewrite Hp1. intros [= Heq]. apply Hlt1 in Hh. rewrite Hnext in Hh. lia.
  - split; [rewrite Hp1; by apply (pending_unsettled _ _ Hpend)|].
    split; [|done]. simpl. apply bool_decide_eq_true_2. by rewrite Hf2.
Qed.

Lemma wait_after_resolution_is_fresh_witness :
  (waitForMemberEvent (js "8") (Some 5)
     (emit (mkEvent MemberAddedProcessed (js "7") (Some (js "123")))
        (waitForMemberEvent (js "7") (Some 123) initial).2)).1
  = Created 1.
Proof.
  assert (Hr : reachable (waitForMemberEvent (js "7") (Some 123) initial).2).
  { apply reach_wait, reach_initial. }
  assert (Hi : idle initial).
  { split; [done|]. intros n. unfold listeners_of. simpl. by rewrite lookup_empty. }
  assert (Hlt : ∀ i, i ∈ fulfilled initial → (i < nextPromise initial)%nat).
  { intros i Hin. simpl in Hin. by apply elem_of_empty in Hin. }
  destruct (waitForMemberEvent_registers (js "7") (Some 123) initial Hi Hlt)
    as (_ & Hp & _).
  assert (Hn : MemberAddedProcessed ∈ member_event_names).
  { apply member_event_names_elem. auto. }
  assert (Hw : wants (mkListener 0 (js "7") (Some 123)) (js "7")
                 (Some (js "123"))).
  { split; [done|]. by right. }
  exact (proj1 (proj2 (wait_after_resolution_is_fresh _ _
                  (mkEvent MemberAddedProcessed (js "7") (Some (js "123")))
                  (js "8") (Some 5) Hr Hp Hn Hw))).
Defined.

(** X8. A wait registered without a commitment, or with the commitment 0,
    is resolved by the next member event of its group, whatever commitment
    the event carries, and by no event of another group. *)
Theorem wait_without_commitment_follows_group st h ev :
  pending h st →
  l_identityCommitment h = None ∨ l_identityCommitment h = Some 0 →
  ev_name ev ∈ member_event_names →
  settled (Created (promiseId h)) (emit ev st) = true
  ↔ ev_groupId ev = l_groupId h.
Proof.
  intros Hp Hc Hn. split.
  - intros Hs. destruct (decide (ev_groupId ev = l_groupId h)) as [|Hne]; [done|].
    rewrite (emit_pending_miss h ev st Hp) in Hs.
    + rewrite (pending_unsettled h) in Hs; [done|]. by apply pending_set_emitted.
    + intros [_ [Hg _]]. done.
  - intros Hg.
    assert (Hw : wants h (ev_groupId ev) (ev_commitment ev)).
    { split; [done|]. destruct Hc as [-> | ->]; [done | by left]. }
    destruct (emit_pending_hit h ev st Hp Hn Hw) as (_ & Hf & _).
    simpl. apply bool_decide_eq_true_2. rewrite Hf.
    apply elem_of_union_l, elem_of_singleton. done.
Qed.

Lemma wait_without_commitment_follows_group_witness :
  settled (Created 0)
    (emit (mkEvent MemberRemovedProcessed (js "7") (Some (js "999")))
       (waitForMemberEvent (js "7") None initial).2) = true.
Proof.
  assert (Hi : idle initial).
  { split; [done|]. intros n. unfold listeners_of. simpl. by rewrite lookup_empty. }
  assert (Hlt : ∀ i, i ∈ fulfilled initial → (i < nextPromise initial)%nat).
  { intros i Hin. simpl in Hin. by apply elem_of_empty in Hin. }
  destruct (waitForMemberEvent_registers (js "7") None initial Hi Hlt)
    as (_ & Hp & _).
  assert (Hn : MemberRemovedProcessed ∈ member_event_names).
  { apply member_event_names_elem. auto. }
  apply (wait_without_commitment_follows_group _ _
           (mkEvent MemberRemovedProcessed (js "7") (Some (js "999")))
           Hp (or_introl eq_refl) Hn).
  reflexivity.
Defined.

(** X9. How the bridge and a wait meet: with the wait for group G and the
    non-zero commitment C pending, handling a live log resolves it exactly
    when the log is a [MemberAdded] or [MemberRemoved] of G and C, or a
    [MemberUpdated] of G whose new commitment is C. Groups and commitments
    are compared as integers, although the code compares their decimal
    strings. *)
Theorem member_log_resolves_wait_iff_same_key st h G C e :
  pending h st →
  l_groupId h = BigInt_toString G →
  l_identityCommitment h = Some C →
  C ≠ 0 →
  kind_of e ∈ subscribed st →
  settled (Created (promiseId h)) (deliver e st) = true
  ↔ match e with
    | MemberAdded g _ c | MemberRemoved g _ c => g = G ∧ c = C
    | MemberUpdated g _ _ new => g = G ∧ new = C
    | _ => False
    end.
Proof.
  intros Hp Hg Hc Hz Hsub. unfold deliver. rewrite decide_True by done.
  destruct (handler_for_emits e st) as (stm & Hs & _ & ->).
  pose proof (same_wait_pending h st stm Hs Hp) as Hpm.
  assert (Hone : ∀ ev,
    settled (Created (promiseId h)) (emit ev stm) = true
    ↔ hits (BigInt_toString G) C ev).
  { intros ev. split.
    - intros Hset. destruct (decide (hits (BigInt_toString G) C ev)); [done|].
      rewrite (emit_pending_miss h ev stm Hpm) in Hset.
      + rewrite (pending_unsettled h) in Hset; [done|].
        by apply pending_set_emitted.
      + by rewrite <- (hits_wants h (BigInt_toString G) C ev).
    - intros Hhit. apply (hits_wants h (BigInt_toString G) C ev) in Hhit
        as [Hn Hw]; [|done..].
      destruct (emit_pending_hit h ev stm Hpm Hn Hw) as (_ & Hf & _).
      simpl. apply bool_decide_eq_true_2. rewrite Hf.
      apply elem_of_union_l, elem_of_singleton. done. }
  destruct e; cbn [normalize foldl].
  - rewrite Hone. unfold hits. simpl. split; [intros (_ & _ & ?); done | done].
  - rewrite Hone. unfold hits. simpl. split.
    + intros (_ & Hg' & Hc'). injection Hc' as Hc'.
      split; by apply BigInt_toString_inj.
    + intros [-> ->]. split; [apply member_event_names_elem; auto | done].
  - rewrite (pending_unsettled h stm Hpm). done.
  - rewrite Hone. unfold hits. simpl. split.
    + intros (_ & Hg' & Hc'). injection Hc' as Hc'.
      split; by apply BigInt_toString_inj.
    + intros [-> ->]. split; [apply member_event_names_elem; auto | done].
  - rewrite Hone. unfold hits. simpl. split.
    + intros (_ & Hg' & Hc'). injection Hc' as Hc'.
      split; by apply BigInt_toString_inj.
    + intros [-> ->]. split; [apply member_event_names_elem; auto | done].
Qed.

Lemma member_log_resolves_wait_iff_same_key_witness :
  settled (Created 0)
    (deliver (MemberUpdated 7 0 55 123)
       (waitForMemberEvent (js "7") (Some 123) Examples.listening).2) = true.
Proof.
  assert (Hi : idle Examples.listening).
  { split; [done|]. intros n. unfold listeners_of. simpl. by rewrite lookup_empty. }
  assert (Hlt : ∀ i, i ∈ fulfilled Examples.listening
                     → (i < nextPromise Examples.listening)%nat).
  { intros i Hin. simpl in Hin. by apply elem_of_empty in Hin. }
  destruct (waitForMemberEvent_registers (js "7") (Some 123) Examples.listening
              Hi Hlt) as (_ & Hp & _).
  assert (Hz : 123 ≠ 0) by lia.
  assert (Hsub : kind_of (MemberUpdated 7 0 55 123)
                 ∈ subscribed
                     (waitForMemberEvent (js "7") (Some 123) Examples.listening).2).
  { vm_compute. do 4 right. left. }
  apply (member_log_resolves_wait_iff_same_key _ _ 7 123
           (MemberUpdated 7 0 55 123) Hp eq_refl eq_refl Hz Hsub).
  split; reflexivity.
Defined.

(** ** The coordinator *)

(** X10. When the chain query [hasMember] fails, [isAlreadyMember] prints
    the error and throws it again, and [main] ends with it: no add-member
    request has been posted, no wait registered, no proof requested. *)
Theorem chain_query_failure_stops_main w groupId identity commitment error st :
  credentials w = inr (identity, commitment) →
  hasMember w groupId commitment = inl error →
  isAlreadyMember w groupId commitment st
  = ([CallHasMember groupId commitment;
      ConsoleError (js "Error verifying member:") (WholeError (inl error))],
     st, Threw error)
  ∧ main w groupId st
    = ([ConsoleLog (nl :: js "9. Sending a request to join a group to the server");
        CallHasMember groupId commitment;
        ConsoleError (js "Error verifying member:") (WholeError (inl error))],
       do_steps (bridge_before w) st, Threw error).
Proof.
  intros Hcred Hmem.
  assert (His : ∀ s, isAlreadyMember w groupId commitment s
    = ([CallHasMember groupId commitment;
        ConsoleError (js "Error verifying member:") (WholeError (inl error))],
       s, Threw error)).
  { intros s. unfold isAlreadyMember. by rewrite Hmem, bind_tell, bind_tell. }
  split; [apply His|].
  unfold main, prepare_identity. rewrite Hcred, bind_ret. cbn [fst snd].
  rewrite bind_tell, bind_modify.
  by rewrite (bind_threw _ _ _ _ _ _ (His _)).
Qed.

Lemma chain_query_failure_stops_main_witness :
  (main (mkWorld None (inr (Examples.identity0, 123))
           (λ _ _, inl (JsError (js "could not detect network")))
           (λ _ _, None) (λ _ _ _ _ _, inr Examples.proof0)
           Examples.decimal_group [] [])
     (js "7") initial).2
  = Threw (JsError (js "could not detect network")).
Proof.
  destruct (chain_query_failure_stops_main
              (mkWorld None (inr (Examples.identity0, 123))
                 (λ _ _, inl (JsError (js "could not detect network")))
                 (λ _ _, None) (λ _ _ _ _ _, inr Examples.proof0)
                 Examples.decimal_group [] [])
              (js "7") Examples.identity0 123
              (JsError (js "could not detect network")) initial eq_refl eq_refl)
    as [_ Hmain].
  by rewrite Hmain.
Defined.

Lemma posted_urls_app t1 t2 :
  posted_urls (t1 ++ t2) = posted_urls t1 ++ posted_urls t2.
Proof. unfold posted_urls. apply omap_app. Qed.

Lemma within_ret {A} (a : A) : posts_within [] (ret a).
Proof. by intros st. Qed.

Lemma within_throw {A} e : posts_within [] (@throw A e).
Proof. by intros st. Qed.

Lemma within_modify f : posts_within [] (modify f).
Proof. by intros st. Qed.

Lemma within_lift {A} (f : state → A * state) : posts_within [] (lift f).
Proof. intros st. unfold lift. by destruct (f st). Qed.

Lemma within_tell ef :
  (∀ url body, ef ≠ HttpPost url body) → posts_within [] (tell ef).
Proof. intros H st. simpl. destruct ef; try done. by destruct (H url body). Qed.

Lemma within_post url body : posts_within [url] (tell (HttpPost url body)).
Proof. by intros st. Qed.

Lemma within_bind {A B} l1 l2 (m : M A) (k : A → M B) :
  posts_within l1 m → (∀ a, posts_within l2 (k a)) →
  posts_within (l1 ++ l2) (bind m k).
Proof.
  intros Hm Hk st. unfold bind. specialize (Hm st).
  destruct (m st) as [[t st'] [a| |]]; simpl in *.
  - specialize (Hk a st'). destruct (k a st') as [[t' st''] r]; simpl in *.
    rewrite posted_urls_app. by apply sublist_app.
  - by apply sublist_inserts_r.
  - by apply sublist_inserts_r.
Qed.

Lemma within_post_then w url body ok failed :
  posts_within [] ok → (∀ err, posts_within [] (failed err)) →
  posts_within [url] (post_then w url body ok failed).
Proof.
  intros Hok Hfailed. unfold post_then.
  apply (within_bind [url] []); [apply within_post|].
  intros _. by destruct (axios_post w url body).
Qed.

Lemma within_call_generateProof w identity group index message scope :
  posts_within [] (call_generateProof w identity group index message scope).
Proof.
  unfold call_generateProof. apply (within_bind [] []); [by apply within_tell|].
  intros _. destruct (generateProof w _ _ _ _ _);
    [apply within_throw | apply within_ret].
Qed.

Lemma within_sendJoinProof w groupId group identity commitment :
  posts_within [join_url w groupId]
    (sendJoinProof w groupId group identity commitment).
Proof.
  unfold sendJoinProof. case_match.
  - intros st. simpl. apply sublist_nil_l.
  - apply (within_bind [] [join_url w groupId]);
      [apply within_call_generateProof|].
    intros proof. apply within_post_then; [by apply within_tell|].
    intros err. by apply within_tell.
Qed.

Lemma within_sendModTrainProof w groupId group identity commitment scope deltaw :
  posts_within [modtrain_url w groupId]
    (sendModTrainProof w groupId group identity commitment scope deltaw).
Proof.
  unfold sendModTrainProof. case_match; [intros st; simpl; apply sublist_nil_l|].
  destruct (map_items deltaw); [intros st; simpl; apply sublist_nil_l|].
  apply (within_bind [] [modtrain_url w groupId]);
    [apply within_call_generateProof|].
  intros proof. apply within_post_then; [by apply within_tell|].
  intros err. by apply within_tell.
Qed.

Lemma within_main_proofs w groupId identity commitment steps :
  posts_within [join_url w groupId; modtrain_url w groupId]
    (main_proofs w groupId identity commitment steps).
Proof.
  unfold main_proofs.
  apply (within_bind [] [join_url w groupId; modtrain_url w groupId]).
  { unfold loadMembers. apply (within_bind [] []); [by apply within_tell|].
    intros _. apply (within_bind [] []); [apply within_modify|].
    intros _. apply within_lift. }
  intros members.
  apply (within_bind [] [join_url w groupId; modtrain_url w groupId]);
    [by apply within_tell|]. intros _.
  apply (within_bind [] [join_url w groupId; modtrain_url w groupId]).
  { unfold Group_new. destruct (new_Group w _);
      [apply within_throw | apply within_ret]. }
  intros group.
  apply (within_bind [] [join_url w groupId; modtrain_url w groupId]);
    [by apply within_tell|]. intros _.
  apply (within_bind [join_url w groupId] [modtrain_url w groupId]);
    [apply within_sendJoinProof|]. intros _.
  apply (within_bind [] [modtrain_url w groupId]); [by apply within_tell|].
  intros _. apply within_sendModTrainProof.
Qed.

(** X11. Whatever the world answers, [main] posts at most three requests,
    each at most once and in this order: the add-member request, the join
    proof, the model-update proof. Nothing is posted twice and nothing is
    retried. *)
Theorem main_posts_in_order w groupId st :
  posted_urls (main w groupId st).1.1
  `sublist_of` [add_member_url w; join_url w groupId; modtrain_url w groupId].
Proof.
  revert st. change (posts_within
    [add_member_url w; join_url w groupId; modtrain_url w groupId]
    (main w groupId)).
  unfold main.
  apply (within_bind [] [add_member_url w; join_url w groupId; modtrain_url w groupId]).
  { unfold prepare_identity. destruct (credentials w);
      [apply within_throw | apply within_ret]. }
  intros ic.
  apply (within_bind [] [add_member_url w; join_url w groupId; modtrain_url w groupId]);
    [by apply within_tell|]. intros _.
  apply (within_bind [] [add_member_url w; join_url w groupId; modtrain_url w groupId]);
    [apply within_modify|]. intros _.
  apply (within_bind [] [add_member_url w; join_url w groupId; modtrain_url w groupId]).
  { unfold isAlreadyMember. apply (within_bind [] []); [by apply within_tell|].
    intros _. destruct (hasMember w _ _); [|apply within_ret].
    apply (within_bind [] []); [by apply within_tell | intros _; apply within_throw]. }
  intros alreadyMember.
  apply (within_bind [add_member_url w] [join_url w groupId; modtrain_url w groupId]);
    [|intros steps; apply within_main_proofs].
  destruct alreadyMember; cbn [negb].
  - intros st. rewrite bind_tell, (surjective_pairing (ret _ _)). simpl.
    apply sublist_nil_l.
  - apply (within_bind [add_member_url w] []).
    { unfold Client.addMember. apply within_post_then; [by apply within_tell|].
      intros err. by apply within_tell. }
    intros _. apply (within_bind [] []); [by apply within_tell|]. intros _.
    apply (within_bind [] []); [apply within_lift|]. intros p.
    intros st. unfold await. destruct p; simpl; try done.
    by destruct (await_created _ _ _) as [? [?|]].
Qed.

Lemma item_toString_rejection item :
  supported item = false → item_toString item = inl (rejection_of item).
Proof.
  destruct item as [z|n|s|z|]; simpl; try done. by intros ->.
Qed.

(** X12. The values are examined in order and the first unsupported one
    decides the error: "Unsafe number in deltaw" when it is a number,
    "Unsupported deltaw element type" otherwise, whatever comes after it.
    With the commitment in the group, this is the error the call ends
    with, before any proof request or post. *)
Theorem first_unsupported_item_decides_error
    w groupId (group : Group) identity commitment scope pre bad post st :
  Forall (λ item, supported item = true) pre →
  supported bad = false →
  map_items (pre ++ bad :: post) = inl (rejection_of bad)
  ∧ (commitment ∈ group →
     sendModTrainProof w groupId group identity commitment scope
       (pre ++ bad :: post) st
     = ([], st, Threw (rejection_of bad))).
Proof.
  intros Hpre Hbad.
  assert (Hmap : map_items (pre ++ bad :: post) = inl (rejection_of bad)).
  { induction Hpre as [|item pre Hitem _ IH]; simpl.
    - by rewrite item_toString_rejection.
    - by rewrite item_toString_supported, IH. }
  split; [exact Hmap|]. intros Hin. unfold sendModTrainProof.
  by rewrite (Group_indexOf_present _ _ Hin), Hmap.
Qed.

Lemma first_unsupported_item_decides_error_witness :
  map_items ([ItemBigInt 1] ++ ItemOther :: [ItemNumber NumNonInteger])
  = inl (JsError (js "Unsupported deltaw element type")).
Proof.
  assert (Hpre : Forall (λ item, supported item = true) [ItemBigInt 1]).
  { repeat constructor. }
  exact (proj1 (first_unsupported_item_decides_error Examples.friendly (js "7")
                  [5; 123] Examples.identity0 123 (js "round-1")
                  [ItemBigInt 1] ItemOther [ItemNumber NumNonInteger] initial
                  Hpre eq_refl)).
Defined.

Lemma map_items_inr deltaw ss :
  map_items deltaw = inr ss →
  Forall (λ item, supported item = true) deltaw ∧ ss = canonical <$> deltaw.
Proof.
  revert ss. induction deltaw as [|item rest IH]; intros ss; simpl.
  - intros [= <-]. by split.
  - destruct (supported item) eqn:Hs.
    + rewrite item_toString_supported by done.
      destruct (map_items rest) as [e|ss'] eqn:Hrest; [done|].
      intros [= <-]. destruct (IH ss' eq_refl) as [Hall ->].
      split; [by constructor | done].
    + by rewrite item_toString_rejection.
Qed.

(** X13. Nothing is posted without a proof: every request in the trace of
    [sendJoinProof] or [sendModTrainProof] goes to the endpoint of its
    group and carries the proof that [generateProof] returned for this
    call, with that proof's nullifier; it occurs only if the commitment is
    in the group and, for the model update, every value is supported. *)
Theorem posted_proof_was_generated
    w groupId (group : Group) identity commitment scope deltaw st url body :
  (HttpPost url body ∈ (sendJoinProof w groupId group identity commitment st).1.1 →
   commitment ∈ group
   ∧ url = join_url w groupId
   ∧ ∃ proof,
       generateProof w identity group (Group_indexOf group commitment)
         (MsgString (join_message commitment)) (join_scope groupId) = inr proof
       ∧ body = join_body commitment proof groupId)
  ∧ (HttpPost url body
       ∈ (sendModTrainProof w groupId group identity commitment scope deltaw st).1.1 →
     commitment ∈ group
     ∧ Forall (λ item, supported item = true) deltaw
     ∧ url = modtrain_url w groupId
     ∧ ∃ proof,
         generateProof w identity group (Group_indexOf group commitment)
           (MsgBytes (proof_message deltaw)) scope = inr proof
         ∧ body = modtrain_body proof (proof_message deltaw) scope).
Proof.
  split.
  - unfold sendJoinProof.
    destruct (decide (commitment ∈ group)) as [Hin|Habs].
    + rewrite (Group_indexOf_present _ _ Hin), String_slice_0_8.
      fold (join_message commitment). fold (join_scope groupId).
      unfold call_generateProof. rewrite bind_assoc, bind_tell.
      destruct (generateProof w _ _ _ _ _) as [e|proof] eqn:Hgen.
      * rewrite bind_throw. cbn [fst]. rewrite !elem_of_cons, elem_of_nil.
        intros [[=]|[]].
      * rewrite bind_ret. unfold post_then. rewrite bind_tell. cbn [fst].
        fold (join_body commitment proof groupId).
        destruct (axios_post w _ _); cbn [tell fst];
          rewrite !elem_of_cons, elem_of_nil;
          intros [[=]|[[= -> ->]|[[=]|[]]]]; eauto.
    + apply Group_indexOf_minus_one in Habs. rewrite Habs. simpl.
      by intros ?%elem_of_nil.
  - unfold sendModTrainProof.
    destruct (decide (commitment ∈ group)) as [Hin|Habs].
    + rewrite (Group_indexOf_present _ _ Hin).
      destruct (map_items deltaw) as [e|ss] eqn:Hmap;
        [simpl; by intros ?%elem_of_nil|].
      destruct (map_items_inr deltaw ss Hmap) as [Hall ->].
      fold (proof_message deltaw).
      unfold call_generateProof. rewrite bind_assoc, bind_tell.
      destruct (generateProof w _ _ _ _ _) as [e|proof] eqn:Hgen.
      * rewrite bind_throw. cbn [fst]. rewrite !elem_of_cons, elem_of_nil.
        intros [[=]|[]].
      * rewrite bind_ret. unfold post_then. rewrite bind_tell. cbn [fst].
        fold (modtrain_body proof (proof_message deltaw) scope).
        destruct (axios_post w _ _); cbn [tell fst];
          rewrite !elem_of_cons, elem_of_nil;
          intros [[=]|[[= -> ->]|[[=]|[]]]]; eauto 10.
    + apply Group_indexOf_minus_one in Habs. rewrite Habs. simpl.
      by intros ?%elem_of_nil.
Qed.

Lemma posted_proof_was_generated_witness :
  (123 : Z) ∈ ([5; 123] : Group)
  ∧ ∃ proof,
      generateProof Examples.friendly Examples.identity0 [5; 123]
        (Group_indexOf [5; 123] 123)
        (MsgString (join_message 123)) (join_scope (js "7")) = inr proof
      ∧ join_body 123 Examples.proof0 (js "7") = join_body 123 proof (js "7").
Proof.
  destruct (posted_proof_was_generated Examples.friendly (js "7") [5; 123]
              Examples.identity0 123 (js "round-1") [] initial
              (join_url Examples.friendly (js "7"))
              (join_body 123 Examples.proof0 (js "7"))) as [Hjoin _].
  destruct Hjoin as (Hin & _ & proof & Hgen & Hbody).
  - vm_compute. right. left.
  - split; [exact Hin|]. exists proof. split; [exact Hgen | exact Hbody].
Defined.

(** ** The message of integer values *)

Lemma plain_not_surrogate c :
  (c < 128)%N → is_lead_surrogate c = false ∧ is_trail_surrogate c = false.
Proof.
  intros Hc. unfold is_lead_surrogate, is_trail_surrogate.
  split; apply andb_false_iff; left; apply N.leb_gt; lia.
Qed.

Lemma quote_unit_plain c : plain c → quote_unit c = [c].
Proof.
  intros (H32 & H128 & H34 & H92). unfold quote_unit.
  destruct (plain_not_surrogate c H128) as [-> ->].
  repeat match goal with
         | |- context [(c =? ?n)%N] =>
             destruct (N.eqb_spec c n); [lia|]
         end.
  destruct (N.ltb_spec c 32); [lia | done].
Qed.

Lemma quote_units_plain s : Forall plain s → quote_units s = s.
Proof.
  induction 1 as [|c s Hc Hs IH]; [done|].
  destruct s as [|d s'].
  - by apply quote_unit_plain.
  - cbn [quote_units] in *.
    destruct Hc as (H32 & H128 & H34 & H92).
    destruct (plain_not_surrogate c H128) as [-> _]. cbn [andb].
    rewrite quote_unit_plain by done. cbn [app]. f_equal. exact IH.
Qed.

Lemma utf8_code_point_ascii c : (c < 128)%N → utf8_code_point c = [c].
Proof. intros Hc. unfold utf8_code_point. by destruct (N.ltb_spec c 128); [|lia]. Qed.

Lemma TextEncoder_encode_ascii s :
  Forall (λ c, c < 128)%N s → TextEncoder_encode s = s.
Proof.
  induction 1 as [|c s Hc Hs IH]; [done|].
  destruct (plain_not_surrogate c Hc) as [Hl Ht].
  destruct s as [|d s'].
  - cbn [TextEncoder_encode]. rewrite Hl, Ht. by apply utf8_code_point_ascii.
  - cbn [TextEncoder_encode] in *. rewrite Hl, Ht. cbn [andb orb].
    rewrite utf8_code_point_ascii by done. cbn [app]. f_equal. exact IH.
Qed.

Lemma digits_plain d : Forall plain (js (NilEmpty.string_of_uint d)).
Proof.
  induction d; cbn [NilEmpty.string_of_uint]; unfold js in *;
    cbn [list_ascii_of_string fmap list_fmap]; try constructor; try exact IHd;
    vm_compute; repeat split; discriminate.
Qed.

(** The decimal string of an integer is made of digits and a minus sign. *)
Lemma BigInt_toString_plain z : Forall plain (BigInt_toString z).
Proof.
  assert (Hu : ∀ u, Forall plain (js (NilZero.string_of_uint u))).
  { intros u. pose proof (digits_plain u) as H. destruct u; try exact H.
    repeat constructor; vm_compute; repeat split; discriminate. }
  unfold BigInt_toString. destruct (Z.to_int z) as [u|u]; cbn [NilZero.string_of_int].
  - apply Hu.
  - change (js (String "-" (NilZero.string_of_uint u)))
      with (45%N :: js (NilZero.string_of_uint u)).
    constructor; [|apply Hu]. vm_compute. repeat split; discriminate.
Qed.

Lemma plain_ascii s : Forall plain s → Forall (λ c, c < 128)%N s.
Proof.
  intros H. eapply Forall_impl; [exact H|]. by intros c (_ & ? & _).
Qed.

Lemma join_comma_ascii parts :
  Forall (Forall (λ c, c < 128)%N) parts →
  Forall (λ c, c < 128)%N (join_comma parts).
Proof.
  induction 1 as [|p ps Hp Hps IH]; [constructor|].
  destruct ps as [|q ps]; [exact Hp|].
  change (join_comma (p :: q :: ps)) with (p ++ [44%N] ++ join_comma (q :: ps)).
  apply Forall_app. split; [exact Hp|]. apply Forall_app. split; [|exact IH].
  by repeat constructor.
Qed.

Lemma json_of_integers_ascii zs :
  Forall (λ c, c < 128)%N (json_of_integers zs).
Proof.
  unfold json_of_integers. apply Forall_app. split; [by repeat constructor|].
  apply Forall_app. split; [|by repeat constructor].
  apply join_comma_ascii. apply Forall_fmap, Forall_forall. intros z _. simpl.
  constructor; [done|]. apply Forall_app. split; [|by repeat constructor].
  apply plain_ascii, BigInt_toString_plain.
Qed.

Lemma JSON_stringify_integers zs :
  JSON_stringify (BigInt_toString <$> zs) = json_of_integers zs.
Proof.
  unfold JSON_stringify, json_of_integers. rewrite <- list_fmap_compose.
  rewrite (list_fmap_ext (QuoteJSONString ∘ BigInt_toString)
             (λ z, [34%N] ++ BigInt_toString z ++ [34%N])); [done|].
  intros i z _. simpl. unfold QuoteJSONString.
  by rewrite quote_units_plain by apply BigInt_toString_plain.
Qed.

Lemma integers_canonical deltaw zs :
  Forall2 (λ item z, integer_of item = Some z) deltaw zs →
  Forall (λ item, supported item = true) deltaw
  ∧ canonical <$> deltaw = BigInt_toString <$> zs.
Proof.
  induction 1 as [|item z deltaw zs Hitem _ [IHs IHc]]; [done|].
  assert (supported item = true ∧ canonical item = BigInt_toString z) as [Hs Hc].
  { destruct item as [z'|[z'|]|s|z'|]; simpl in Hitem; try done.
    - by injection Hitem as ->.
    - destruct (Z.abs z' <=? MAX_SAFE_INTEGER) eqn:Hsafe; [|done].
      injection Hitem as ->. done. }
  split; [by constructor|]. rewrite !fmap_cons. by rewrite Hc, IHc.
Qed.

(** X14. When every value is a bigint or a safe-integer number, the
    message of the model-update proof is plain ASCII: an opening bracket,
    the decimal numerals in input order, each between double quotes and
    separated by commas, and a closing bracket, one byte per character and
    without any escape. With the commitment in the group, this is the
    message [generateProof] is called with. *)
Theorem integer_message_is_plain_json
    w groupId (group : Group) identity commitment scope deltaw zs st :
  Forall2 (λ item z, integer_of item = Some z) deltaw zs →
  map_items deltaw = inr (BigInt_toString <$> zs)
  ∧ TextEncoder_encode (JSON_stringify (BigInt_toString <$> zs))
    = json_of_integers zs
  ∧ (commitment ∈ group →
     ∃ t r,
       sendModTrainProof w groupId group identity commitment scope deltaw st
       = (CallGenerateProof identity group (Group_indexOf group commitment)
            (MsgBytes (json_of_integers zs)) scope :: t, st, r)).
Proof.
  intros Hint. destruct (integers_canonical deltaw zs Hint) as [Hs Hc].
  assert (Hmap : map_items deltaw = inr (BigInt_toString <$> zs)).
  { by rewrite (map_items_supported _ Hs), Hc. }
  assert (Henc : TextEncoder_encode (JSON_stringify (BigInt_toString <$> zs))
                 = json_of_integers zs).
  { rewrite JSON_stringify_integers.
    apply TextEncoder_encode_ascii, json_of_integers_ascii. }
  split; [exact Hmap|]. split; [exact Henc|]. intros Hin.
  unfold sendModTrainProof. rewrite (Group_indexOf_present _ _ Hin), Hmap, Henc.
  unfold bind, call_generateProof, post_then, tell, throw, ret.
  destruct (generateProof w _ _ _ _ _) as [e|proof]; simpl; [eauto|].
  destruct (axios_post w _ _); simpl; eauto.
Qed.

Lemma integer_message_is_plain_json_witness :
  TextEncoder_encode (JSON_stringify (BigInt_toString <$> [1; -20; 300]))
  = json_of_integers [1; -20; 300].
Proof.
  assert (H : Forall2 (λ item z, integer_of item = Some z)
                [ItemBigInt 1; ItemNumber (NumInt (-20)); ItemBigInt 300]
                [1; -20; 300]).
  { repeat constructor. }
  exact (proj1 (proj2 (integer_message_is_plain_json Examples.friendly (js "7")
                  [5; 123] Examples.identity0 123 (js "round-1") _ _ initial H))).
Defined.

(** ** Waiting in [main] *)

Lemma pending_foldl_emit_cases h g c evs st :
  l_groupId h = g → l_identityCommitment h = Some c → c ≠ 0 →
  pending h st →
  (Exists (hits g c) evs →
   promiseId h ∈ fulfilled (foldl (λ s ev, emit ev s) st evs))
  ∧ (¬ Exists (hits g c) evs →
     pending h (foldl (λ s ev, emit ev s) st evs)).
Proof.
  intros Hg Hc Hz. revert st. induction evs as [|ev evs IH]; intros st Hp.
  - split; [by intros ?%Exists_nil | done].
  - simpl. destruct (decide (hits g c ev)) as [Hhit|Hmiss].
    + split; [intros _|intros []; by left].
      apply (hits_wants h g c ev) in Hhit as [Hn Hw]; [|done..].
      destruct (emit_pending_hit h ev st Hp Hn Hw) as (_ & Hf & _).
      assert (Hin : promiseId h ∈ fulfilled (emit ev st)).
      { rewrite Hf. apply elem_of_union_l, elem_of_singleton. done. }
      revert Hin. generalize (emit ev st). clear.
      induction evs as [|ev' evs IH]; intros s Hin; simpl; [done|].
      apply IH. by apply fulfilled_emit.
    + assert (Hp' : pending h (emit ev st)).
      { rewrite (emit_pending_miss h ev st Hp).
        - by apply pending_set_emitted.
        - by rewrite <- (hits_wants h g c ev). }
      destruct (IH _ Hp') as [IHhit IHmiss]. split.
      * intros [?|?]%Exists_cons; [done | auto].
      * intros Hno. apply IHmiss. intros ?. apply Hno. by right.
Qed.

(** A step of the bridge either resolves the pending wait, when it hands a
    closure a log that announces the key, or leaves it pending. *)
Lemma do_step_pending_cases h g c s st :
  l_groupId h = g → l_identityCommitment h = Some c → c ≠ 0 →
  pending h st →
  (Exists (announces g c) (handled_by (subscribed st) [s]) →
   promiseId h ∈ fulfilled (do_step s st))
  ∧ (¬ Exists (announces g c) (handled_by (subscribed st) [s]) →
     pending h (do_step s st)).
Proof.
  intros Hg Hc Hz Hp.
  assert (Hlog : ∀ e,
    (announces g c e → promiseId h ∈ fulfilled (handler_for (kind_of e) e st))
    ∧ (¬ announces g c e → pending h (handler_for (kind_of e) e st))).
  { intros e. destruct (handler_for_emits e st) as (stm & Hs & _ & ->).
    pose proof (same_wait_pending h st stm Hs Hp) as Hpm.
    apply (pending_foldl_emit_cases h g c (normalize e) stm Hg Hc Hz Hpm). }
  destruct s as [e|e|k|]; cbn [do_step handled_by].
  - destruct (Hlog e) as [Hhit Hmiss]. split.
    + intros [?|?%Exists_nil]%Exists_cons; [auto | done].
    + intros Hno. apply Hmiss. intros Ha. apply Hno. by left.
  - unfold deliver. case_decide.
    + destruct (Hlog e) as [Hhit Hmiss]. split.
      * intros [?|?%Exists_nil]%Exists_cons; [auto | done].
      * intros Hno. apply Hmiss. intros Ha. apply Hno. by left.
    + split; [by intros ?%Exists_nil | done].
  - split; [by intros ?%Exists_nil|]. intros _.
    by apply (same_wait_pending h st).
  - split; [by intros ?%Exists_nil|]. intros _.
    by apply (same_wait_pending h st).
Qed.

(** The wait stays unresolved through a sequence of steps exactly when no
    log that announces its key reaches a closure. *)
Lemma await_created_pending h g c steps st :
  l_groupId h = g → l_identityCommitment h = Some c → c ≠ 0 →
  pending h st →
  (await_created (promiseId h) steps st).2 = None
  ↔ ¬ Exists (announces g c) (handled_by (subscribed st) steps).
Proof.
  intros Hg Hc Hz. revert st. induction steps as [|s rest IH]; intros st Hp.
  - simpl. rewrite bool_decide_eq_false_2 by apply Hp.
    split; [intros _ ?%Exists_nil; done | done].
  - cbn [await_created]. rewrite bool_decide_eq_false_2 by apply Hp.
    change (s :: rest) with ([s] ++ rest).
    rewrite handled_by_app, Exists_app, <- subscribed_do_step.
    destruct (do_step_pending_cases h g c s st Hg Hc Hz Hp) as [Hwake Hstay].
    destruct (decide (Exists (announces g c) (handled_by (subscribed st) [s])))
      as [Hw|Hnw].
    + split; [|intros []; by left]. intros Hnone. exfalso.
      specialize (Hwake Hw). destruct rest as [|s' rest'];
        cbn [await_created] in Hnone;
        by rewrite bool_decide_eq_true_2 in Hnone.
    + rewrite (IH _ (Hstay Hnw)). tauto.
Qed.

Lemma bind_never_suspends {A B} (m : M A) (k : A → M B) :
  never_suspends m → (∀ a, never_suspends (k a)) → never_suspends (bind m k).
Proof.
  intros Hm Hk st. unfold bind. specialize (Hm st).
  destruct (m st) as [[t st'] [a| |]]; simpl in *; [|done..].
  specialize (Hk a st'). by destruct (k a st') as [[? ?] ?].
Qed.

Lemma post_then_never_suspends w url body ok failed :
  never_suspends ok → (∀ err, never_suspends (failed err)) →
  never_suspends (post_then w url body ok failed).
Proof.
  intros Hok Hfailed. unfold post_then. apply bind_never_suspends; [done|].
  intros _. by destruct (axios_post w url body).
Qed.

(** Steps 10 to 12 contain no wait. *)
Lemma main_proofs_never_suspends w groupId identity commitment steps :
  never_suspends (main_proofs w groupId identity commitment steps).
Proof.
  assert (Hgen : ∀ identity group index message scope,
            never_suspends (call_generateProof w identity group index message scope)).
  { intros. unfold call_generateProof. apply bind_never_suspends; [done|].
    intros _. by destruct (generateProof w _ _ _ _ _). }
  unfold main_proofs, loadMembers, Group_new, sendJoinProof, sendModTrainProof.
  repeat first
    [ apply bind_never_suspends; [|intros ?]
    | apply Hgen
    | apply post_then_never_suspends; [|intros ?]
    | case_match
    | by intros ? ].
Qed.

Lemma addMember_returns w groupId commitment st :
  ∃ t, Client.addMember w groupId commitment st = (t, st, Returned tt).
Proof.
  unfold Client.addMember, post_then. rewrite bind_tell.
  destruct (axios_post w _ _); simpl; eauto.
Qed.

(** The run of [main] for a commitment that is not yet a member. *)
Lemma main_not_member w groupId identity commitment st :
  credentials w = inr (identity, commitment) →
  hasMember w groupId commitment = inr false →
  ∃ t,
    Client.addMember w groupId commitment (do_steps (bridge_before w) st)
    = (t, do_steps (bridge_before w) st, Returned tt)
    ∧ let next := wait_then_prove w groupId identity commitment
                    (do_steps (bridge_before w) st) in
      main w groupId st
      = (ConsoleLog (nl :: js "9. Sending a request to join a group to the server")
         :: CallHasMember groupId commitment
         :: t ++ ConsoleLog (nl :: js "Waiting for member event processing...")
                 :: next.1.1,
         next.1.2, next.2).
Proof.
  intros Hcred Hmem.
  destruct (addMember_returns w groupId commitment
              (do_steps (bridge_before w) st)) as (t & Hadd).
  exists t. split; [exact Hadd|]. intros next.
  unfold main, prepare_identity. rewrite Hcred, bind_ret. cbn [fst snd].
  unfold isAlreadyMember. rewrite Hmem.
  rewrite bind_tell, bind_modify, bind_assoc, bind_tell, bind_ret.
  cbn [negb fst snd]. rewrite !bind_assoc.
  rewrite (bind_returned _ _ _ _ _ _ Hadd).
  rewrite bind_assoc, bind_tell. cbn [fst snd app].
  unfold next, wait_then_prove. done.
Qed.

(** X15. There is no timeout on the wait of [main]. For a commitment that
    is not a member and not zero, with no other wait pending, [main] stays
    suspended for ever exactly when, after its registration, no log that
    announces its key reaches a closure of the bridge, be it a log replayed
    from a historical query or a live log whose kind is subscribed when it
    arrives; a rejected add-member request does not change this. *)
Theorem main_waits_until_key_announced w groupId identity commitment st :
  credentials w = inr (identity, commitment) →
  hasMember w groupId commitment = inr false →
  reachable st →
  isWaitingForMemberEvent (do_steps (bridge_before w) st) = false →
  commitment ≠ 0 →
  (main w groupId st).2 = Suspended
  ↔ ¬ Exists (announces groupId commitment)
        (handled_by (subscribed (do_steps (bridge_before w) st))
           (bridge_after w)).
Proof.
  intros Hcred Hmem Hr Hflag Hz.
  destruct (main_not_member w groupId identity commitment st Hcred Hmem)
    as (t & _ & Hmain).
  cbv zeta in Hmain. rewrite Hmain. cbn [snd]. clear Hmain.
  set (st1 := do_steps (bridge_before w) st) in *.
  assert (Hr1 : reachable st1) by by apply reachable_do_steps.
  destruct (reachable_wait_inv st1 Hr1) as [[Hi|(h' & (Hup & _) & _)] Hlt];
    [|congruence].
  destruct (waitForMemberEvent_registers groupId (Some commitment) st1 Hi Hlt)
    as (Hp1 & Hp & _).
  set (h := mkListener (nextPromise st1) groupId (Some commitment)) in *.
  unfold wait_then_prove. rewrite bind_assoc, bind_lift.
  destruct (waitForMemberEvent groupId (Some commitment) st1) as [p st2] eqn:Hw.
  cbn [fst snd] in *. subst p.
  pose proof (await_created_pending h groupId commitment (bridge_after w) st2
                eq_refl eq_refl Hz Hp) as Hawait.
  assert (Hsub : subscribed st2 = subscribed st1).
  { unfold waitForMemberEvent in Hw. rewrite Hflag in Hw.
    by injection Hw as <-. }
  rewrite <- Hsub, <- Hawait. change (promiseId h) with (nextPromise st1).
  unfold bind, await.
  destruct (await_created (nextPromise st1) (bridge_after w) st2)
    as [st3 [rest|]]; cbn [snd].
  - pose proof (main_proofs_never_suspends w groupId identity commitment rest st3)
      as Hns.
    destruct (main_proofs w groupId identity commitment rest st3) as [[? ?] r].
    simpl in *. split; [done | discriminate].
  - done.
Qed.

Lemma main_waits_until_key_announced_witness :
  (main Examples.early_event (js "7") Examples.listening).2 = Suspended.
Proof.
  assert (Hr : reachable Examples.listening).
  { apply reachable_startBlockchainListeners, reach_initial. }
  assert (Hz : 123 ≠ 0) by lia.
  apply (main_waits_until_key_announced Examples.early_event (js "7")
           Examples.identity0 123 Examples.listening eq_refl eq_refl Hr eq_refl Hz).
  by intros ?%Exists_nil.
Defined.

(** The coordinator may run while the bridge is still starting. Here it
    registers its wait before the bridge has subscribed to any member
    event; the replay of the historical [MemberAdded] log resolves the
    wait, and both proofs are sent. *)
Example run_resolved_by_replayed_log :
  (main Examples.replayed (js "7") initial).2 = Returned tt
  ∧ posted_urls (main Examples.replayed (js "7") initial).1.1
    = [add_member_url Examples.replayed;
       join_url Examples.replayed (js "7");
       modtrain_url Examples.replayed (js "7")]
  ∧ subscribed (main Examples.replayed (js "7") initial).1.2
    = [KGroupCreated; KMemberAdded].
Proof. by vm_compute. Qed.

(** ** [run] *)

Lemma emitted_deliver e st :
  emitted (deliver e st)
  = emitted st ++ (if decide (kind_of e ∈ subscribed st) then normalize e else []).
Proof.
  unfold deliver. case_decide; [apply emitted_handler_for|].
  by rewrite app_nil_r.
Qed.

Lemma groups_of_normalize e :
  ev_groupId <$> filter (λ ev, ev_name ev = GroupCreatedName) (normalize e)
  = match e with GroupCreated g => [BigInt_toString g] | _ => [] end.
Proof.
  destruct e; cbn [normalize]; rewrite ?filter_cons, ?filter_nil;
    try case_decide; try done; simpl in *; try discriminate.
Qed.

(** The events a step of the bridge emits. *)
Lemma emitted_do_step s st :
  ∃ evs, emitted (do_step s st) = emitted st ++ evs
         ∧ ev_groupId <$> filter (λ ev, ev_name ev = GroupCreatedName) evs
           = match announced_group s st with Some g => [g] | None => [] end.
Proof.
  destruct s as [e|e|k|]; simpl.
  - exists (normalize e). split; [apply emitted_handler_for|].
    rewrite groups_of_normalize. by destruct e.
  - exists (if decide (kind_of e ∈ subscribed st) then normalize e else []).
    split; [apply emitted_deliver|].
    destruct e; cbn [kind_of]; case_decide; rewrite ?groups_of_normalize; done.
  - exists []. by rewrite app_nil_r.
  - exists []. by rewrite app_nil_r.
Qed.

Lemma emitted_steps steps st :
  ∃ evs, emitted (foldl (λ st s, do_step s st) st steps) = emitted st ++ evs.
Proof.
  revert st. induction steps as [|s steps IH]; intros st; simpl.
  - exists []. by rewrite app_nil_r.
  - destruct (emitted_do_step s st) as (evs & He & _).
    destruct (IH (do_step s st)) as (evs' & He').
    exists (evs ++ evs'). by rewrite He', He, app_assoc.
Qed.

Lemma groups_created_step s st st' :
  (∃ evs, emitted st' = emitted (do_step s st) ++ evs) →
  groups_created st st'
  = match announced_group s st with Some g => [g] | None => [] end
    ++ groups_created (do_step s st) st'.
Proof.
  intros (evs' & He'). destruct (emitted_do_step s st) as (evs & He & Hg).
  unfold groups_created. rewrite He', !He.
  rewrite (drop_app_length (emitted st ++ evs)).
  rewrite <- app_assoc, drop_app_length.
  by rewrite filter_app, fmap_app, Hg.
Qed.

(** [waitForGroupCreated] in terms of what the emitter saw. *)
Lemma first_group_created_spec steps st :
  first_group_created steps st
  = (head (groups_created st (foldl (λ st s, do_step s st) st steps)),
     foldl (λ st s, do_step s st) st steps).
Proof.
  revert st. induction steps as [|s steps IH]; intros st.
  - simpl. unfold groups_created. by rewrite drop_all.
  - cbn [first_group_created foldl].
    rewrite (groups_created_step s st) by apply emitted_steps.
    destruct (announced_group s st) as [g|]; [done|]. apply IH.
Qed.

(** X16. With no group id stored, [run] announces that it waits and
    attaches a one-shot listener. If the bridge then emits no
    [GroupCreated] event, [run] stays suspended; otherwise [main] is run
    once, for the group of the first [GroupCreated] event emitted, in the
    state the bridge has reached, and later events of that kind start
    nothing. *)
Theorem run_waits_for_first_group w steps st :
  let st1 := foldl (λ st s, do_step s st) st steps in
  run w [] steps st
  = match groups_created st st1 with
    | [] => ([RunLog (nl :: js "Waiting for group creation...") None],
             st1, Suspended)
    | groupId :: _ =>
        finish (RunLog (nl :: js "Waiting for group creation...") None)
          (main w groupId st1)
    end.
Proof.
  cbv zeta. unfold run, waitForGroupCreated.
  rewrite first_group_created_spec.
  destruct (groups_created st _) as [|groupId others]; cbn [head]; [done|].
  unfold finish. destruct (main w groupId _) as [[t st2] [[]|e|]]; done.
Qed.

(** X17. [run] never ends with an error. With a group id stored it runs
    [main] at once for the first stored id, whatever the others are and
    whatever the bridge does meanwhile; an error thrown by [main], such as
    the commitment-not-found error, is printed by the final [catch] and
    [run] returns. *)
Theorem run_prints_the_error_of_main w groupExistant steps st :
  (∀ e, (run w groupExistant steps st).2 ≠ Threw e)
  ∧ (∀ groupId others,
       groupExistant = groupId :: others →
       run w groupExistant steps st
       = finish (RunLog (nl :: js "Group exists with Id : ") (Some groupId))
           (main w groupId st))
  ∧ (∀ first t st' e,
       finish first (t, st', Threw e)
       = (first :: (InMain <$> t) ++ [RunError e], st', Returned tt)).
Proof.
  split; [|split].
  - intros e. unfold run.
    destruct groupExistant as [|groupId others].
    + destruct (waitForGroupCreated steps st) as [[t0 st1] [groupId| |]]; try done.
      by destruct (main w groupId st1) as [[t st2] [[]|e'|]].
    + by destruct (main w groupId st) as [[t st2] [[]|e'|]].
  - intros groupId others ->. unfold run, finish.
    by destruct (main w groupId st) as [[t st2] [[]|e'|]].
  - done.
Qed.

Lemma run_prints_the_error_of_main_witness :
  run Examples.already_member [js "7"; js "8"] [] initial
  = ([RunLog (nl :: js "Group exists with Id : ") (Some (js "7"));
      InMain (ConsoleLog
                (nl :: js "9. Sending a request to join a group to the server"));
      InMain (CallHasMember (js "7") 123);
      InMain (ConsoleLog (nl :: js "Already a member."));
      InMain CallLoadMembers;
      InMain (ConsoleLogMembers
                (nl :: js "10. The members of the group :" ++ [nl; nl]) None);
      InMain (ConsoleLog
                (nl :: js "11. Sending proof of membership to the server"));
      RunError (JsError (nl :: js "Commitment not found in the group"))],
     initial, Returned tt).
Proof.
  destruct (run_prints_the_error_of_main Examples.already_member
              [js "7"; js "8"] [] initial) as (_ & Hrun & _).
  rewrite (Hrun (js "7") [js "8"] eq_refl). reflexivity.
Defined.

(** Group 7 is created while [run] waits; the later creation of group 8
    starts nothing. *)
Example run_after_group_creation :
  (run Examples.already_member []
     [Attach KGroupCreated; LiveLog (GroupCreated 7); LiveLog (GroupCreated 8)]
     initial).1.1
  = [RunLog (nl :: js "Waiting for group creation...") None;
     InMain (ConsoleLog
               (nl :: js "9. Sending a request to join a group to the server"));
     InMain (CallHasMember (js "7") 123);
     InMain (ConsoleLog (nl :: js "Already a member."));
     InMain CallLoadMembers;
     InMain (ConsoleLogMembers
               (nl :: js "10. The members of the group :" ++ [nl; nl]) None);
     InMain (ConsoleLog
               (nl :: js "11. Sending proof of membership to the server"));
     RunError (JsError (nl :: js "Commitment not found in the group"))].
Proof. by vm_compute. Qed.

(** ** A normal return of [main] *)

Lemma bind_returned_inv {A B} (m : M A) (k : A → M B) st b :
  (bind m k st).2 = Returned b →
  ∃ t st' a, m st = (t, st', Returned a)
             ∧ (k a st').2 = Returned b
             ∧ (bind m k st).1.1 = t ++ (k a st').1.1.
Proof.
  unfold bind. destruct (m st) as [[t st'] [a| |]]; simpl; try done.
  intros H. exists t, st', a. destruct (k a st') as [[t' st''] r]. done.
Qed.

Lemma sendJoinProof_returned w groupId group identity commitment st :
  (sendJoinProof w groupId group identity commitment st).2 = Returned tt →
  posted_urls (sendJoinProof w groupId group identity commitment st).1.1
  = [join_url w groupId].
Proof.
  unfold sendJoinProof. case_match; [done|].
  unfold bind, call_generateProof, post_then, tell, throw, ret.
  destruct (generateProof w _ _ _ _ _); simpl; [done|].
  by destruct (axios_post w _ _).
Qed.

Lemma sendModTrainProof_returned w groupId group identity commitment scope
    deltaw st :
  (sendModTrainProof w groupId group identity commitment scope deltaw st).2
  = Returned tt →
  posted_urls
    (sendModTrainProof w groupId group identity commitment scope deltaw st).1.1
  = [modtrain_url w groupId].
Proof.
  unfold sendModTrainProof. case_match; [done|].
  destruct (map_items deltaw); [done|].
  unfold bind, call_generateProof, post_then, tell, throw, ret.
  destruct (generateProof w _ _ _ _ _); simpl; [done|].
  by destruct (axios_post w _ _).
Qed.

Lemma main_proofs_returned w groupId identity commitment steps st :
  (main_proofs w groupId identity commitment steps st).2 = Returned tt →
  posted_urls (main_proofs w groupId identity commitment steps st).1.1
  = [join_url w groupId; modtrain_url w groupId].
Proof.
  unfold main_proofs, loadMembers, Group_new.
  rewrite !bind_assoc, bind_tell, bind_assoc, bind_modify, bind_lift.
  cbn [fst snd]. rewrite bind_tell. cbn [fst snd].
  destruct (new_Group w _) as [e|group]; [by rewrite bind_throw|].
  rewrite bind_ret, bind_tell. cbn [fst snd]. intros Hret.
  apply bind_returned_inv in Hret as (t1 & st1 & [] & Hjoin & Hrest & ->).
  pose proof (sendJoinProof_returned w groupId group identity commitment
                (do_steps steps st)) as Hj.
  rewrite Hjoin in Hj. cbn [fst snd] in Hj. specialize (Hj eq_refl).
  rewrite bind_tell in Hrest |- *. cbn [fst snd] in Hrest |- *.
  apply sendModTrainProof_returned in Hrest.
  unfold posted_urls in *. cbn [omap list_omap]. rewrite omap_app.
  cbn [omap list_omap]. by rewrite Hj, Hrest.
Qed.

Lemma addMember_posts_once w groupId commitment st :
  posted_urls (Client.addMember w groupId commitment st).1.1 = [add_member_url w].
Proof.
  unfold Client.addMember, post_then. rewrite bind_tell.
  by destruct (axios_post w _ _).
Qed.

Lemma wait_is_silent groupId commitment steps st :
  (bind (lift (waitForMemberEvent groupId (Some commitment)))
     (λ p, await p steps) st).1.1 = [].
Proof.
  rewrite bind_lift. unfold await.
  destruct (waitForMemberEvent _ _ st).1; simpl; try done.
  by destruct (await_created _ _ _) as [? [?|]].
Qed.

(** X18. [main] returns normally only after it has posted both proofs, in
    order, preceded by the add-member request exactly when the chain said
    "not a member". It does so whether or not the verifier accepted them:
    a normal return does not tell that a proof was accepted. *)
Theorem main_returns_after_both_posts w groupId st :
  (main w groupId st).2 = Returned tt →
  ∃ identity commitment alreadyMember,
    credentials w = inr (identity, commitment)
    ∧ hasMember w groupId commitment = inr alreadyMember
    ∧ posted_urls (main w groupId st).1.1
      = (if alreadyMember then [] else [add_member_url w])
        ++ [join_url w groupId; modtrain_url w groupId].
Proof.
  destruct (credentials w) as [e|[identity commitment]] eqn:Hcred.
  { unfold main, prepare_identity. by rewrite Hcred, bind_throw. }
  destruct (hasMember w groupId commitment) as [e|[|]] eqn:Hmem.
  - unfold main, prepare_identity. rewrite Hcred, bind_ret. cbn [fst snd].
    unfold isAlreadyMember. rewrite Hmem.
    rewrite bind_tell, bind_modify, bind_assoc, bind_tell, bind_assoc, bind_tell.
    by rewrite bind_throw.
  - intros Hret. exists identity, commitment, true.
    split; [done|]. split; [done|]. revert Hret.
    unfold main, prepare_identity. rewrite Hcred, bind_ret. cbn [fst snd].
    unfold isAlreadyMember. rewrite Hmem.
    rewrite bind_tell, bind_modify, bind_assoc, bind_tell, bind_ret.
    cbn [negb fst snd]. rewrite bind_assoc, bind_tell, bind_ret. cbn [fst snd].
    intros Hret%main_proofs_returned. unfold posted_urls in *.
    cbn [omap list_omap]. by rewrite Hret.
  - intros Hret. exists identity, commitment, false.
    split; [done|]. split; [done|]. revert Hret.
    destruct (main_not_member w groupId identity commitment st Hcred Hmem)
      as (t & Hadd & Hmain).
    cbv zeta in Hmain. rewrite Hmain. cbn [fst snd]. clear Hmain.
    pose proof (addMember_posts_once w groupId commitment
                  (do_steps (bridge_before w) st)) as Hposts.
    rewrite Hadd in Hposts. cbn [fst] in Hposts.
    unfold wait_then_prove. intros Hret.
    apply bind_returned_inv in Hret as (t1 & st1 & steps & Hwait & Hrest & ->).
    pose proof (wait_is_silent groupId commitment (bridge_after w)
                  (do_steps (bridge_before w) st)) as Hsilent.
    rewrite Hwait in Hsilent. cbn [fst] in Hsilent. subst t1.
    apply main_proofs_returned in Hrest. unfold posted_urls in *.
    cbn [omap list_omap app]. rewrite omap_app. cbn [omap list_omap].
    by rewrite Hposts, Hrest.
Qed.

Lemma main_returns_after_both_posts_witness :
  posted_urls
    (main Examples.rejecting (js "7")
       (set_disk {[ js "7" := [js "5"; js "123"] ]} initial)).1.1
  = [join_url Examples.rejecting (js "7");
     modtrain_url Examples.rejecting (js "7")].
Proof.
  assert (Hret : (main Examples.rejecting (js "7")
                    (set_disk {[ js "7" := [js "5"; js "123"] ]} initial)).2
                 = Returned tt) by (vm_compute; reflexivity).
  destruct (main_returns_after_both_posts Examples.rejecting (js "7")
              (set_disk {[ js "7" := [js "5"; js "123"] ]} initial) Hret)
    as (identity & commitment & alreadyMember & Hcred & Hmem & Hposts).
  rewrite Hposts. injection Hcred as <- <-. injection Hmem as <-.
  reflexivity.
Defined.
